(** * MG-GA: k-anonymisation by exhaustive search (MinGen) and by a genetic
    algorithm.

    A shallow embedding of the anonymisation engine of [src/shared.h],
    [src/domains.h], [src/table.h], [src/metrics.h], [src/mg.h] and
    [src/ga.h], followed by the properties of the specification that the
    embedding settles.

    Conventions of the embedding.
    - [std::string] and [std::string_view] are [string].
    - [size_t] values that only index or count small containers are [nat];
      where the source relies on the 64-bit width (the product of
      [get_distinct], the [SIZE_MAX] sentinels, the width of a [Range]) they
      are [Z] with the wrap-around written out.
    - [float] is idealised: finite values are exact rationals, and the IEEE
      special values are kept because divisions of the source can produce
      them. Rounding is not modelled.
    - A C++ exception, a failed [assert] and an access outside a container
      end the computation with an [exn]. *)

From Stdlib Require Import ZArith QArith Lia Lqa String Ascii.
From stdpp Require Import base option list gmap strings fin_maps pretty.

Open Scope string_scope.
Open Scope nat_scope.
Open Scope list_scope.

Set Warnings "-register-all".

(** ** Failures *)

Inductive exn : Type :=
  | TreeCollision        (* std::runtime_error("Tree collision!") *)
  | ValueDoesNotExist    (* std::runtime_error("Value does not exist") *)
  | InvalidModification  (* std::runtime_error("Invalid modification!") *)
  | InvalidArgument      (* std::invalid_argument of std::stoi *)
  | IntOutOfRange        (* std::out_of_range of std::stoi *)
  | AssertionFailed      (* assert(...) *)
  | OutOfBounds          (* operator[] / map::at / std::next outside the container *)
  | DivisionByZero       (* integer [%] by zero *)
  | Fuel.                (* the recursion bound of the embedding is used up *)

Inductive result (A : Type) : Type :=
  | Ok (a : A)
  | Err (e : exn).
Arguments Ok {A} a.
Arguments Err {A} e.

#[global] Instance result_ret : MRet result := λ A a, Ok a.
#[global] Instance result_bind : MBind result :=
  λ A B f r, match r with Ok a => f a | Err e => Err e end.
#[global] Instance result_fmap : FMap result :=
  λ A B f r, match r with Ok a => Ok (f a) | Err e => Err e end.

(** [v[i]] on a vector: outside the vector the source has no defined
    behaviour, the embedding stops. *)
Definition at_ {A} (l : list A) (i : nat) : result A :=
  match l !! i with Some a => Ok a | None => Err OutOfBounds end.

(** [for (x : l)] with an accumulator, in any of the monads below. *)
Fixpoint foldM {Mo : Type → Type} `{MBind Mo, MRet Mo} {A B}
    (f : B → A → Mo B) (b : B) (l : list A) : Mo B :=
  match l with
  | [] => mret b
  | a :: l' => b' ← f b a; foldM f b' l'
  end.

(** Computations over a state [S] that may fail: the state is lost with the
    failure, as the source never catches. *)
Definition M (S A : Type) : Type := S → result (A * S).

#[global] Instance M_ret {S} : MRet (M S) := λ A a s, Ok (a, s).
#[global] Instance M_bind {S} : MBind (M S) :=
  λ A B f c s, match c s with Ok (a, s') => f a s' | Err e => Err e end.

(** What a computation returns, and the state it leaves. *)
Definition eval {S A} (c : M S A) (s : S) : result A := fst <$> c s.
Definition exec {S A} (c : M S A) (s : S) : result S := snd <$> c s.

Definition lift {S A} (r : result A) : M S A :=
  λ s, match r with Ok a => Ok (a, s) | Err e => Err e end.
Definition get_state {S} : M S S := λ s, Ok (s, s).
Definition modify {S} (f : S → S) : M S unit := λ s, Ok (tt, f s).

(** ** Idealised [float]

    A finite value is a rational, and [fadd], [fmul] and [fdiv] do not
    round, where the source computes in binary32. What is proved of scores
    and fitness below are signs, zero tests, comparisons and the values on
    small inputs. *)

Inductive float : Type :=
  | Fin (q : Q)
  | PInf
  | NInf
  | NaN.

Definition INFINITY : float := PInf.

Definition float_of_nat (n : nat) : float := Fin (inject_Z (Z.of_nat n)).
Definition float_of_Z (z : Z) : float := Fin (inject_Z z).

Definition fadd (a b : float) : float :=
  match a, b with
  | NaN, _ | _, NaN => NaN
  | PInf, NInf | NInf, PInf => NaN
  | PInf, _ | _, PInf => PInf
  | NInf, _ | _, NInf => NInf
  | Fin x, Fin y => Fin (x + y)
  end.

(** The infinity that the sign of [x] selects; [0 * inf] is NaN. *)
Definition inf_of_sign (x : Q) (pos neg : float) : float :=
  match x ?= 0 with Eq => NaN | Gt => pos | Lt => neg end%Q.

Definition fmul (a b : float) : float :=
  match a, b with
  | NaN, _ | _, NaN => NaN
  | Fin x, Fin y => Fin (x * y)
  | Fin x, PInf | PInf, Fin x => inf_of_sign x PInf NInf
  | Fin x, NInf | NInf, Fin x => inf_of_sign x NInf PInf
  | PInf, PInf | NInf, NInf => PInf
  | PInf, NInf | NInf, PInf => NInf
  end.

(** Division. The divisors of the source are never [-0.0] (they are
    converted sizes or sums that start from [+0.0]), so [x / 0] takes the
    sign of [x]. *)
Definition fdiv (a b : float) : float :=
  match a, b with
  | NaN, _ | _, NaN => NaN
  | Fin x, Fin y =>
      if Qeq_bool y 0 then inf_of_sign x PInf NInf else Fin (x / y)
  | Fin _, _ => Fin 0
  | PInf, Fin y => match y ?= 0 with Lt => NInf | _ => PInf end%Q
  | NInf, Fin y => match y ?= 0 with Lt => PInf | _ => NInf end%Q
  | _, _ => NaN
  end.

Definition feqb (a b : float) : bool :=
  match a, b with
  | Fin x, Fin y => Qeq_bool x y
  | PInf, PInf | NInf, NInf => true
  | _, _ => false
  end.

Definition fltb (a b : float) : bool :=
  match a, b with
  | NaN, _ | _, NaN => false
  | Fin x, Fin y => match x ?= y with Lt => true | _ => false end%Q
  | NInf, NInf | PInf, _ | _, NInf => false
  | _, _ => true
  end.

Definition fleb (a b : float) : bool := fltb a b || feqb a b.
Definition fneb (a b : float) : bool := negb (feqb a b).
Definition fgtb (a b : float) : bool := fltb b a.

(** Equality of idealised floats up to the representation of the rational. *)
Definition feq (a b : float) : Prop :=
  match a, b with
  | Fin x, Fin y => (x == y)%Q
  | PInf, PInf | NInf, NInf | NaN, NaN => True
  | _, _ => False
  end.

(** ** Strings *)

Definition SIZE_MAX : Z := 2 ^ 64 - 1.
Definition to_size_t (z : Z) : Z := z mod 2 ^ 64.

(** [s[0] == c]; on the empty string [s[0]] is the terminator. *)
Definition starts_with (c : ascii) (s : string) : bool :=
  match s with
  | String h _ => Ascii.eqb h c
  | EmptyString => false
  end.

Fixpoint last_char (s : string) : option ascii :=
  match s with
  | EmptyString => None
  | String h EmptyString => Some h
  | String _ s' => last_char s'
  end.

(** [shared::split] for a delimiter of one character. *)
Fixpoint split (inp : string) (delim : ascii) : list string :=
  match inp with
  | EmptyString => [EmptyString]
  | String h s' =>
      if Ascii.eqb h delim then EmptyString :: split s' delim
      else match split s' delim with
           | piece :: ret => String h piece :: ret
           | [] => [String h EmptyString]
           end
  end.

(** [shared::strip]. The first loop erases the leading blanks. The second
    starts at [in.length() - 1] and erases blanks from the end; for a string
    that is empty by then this index lies outside the string. *)
Fixpoint strip_front (s : string) : string :=
  match s with
  | String h s' => if Ascii.eqb h " " then strip_front s' else s
  | EmptyString => s
  end.

Fixpoint strip_back (s : string) : string :=
  match s with
  | EmptyString => EmptyString
  | String h s' =>
      match strip_back s' with
      | EmptyString =>
          if Ascii.eqb h " " then EmptyString else String h EmptyString
      | rest => String h rest
      end
  end.

Definition strip (inp : string) : result string :=
  match strip_front inp with
  | EmptyString => Err OutOfBounds
  | s => Ok (strip_back s)
  end.

Definition isspace (c : ascii) : bool :=
  let n := nat_of_ascii c in (n =? 32) || ((9 <=? n) && (n <=? 13)).

Fixpoint skip_space (s : string) : string :=
  match s with
  | String h s' => if isspace h then skip_space s' else s
  | EmptyString => s
  end.

Definition digit_of (c : ascii) : option Z :=
  let n := nat_of_ascii c in
  if (48 <=? n) && (n <=? 57) then Some (Z.of_nat (n - 48)) else None.

(** The longest prefix of decimal digits, [None] when there is none. *)
Fixpoint digits (s : string) (acc : Z) (seen : bool) : option Z :=
  match s with
  | String h s' =>
      match digit_of h with
      | Some d => digits s' (10 * acc + d)%Z true
      | None => if seen then Some acc else None
      end
  | EmptyString => if seen then Some acc else None
  end.

(** The conversion shared by [std::stoi] and [std::atoi]: blanks, an
    optional sign, decimal digits; what follows the digits is ignored. *)
Definition strtol (s : string) : option Z :=
  match skip_space s with
  | String "-"%char s' => Z.opp <$> digits s' 0%Z false
  | String "+"%char s' => digits s' 0%Z false
  | s' => digits s' 0%Z false
  end.

Definition stoi (s : string) : result Z :=
  match strtol s with
  | None => Err InvalidArgument
  | Some z =>
      if ((- 2 ^ 31 <=? z) && (z <? 2 ^ 31))%Z then Ok z else Err IntOutOfRange
  end.

Definition atoi (s : string) : Z := default 0%Z (strtol s).

(** ** [shared.h]: the prefix tree of the caches and integer ranges *)

Module shared.

(** What [Tree<T>] needs of [T]: the value-initialised [T()] and the test
    [value == T()]. *)
Class Defaulted (T : Type) : Type := {
  T_default : T;
  is_default : T → bool;
  default_is_default : is_default T_default = true
}.

#[global] Instance float_defaulted : Defaulted float := {|
  T_default := Fin 0;
  is_default v := feqb v (Fin 0);
  default_is_default := eq_refl
|}.

#[global] Instance vector_defaulted : Defaulted (list nat) := {|
  T_default := [];
  is_default v := match v with [] => true | _ => false end;
  default_is_default := eq_refl
|}.

(** [Tree<T>::Node]: a key, a value and the child nodes. *)
Inductive Node (T : Type) : Type :=
  mkNode { key : string; value : T; states : list (Node T) }.
Arguments mkNode {T} key value states.
Arguments key {T} n.
Arguments value {T} n.
Arguments states {T} n.

(** [std::find(states.begin(), states.end(), val)]: the first child whose
    key is [val], with its position. *)
Definition find_state {T} (val : string) (l : list (Node T))
  : option (nat * Node T) :=
  list_find (λ c, key c = val) l.

Section Node.
Context {T : Type} `{Defaulted T}.

(** The recursions of the source run on a counter [x] from [0] to
    [max + 1] and read [row[x]]; here they run on the cells
    [row[x], ..., row[max]] that are left, so that [x == max + 1] is the
    empty list. *)
Fixpoint Node_add (ks : list string) (v : T) (n : Node T)
  : result (Node T) :=
  match ks with
  | [] =>
      if is_default (value n) then Ok (mkNode (key n) v (states n))
      else Err TreeCollision
  | val :: ks' =>
      match find_state val (states n) with
      | None =>
          c ← Node_add ks' v (mkNode val T_default []);
          Ok (mkNode (key n) (value n) (states n ++ [c]))
      | Some (i, c) =>
          c' ← Node_add ks' v c;
          Ok (mkNode (key n) (value n) (<[i := c']> (states n)))
      end
  end.

Fixpoint Node_in (ks : list string) (n : Node T) : bool :=
  match ks with
  | [] => negb (is_default (value n))
  | val :: ks' =>
      match states n with
      | [] => false
      | _ =>
          match find_state val (states n) with
          | None => false
          | Some (_, c) => Node_in ks' c
          end
      end
  end.

Fixpoint Node_get (ks : list string) (n : Node T) : result T :=
  match ks with
  | [] => Ok (value n)
  | val :: ks' =>
      match find_state val (states n) with
      | None => Err ValueDoesNotExist
      | Some (_, c) => Node_get ks' c
      end
  end.
End Node.

Record Tree (T : Type) : Type :=
  mkTree { root : Node T; hits : nat; misses : nat }.
Arguments mkTree {T} root hits misses.
Arguments root {T} t.
Arguments hits {T} t.
Arguments misses {T} t.

(** [Tree() = default]: an empty root and no statistics. *)
Definition Tree_empty {T} `{Defaulted T} : Tree T :=
  mkTree (mkNode "" T_default []) 0 0.

(** The cells a call walks: [row[0..max]], and the whole row when [max]
    is left to its default [SIZE_MAX] ([None]). The source reads [row[x]]
    without a check; a row that is too short ends the computation. *)
Definition cells_of (row : list string) (max : option nat)
  : result (list string) :=
  let depth := match max with None => length row | Some m => S m end in
  if decide (depth ≤ length row) then Ok (take depth row)
  else Err OutOfBounds.

Section Tree.
Context {T : Type} `{Defaulted T}.

Definition add (row : list string) (matches : T) (max : option nat)
  : M (Tree T) unit :=
  λ t,
    ks ← cells_of row max;
    r ← Node_add ks matches (root t);
    Ok (tt, mkTree r (hits t) (misses t)).

Definition in_ (row : list string) (max : option nat)
  : M (Tree T) bool :=
  λ t,
    ks ← cells_of row max;
    let i := Node_in ks (root t) in
    Ok (i, if i then mkTree (root t) (S (hits t)) (misses t)
           else mkTree (root t) (hits t) (S (misses t))).

Definition get (row : list string) (max : option nat) (t : Tree T)
  : result T :=
  ks ← cells_of row max;
  Node_get ks (root t).
End Tree.

(** [shared::Range]: bounds as [size_t] and the text they came from. *)
Record Range : Type := mkRange { min : Z; max : Z; out : string }.

(** [Range(const std::string&)], with the assertions enabled. *)
Definition Range_of_string (s : string) : result Range :=
  if negb (starts_with "[" s && bool_decide (last_char s = Some "]"%char))
  then Err AssertionFailed
  else
    let trimmed := substring 1 (String.length s - 2) s in
    match split trimmed "-" with
    | [lo; hi] =>
        m ← stoi lo;
        M ← stoi hi;
        Ok (mkRange (to_size_t m) (to_size_t M) s)
    | _ => Err AssertionFailed
    end.

(** [Range(const size_t&, const size_t&)] with [update_string]. *)
Definition Range_of_bounds (m M : Z) : Range :=
  let lo := if (m <? M)%Z then m else M in
  let hi := if (m <? M)%Z then M else m in
  mkRange lo hi
    ("[" +:+ pretty (Z.to_N lo) +:+ "-" +:+ pretty (Z.to_N hi) +:+ "]").

(** [update_string], [update_min], [update_max] and [update]. *)
Definition update_string (r : Range) : Range :=
  mkRange (min r) (max r)
    ("[" +:+ pretty (Z.to_N (min r)) +:+ "-" +:+ pretty (Z.to_N (max r))
         +:+ "]").

Definition update_min (m : Z) (r : Range) : Range :=
  if ((m <? min r) || (min r =? max r))%Z then mkRange m (max r) (out r)
  else r.

Definition update_max (M : Z) (r : Range) : Range :=
  if ((max r <? M) || (min r =? max r))%Z then mkRange (min r) M (out r)
  else r.

Definition update (q r : Range) : Range :=
  update_string (update_max (max q) (update_min (min q) r)).

Definition str (r : Range) : string := out r.

(** [std::set<Range>] is ordered by [operator <], which compares [out];
    it is kept as the list of its elements in that order. [emplace]
    leaves the set as it is when it holds a range with the same text;
    [erase] removes the range with the text of its argument. *)
Fixpoint set_emplace (r : Range) (l : list Range) : list Range :=
  match l with
  | [] => [r]
  | x :: l' =>
      match String.compare (out r) (out x) with
      | Lt => r :: l
      | Eq => l
      | Gt => x :: set_emplace r l'
      end
  end.

Definition set_erase (r : Range) (l : list Range) : list Range :=
  filter (λ x, out x ≠ out r) l.

(** [in(const size_t&)] and [in(const Range&)]. *)
Definition in_val (r : Range) (val : Z) : bool :=
  ((min r <=? val) && (val <=? max r))%Z.
Definition in_range (r val : Range) : bool :=
  ((min r <=? min val) && (max val <=? max r))%Z.

(** [range()]: [max - min] on [size_t]. *)
Definition range (r : Range) : Z := to_size_t (max r - min r).

End shared.

(** ** [domains.h]: generalisation hierarchies *)

Module domain.

(** A node and its children; the cached node count [s] of the source is
    read by nothing in the engine and is left out. *)
Inductive Domain : Type :=
  mkDomain { value : string; children : list Domain }.

(** [Domain() = default]. *)
Definition Domain_default : Domain := mkDomain "" [].

Definition empty (d : Domain) : bool :=
  match value d with EmptyString => true | _ => false end.

(** The private [find(child, stack)]: [Some st] when it returns [true],
    [st] being what it appended to the stack. *)
Fixpoint find_stack (d : Domain) (child : string) : option (list string) :=
  match d with
  | mkDomain _ cs =>
      (fix each (cs : list Domain) : option (list string) :=
         match cs with
         | [] => None
         | c :: cs' =>
             if String.eqb (value c) child then Some [value c]
             else match find_stack c child with
                  | Some st => Some (st ++ [value c])
                  | None => each cs'
                  end
         end) cs
  end.

(** The public [find(child)]: the path from the node up to, and without,
    the root; empty when the node is not in the tree. *)
Definition find (d : Domain) (child : string) : list string :=
  default [] (find_stack d child).

Fixpoint breadth (d : Domain) (name : string) : nat :=
  match d with
  | mkDomain _ cs =>
      (fix each (rest : list Domain) : nat :=
         match rest with
         | [] => 0
         | c :: rest' =>
             if String.eqb (value c) name then length cs
             else match breadth c name with
                  | 0 => each rest'
                  | inn => inn
                  end
         end) cs
  end.

(** [get(child)]: the position of the direct child of that name, which
    is appended when there is none. *)
Definition get (d : Domain) (child : string) : nat * Domain :=
  match list_find (λ c, value c = child) (children d) with
  | Some (i, _) => (i, d)
  | None =>
      (length (children d),
       mkDomain (value d) (children d ++ [mkDomain child []]))
  end.

(** [add(path)]: the walk along [current = &current->get(p)], as the
    update of the children it passes through. *)
Fixpoint add (path : list string) (d : Domain) : result Domain :=
  match path with
  | [] => Ok d
  | p :: path' =>
      p ← strip p;
      let (i, d) := get d p in
      c ← at_ (children d) i;
      c' ← add path' c;
      Ok (mkDomain (value d) (<[i := c']> (children d)))
  end.

End domain.

(** ** Randomness

    [std::shuffle] and [std::uniform_int_distribution] are taken through
    their contracts: an engine state, a shuffle that permutes, and draws
    that stay inside the closed interval of the distribution. *)

Class Random : Type := {
  engine : Type;
  shuffle : list string → engine → list string * engine;
  uniform_int : Z → Z → engine → Z * engine;
  shuffle_perm : ∀ l g, (shuffle l g).1 ≡ₚ l;
  uniform_int_range :
    ∀ a b g, (a ≤ b)%Z → (a ≤ (uniform_int a b g).1 ≤ b)%Z
}.

(** ** [table.h]: the table and the mutations of a cell *)

Module table.

(** Column types; [string] of the source is [string_] here. *)
Inductive type : Type := string_ | integer.

Inductive classification : Type := ignore | quasi | sensitive.

#[global] Instance type_eq_dec : EqDecision type.
Proof. solve_decision. Defined.
#[global] Instance classification_eq_dec : EqDecision classification.
Proof. solve_decision. Defined.

(** [struct column]. [unique] is a [std::set<std::string>]; [ranges] is a
    [std::set<shared::Range>], kept as the list of its elements in
    iteration order. The rendering width is left out. *)
Record column : Type := mkColumn {
  t : type;
  weight : Q;
  sensitivity : classification;
  unique : gset string;
  ranges : list shared.Range;
  range : shared.Range;
  graph : domain.Domain;
  data : list string
}.

(** [class Table]: the header, the row count and the map from column
    names to columns ([data] of the source, [tdata] here). *)
Record Table : Type := mkTable {
  header : list string;
  rows : nat;
  tdata : gmap string column
}.

(** [data.at(header[index])]. *)
Definition index (tb : Table) (i : nat) : result column :=
  h ← at_ (header tb) i;
  match tdata tb !! h with
  | Some col => Ok col
  | None => Err OutOfBounds
  end.

Definition get_column (tb : Table) (c : nat) : result column := index tb c.

(** [index(r, c)]: one cell. *)
Definition cell (tb : Table) (r c : nat) : result string :=
  col ← index tb c;
  at_ (data col) r.

Definition columns (tb : Table) : nat := length (header tb).

Definition with_data (col : column) (d : list string) : column :=
  mkColumn (t col) (weight col) (sensitivity col) (unique col)
           (ranges col) (range col) (graph col) d.

(** Assignment through the reference [index(c).data[r]]. *)
Definition set_cell (tb : Table) (r c : nat) (v : string) : result Table :=
  h ← at_ (header tb) c;
  match tdata tb !! h with
  | Some col =>
      if decide (r < length (data col)) then
        Ok (mkTable (header tb) (rows tb)
              (<[h := with_data col (<[r := v]> (data col))]> (tdata tb)))
      else Err OutOfBounds
  | None => Err OutOfBounds
  end.

(** The view of [RowIterator] at [row]: the cells of the row in header
    order. (The view that [inc] builds on reaching [row_end] is read by
    nothing and is not modelled.) *)
Definition row_view (tb : Table) (row : nat) : result (list string) :=
  mapM (λ x, cell tb row x) (seq 0 (length (header tb))).

(** [mutations(value, col, randomize)] up to its last statement: the
    candidates in the order in which they are emplaced. With
    [randomize = false] this is what the function returns; the shuffle of
    [randomize = true] is [mutations_rand] below. *)
Definition mutations (value : string) (col : column)
  : result (list string) :=
  let ret := ["*"] in
  let ret :=
    if negb (domain.empty (graph col))
    then ret ++ domain.find (graph col) value
    else if negb (String.eqb value "") then ret ++ [value]
    else ret in
  match t col with
  | integer =>
      if starts_with "[" value then
        r ← shared.Range_of_string value;
        Ok (ret ++ (shared.str <$>
              filter (λ range, shared.in_range range r) (ranges col)))
      else
        number ← stoi value;
        Ok (ret ++ (shared.str <$>
              filter (λ range, shared.in_val range (to_size_t number))
                     (ranges col)))
  | string_ => Ok ret
  end.

(** [generate_ranges(col)]. The two [std::stoi] are arguments of one
    call; they are taken from left to right here. *)
Definition generate_ranges (col : column) : result column :=
  col ←
    match t col with
    | integer =>
        foldM (λ col x,
                 foldM (λ col y,
                          if String.eqb x y || String.eqb x "*"
                             || String.eqb y "*"
                          then Ok col
                          else
                            r ←
                              (if starts_with "[" x
                               then shared.Range_of_string x
                               else if starts_with "[" y
                               then shared.Range_of_string y
                               else
                                 a ← stoi x;
                                 b ← stoi y;
                                 Ok (shared.Range_of_bounds
                                       (to_size_t a) (to_size_t b)));
                            Ok (mkColumn (t col) (weight col)
                                  (sensitivity col) (unique col)
                                  (shared.set_emplace r (ranges col))
                                  (shared.update r (range col))
                                  (graph col) (data col)))
                       col (data col))
              col (data col)
    | string_ =>
        Ok (mkColumn (t col) (weight col) (sensitivity col) (unique col)
              (ranges col)
              (shared.Range_of_bounds 0 (Z.of_nat (size (unique col))))
              (graph col) (data col))
    end;
  let r := shared.update_string (range col) in
  Ok (mkColumn (t col) (weight col) (sensitivity col) (unique col)
        (shared.set_erase r (ranges col)) r (graph col) (data col)).

(** [get_distinct]: the product, on [size_t], of the number of mutations
    of every cell of every column of the map, replaced by [SIZE_MAX] when
    the table has more than 64 cells. The columns are visited in the
    order of the map; the product does not depend on it. *)
Definition get_distinct (tb : Table) : result Z :=
  total ← foldM (λ total (col : string * column),
              foldM (λ total e,
                       mut ← mutations e col.2;
                       Ok (to_size_t (total * Z.of_nat (length mut))))
                    total (data col.2))
           1%Z (map_to_list (tdata tb));
  h0 ← at_ (header tb) 0;
  match tdata tb !! h0 with
  | Some col0 =>
      if decide (64 < length (header tb) * length (data col0))
      then Ok SIZE_MAX else Ok total
  | None => Err OutOfBounds
  end.

(** [Table() = default]. *)
Definition Table_default : Table := mkTable [] 0 ∅.

Section Randomized.
Context `{Random}.

(** [std::ranges::shuffle(ret, shared::rng)]. *)
Definition do_shuffle (ret : list string) : M engine (list string) :=
  λ g, Ok (shuffle ret g).

(** [mutations(value, col, randomize)] on the engine [shared::rng]. *)
Definition mutations_rand (value : string) (col : column)
    (randomize : bool) : M engine (list string) :=
  ret ← lift (mutations value col);
  if randomize then do_shuffle ret else mret ret.

(** [random()]: every cell of every quasi column is replaced by the
    first element of its shuffled mutations. *)
Definition random (tb : Table) : M engine Table :=
  foldM (Mo := M engine) (λ copy col,
           column ← lift (get_column copy col);
           if negb (bool_decide (sensitivity column = quasi))
           then mret copy
           else
             foldM (Mo := M engine) (λ copy row,
                      column ← lift (get_column copy col);
                      value ← lift (at_ (data column) row);
                      muts ← mutations_rand value column true;
                      first ← lift (at_ muts 0);
                      lift (set_cell copy row col first))
                   copy (seq 0 (length (data column))))
        tb (seq 0 (length (header tb))).
End Randomized.

(** [operator<], the order of a [std::multiset<Table>]: the first
    character of the first cell of the first column ([0] for an empty
    cell, the terminator). The characters are compared as [char]s;
    [char] is taken as signed, as on x86; cells that start with an ASCII
    character compare the same either way. *)
Definition first_char (tb : Table) : result Z :=
  col ← index tb 0;
  c ← at_ (data col) 0;
  Ok (match c with
      | String a _ =>
          let n := Z.of_N (N_of_ascii a) in
          if (n <? 128)%Z then n else (n - 256)%Z
      | EmptyString => 0%Z
      end).

Definition table_lt (a b : Table) : result bool :=
  x ← first_char a;
  y ← first_char b;
  Ok (x <? y)%Z.

End table.

(** ** [metrics.h]: the two scores and the k-anonymity verifier *)

Module metric.
Import table.

(** [enum metric {md, c}]. *)
Inductive metric : Type := md | c.

(** The statics that the metrics share: the switch [shared::cache], the
    two caches and the count of early exits. *)
Record state : Type := mkState {
  cache : bool;
  score_cache : shared.Tree float;
  match_cache : shared.Tree (list nat);
  match_trims : nat
}.

(** The state at program start, with the cache switch as given. *)
Definition initial (enabled : bool) : state :=
  mkState enabled shared.Tree_empty shared.Tree_empty 0.

Definition on_score {A} (f : M (shared.Tree float) A) : M state A :=
  λ st, match f (score_cache st) with
        | Ok (a, tr) =>
            Ok (a, mkState (cache st) tr (match_cache st) (match_trims st))
        | Err e => Err e
        end.

Definition on_match {A} (f : M (shared.Tree (list nat)) A) : M state A :=
  λ st, match f (match_cache st) with
        | Ok (a, tr) =>
            Ok (a, mkState (cache st) (score_cache st) tr (match_trims st))
        | Err e => Err e
        end.

(** [score_cache.get(row)] and [match_cache.get(row, c)]. *)
Definition score_get (row : list string) : M state float :=
  λ st, v ← shared.get row None (score_cache st); Ok (v, st).

Definition match_get (row : list string) (upto : nat)
  : M state (list nat) :=
  λ st, v ← shared.get row (Some upto) (match_cache st); Ok (v, st).

(** The row loop that [minimal_distortion] and [certainty_score] share:
    a row that the score cache holds is served from it, any other row is
    scored by [row_score] and stored. *)
Definition score_rows (row_score : nat → list string → result float)
    (w : Table) : M state float :=
  foldM (Mo := M state) (λ score r,
           row ← lift (row_view w r);
           st ← get_state;
           hit ← (if cache st then on_score (shared.in_ row None)
                  else mret false);
           if hit : bool then
             v ← score_get row;
             mret (fadd score v)
           else
             rs ← lift (row_score r row);
             _ ← (if cache st then on_score (shared.add row rs None)
                  else mret tt);
             mret (fadd score rs))
        (Fin 0) (seq 0 (rows w)).

(** The score of one row under minimal distortion: the weight of the
    working table's column for every cell that differs. *)
Definition md_row (w o : Table) (r : nat) (row : list string)
  : result float :=
  foldM (λ row_score col,
           original ← cell o r col;
           mod_ ← at_ row col;
           if negb (String.eqb original mod_) then
             column ← get_column w col;
             Ok (fadd row_score (Fin (weight column)))
           else Ok row_score)
        (Fin 0) (seq 0 (columns w)).

Definition minimal_distortion (w o : Table) : M state float :=
  score_rows (md_row w o) w.

(** The score of one cell under the certainty metric, before the weight
    is applied; [None] for an unchanged cell ([continue]). *)
Definition certainty_cell (w : Table) (col : nat) (original mod_ : string)
  : result (option float) :=
  if String.eqb original mod_ then Ok None
  else if String.eqb mod_ "*" then Ok (Some (fadd (Fin 0) (Fin 1)))
  else
    column ← get_column w col;
    let graph := graph column in
    if negb (domain.empty graph)
       && negb (bool_decide (domain.find graph mod_ = []))
    then Ok (Some (fadd (Fin 0)
                     (fdiv (float_of_nat (domain.breadth graph mod_))
                           (float_of_nat (size (unique column))))))
    else if bool_decide (t column = integer) && starts_with "[" mod_
    then
      rg ← shared.Range_of_string mod_;
      Ok (Some (fadd (Fin 0)
                  (fdiv (float_of_Z (shared.range rg))
                        (float_of_Z (shared.range (range column))))))
    else Err InvalidModification.

Definition certainty_row (w o : Table) (r : nat) (row : list string)
  : result float :=
  foldM (λ row_score col,
           original ← cell o r col;
           mod_ ← at_ row col;
           cs ← certainty_cell w col original mod_;
           match cs with
           | None => Ok row_score
           | Some col_score =>
               ocol ← get_column o col;
               Ok (fadd row_score (fmul col_score (Fin (weight ocol))))
           end)
        (Fin 0) (seq 0 (columns w)).

Definition certainty_score (w o : Table) : M state float :=
  score_rows (certainty_row w o) w.

(** One cell of [match_row]: [true] for [continue], [false] for the
    [break] with [match = false]. *)
Definition cell_matches (o : Table) (x : nat) (rx cx : string)
  : result bool :=
  if String.eqb rx cx || String.eqb rx "*" then Ok true
  else
    column ← get_column o x;
    if negb (bool_decide (sensitivity column = quasi)) then Ok true
    else
      let graph := graph column in
      if negb (domain.empty graph) then
        if bool_decide (cx ∈ domain.find graph rx) then Ok true
        else if bool_decide (rx ∈ domain.find graph cx) then Ok true
        else Ok false
      else if bool_decide (t column = integer) && starts_with "[" rx then
        rg ← shared.Range_of_string rx;
        Ok (shared.in_val rg (to_size_t (atoi cx)))
      else Ok false.

(** The inner loop of [match_row] over the columns [xs]. *)
Fixpoint row_matches (o : Table) (row compare : list string)
    (xs : list nat) : result bool :=
  match xs with
  | [] => Ok true
  | x :: xs' =>
      rx ← at_ row x;
      cx ← at_ compare x;
      b ← cell_matches o x rx cx;
      if b : bool then row_matches o row compare xs' else Ok false
  end.

(** The body of [match_row] when the cache does not answer. *)
Definition compute_matches (o : Table) (row : list string) (upto : nat)
  : result (list nat) :=
  foldM (λ matches r,
           compare ← row_view o r;
           b ← row_matches o row compare (seq 0 (S upto));
           Ok (if b : bool then matches ++ [r] else matches))
        [] (seq 0 (rows o)).

Definition match_row (o : Table) (row : list string) (upto : nat)
  : M state (list nat) :=
  st ← get_state;
  hit ← (if cache st then on_match (shared.in_ row (Some upto))
         else mret false);
  if hit : bool then match_get row upto
  else
    matches ← lift (compute_matches o row upto);
    _ ← (if cache st then on_match (shared.add row matches (Some upto))
         else mret tt);
    mret matches.

(** [k_tree]: [rest] is [matches[x..]], [tree] the originals chosen for
    the rows before [x], [ks] the sets collected so far. *)
Fixpoint k_tree (rest : list (list nat)) (tree : list nat)
    (ks : list (gset nat)) : list (gset nat) :=
  match rest with
  | [] => zip_with (λ s x, s ∪ {[x]}) ks tree
  | options :: rest' =>
      foldl (λ ks option,
               if bool_decide (option ∈ tree) then ks
               else k_tree rest' (tree ++ [option]) ks)
            ks options
  end.

(** The first loop of [k_anonymity]: [None] is the early [return false]. *)
Fixpoint gather (w o : Table) (k upto : nat) (rs : list nat)
    (matches : list (list nat)) : M state (option (list (list nat))) :=
  match rs with
  | [] => mret (Some matches)
  | r :: rs' =>
      row ← lift (row_view w r);
      mt ← match_row o row upto;
      if decide (length mt < k) then
        _ ← modify (λ st, mkState (cache st) (score_cache st)
                            (match_cache st) (S (match_trims st)));
        mret None
      else gather w o k upto rs' (matches ++ [mt])
  end.

(** The column bound: [None] is the default argument [SIZE_MAX]. *)
Definition bound (w : Table) (upto : option nat) : nat :=
  match upto with
  | None => columns w - 1
  | Some x => x
  end.

Definition k_anonymity (w o : Table) (k : nat) (upto : option nat)
  : M state bool :=
  let upto := bound w upto in
  g ← gather w o k upto (seq 0 (rows w)) [];
  match g with
  | None => mret false
  | Some matches =>
      let tree := k_tree matches [] (replicate (length matches) ∅) in
      mret (forallb (λ solutions : gset nat, negb (size solutions <? k)) tree)
  end.

Definition av_k_anonymity (w o : Table) (upto : option nat)
  : M state float :=
  let upto := bound w upto in
  matches ← foldM (Mo := M state) (λ matches r,
                     row ← lift (row_view w r);
                     mt ← match_row o row upto;
                     mret (matches ++ [mt]))
                  [] (seq 0 (rows w));
  let tree := k_tree matches [] (replicate (length matches) ∅) in
  let score :=
    foldl (λ score (solutions : gset nat),
             fadd score (float_of_nat (size solutions)))
          (Fin 0) tree in
  mret (fdiv score (float_of_nat (length tree))).

End metric.

(** ** The process: the statics of [shared.h] and [metrics.h], and what is
    written to the terminal *)

(** The lines that matter to the specification; the verbose log, the title
    and the live view are not modelled. The tables of [Stats] are those of
    the multiset that [print_stats] is given, in the order in which they
    were emplaced. *)
Inductive event : Type :=
  | AlreadyMeets
  | NotKAnonymous
  | Stats (tables : list table.Table) (max total states : Z) (best : float).

Record process `{Random} : Type := mkProcess {
  metrics : metric.state;
  rng : engine;
  gen : engine;
  cout : list event
}.
Arguments mkProcess {_} metrics rng gen cout.

Section Process.
Context `{Random}.

Definition on_metrics {A} (f : M metric.state A) : M process A :=
  λ p, match f (metrics p) with
       | Ok (a, ms) => Ok (a, mkProcess ms (rng p) (gen p) (cout p))
       | Err e => Err e
       end.

Definition on_rng {A} (f : M engine A) : M process A :=
  λ p, match f (rng p) with
       | Ok (a, g) => Ok (a, mkProcess (metrics p) g (gen p) (cout p))
       | Err e => Err e
       end.

Definition on_gen {A} (f : M engine A) : M process A :=
  λ p, match f (gen p) with
       | Ok (a, g) => Ok (a, mkProcess (metrics p) (rng p) g (cout p))
       | Err e => Err e
       end.

Definition print (e : event) : M process unit :=
  λ p, Ok (tt, mkProcess (metrics p) (rng p) (gen p) (cout p ++ [e])).

(** An object [Self] with the process around it. *)
Definition on_process {Self A} (f : M process A) : M (Self * process) A :=
  λ sp, match f sp.2 with
        | Ok (a, p) => Ok (a, (sp.1, p))
        | Err e => Err e
        end.

Definition self {Self} : M (Self * process) Self := λ sp, Ok (sp.1, sp).

Definition update {Self} (f : Self → Self) : M (Self * process) unit :=
  λ sp, Ok (tt, (f sp.1, sp.2)).
End Process.

(** ** [mg.h]: the exhaustive search with pruning *)

Module mg.
Import table.

(** The fields of [class MinGen]; the mutex is not modelled. [tables] is
    the multiset of tied-best tables, kept in the order of insertion. *)
Record MinGen : Type := mkMinGen {
  working : Table;
  original : Table;
  k : nat;
  m : metric.metric;
  max : Z;
  states : Z;
  tables : list Table;
  view : Table;
  best : float
}.

Definition reset (s : MinGen) : MinGen :=
  mkMinGen (working s) (original s) (k s) (m s) SIZE_MAX 0 [] (view s)
           INFINITY.

(** [MinGen(const table::Table& o) : original(o) {reset();}]. *)
Definition construct (o : Table) : MinGen :=
  reset (mkMinGen Table_default o 2 metric.md SIZE_MAX 0 [] Table_default
                  INFINITY).

Section Search.
Context `{Random}.

#[local] Abbreviation MG := (M (MinGen * process)).

Definition score_of (s : MinGen) : M metric.state float :=
  match m s with
  | metric.md => metric.minimal_distortion (working s) (original s)
  | metric.c => metric.certainty_score (working s) (original s)
  end.

Definition score_results : MG unit :=
  _ ← update (λ s, mkMinGen (working s) (original s) (k s) (m s) (max s)
                     (to_size_t (states s + 1)) (tables s) (view s)
                     (best s));
  s ← self;
  score ← on_process (on_metrics (score_of s));
  _ ← (if feqb (best s) INFINITY || fltb score (best s) then
         update (λ s, mkMinGen (working s) (original s) (k s) (m s)
                        (max s) (states s) [] (working s) score)
       else mret tt);
  s ← self;
  if feqb score (best s) then
    update (λ s, mkMinGen (working s) (original s) (k s) (m s) (max s)
                   (states s) (tables s ++ [working s]) (view s) (best s))
  else mret tt.

(** A [float] used as a condition: true unless it is zero. *)
Definition float_to_bool (f : float) : bool := fneb f (Fin 0).

(** The condition of the [if] at the last row of a column, as C++
    parses it: [?:] binds weaker than [<=], so the comparison with
    [best] belongs to the third operand only, and under [metric::c]
    the score itself is the left operand of [&&]. *)
Definition prune_test (col : nat) : MG bool :=
  s ← self;
  a ← on_process (on_metrics
         match m s with
         | metric.c =>
             sc ← metric.certainty_score (working s) (original s);
             mret (float_to_bool sc)
         | metric.md =>
             sc ← metric.minimal_distortion (working s) (original s);
             mret (fleb sc (best s))
         end);
  if a : bool then
    on_process (on_metrics
      (metric.k_anonymity (working s) (original s) (k s) (Some col)))
  else mret false.

Definition assign (row col : nat) (v : string) : MG unit :=
  s ← self;
  w ← on_process (lift (set_cell (working s) row col v));
  update (λ s, mkMinGen w (original s) (k s) (m s) (max s) (states s)
                 (tables s) (view s) (best s)).

(** The [for] loop over the mutations of a cell; [inner] is what the
    body does between the assignment and its undoing. The early
    [return] leaves the loop without a further iteration. *)
Fixpoint each_mutation (row col : nat) (copy : string) (inner : MG unit)
    (muts : list string) : MG unit :=
  match muts with
  | [] => mret tt
  | mut :: rest =>
      _ ← update (λ s, mkMinGen (working s) (original s) (k s) (m s)
                         (max s) (to_size_t (states s + 1)) (tables s)
                         (view s) (best s));
      s ← self;
      if (max s <=? states s)%Z then mret tt
      else
        _ ← assign row col mut;
        _ ← inner;
        _ ← assign row col copy;
        each_mutation row col copy inner rest
  end.

(** [anonymize_worker(row, col)]. The recursion of the source ends
    because every call moves to a later cell; the embedding counts the
    calls down from [fuel]. *)
Fixpoint anonymize_worker (fuel : nat) (row col : nat) : MG unit :=
  match fuel with
  | 0 => λ _, Err Fuel
  | S fuel =>
      s ← self;
      if (states s =? max s)%Z then mret tt
      else if col =? columns (working s) then score_results
      else
        column ← on_process (lift (index (working s) col));
        if negb (bool_decide (sensitivity column = quasi))
        then anonymize_worker fuel row (col + 1)
        else
          copy ← on_process (lift (at_ (data column) row));
          muts ← on_process (on_rng
                    (mutations_rand copy column
                       (negb (max s =? SIZE_MAX)%Z)));
          each_mutation row col copy
            (if row =? length (data column) - 1 then
               b ← prune_test col;
               if b : bool then
                 if col =? length (header (working s)) - 1
                 then score_results
                 else anonymize_worker fuel 0 (col + 1)
               else mret tt
             else anonymize_worker fuel (row + 1) col)
            muts
  end.

(** Calls of the worker are nested at most once per cell and once per
    column. *)
Definition enough_fuel (tb : Table) : nat :=
  S (length (header tb)) * S (S (rows tb)).

(** [anonymize(k_val, m_val, iters)], on the path of
    [shared::single_thread]; the other path runs the same worker on a
    second thread. The colour of the title ([shared::pick_mode], which
    draws from [shared::rng] until the colour changes) belongs to the
    display and is not modelled. *)
Definition anonymize (k_val : nat) (m_val : metric.metric) (iters : Z)
  : MG unit :=
  _ ← update (λ s, mkMinGen (original s) (original s) k_val m_val iters
                     (states s) (tables s) (view s) (best s));
  s ← self;
  already ← on_process (on_metrics
               (metric.k_anonymity (working s) (original s) (k s)
                  (Some (columns (original s) - 1))));
  if already : bool then on_process (print AlreadyMeets)
  else
    total ← on_process (lift (get_distinct (working s)));
    _ ← anonymize_worker (enough_fuel (original s)) 0 0;
    s ← self;
    _ ← on_process
          (print (Stats (tables s) (max s) total (states s) (best s)));
    update reset.
End Search.

End mg.

(** ** [ga.h]: the genetic algorithm *)

Module ga.
Import table.

(** [struct instance]: a table and its fitness. *)
Record instance : Type := mkInstance { s : float; table : Table }.

(** [std::uniform_int_distribution<>]: the closed interval [[a, b]]. *)
Record distribution : Type := mkDistribution { a : Z; b : Z }.

(** A [size_t] converted to the [int] bound of a distribution. *)
Definition to_int (z : Z) : Z := ((z + 2 ^ 31) mod 2 ^ 32 - 2 ^ 31)%Z.

(** The fields of [class GeneticAlgorithm]. [k] is a [float] that only
    ever holds the integral [k_val]; it is kept as that number. *)
Record GeneticAlgorithm : Type := mkGA {
  original : Table;
  k : nat;
  best : float;
  m : metric.metric;
  max : Z;
  population : Z;
  states : Z;
  cutoff : Z;
  m_rate : Z;
  cells : Z;
  iter : Z;
  roll : distribution;
  mutations : distribution;
  view : instance;
  generation : list instance
}.

Definition with_best (v : float) (g : GeneticAlgorithm) :=
  mkGA (original g) (k g) v (m g) (max g) (population g) (states g)
       (cutoff g) (m_rate g) (cells g) (iter g) (roll g) (mutations g)
       (view g) (generation g).
Definition with_states (v : Z) (g : GeneticAlgorithm) :=
  mkGA (original g) (k g) (best g) (m g) (max g) (population g) v
       (cutoff g) (m_rate g) (cells g) (iter g) (roll g) (mutations g)
       (view g) (generation g).
Definition with_m_rate (v : Z) (g : GeneticAlgorithm) :=
  mkGA (original g) (k g) (best g) (m g) (max g) (population g) (states g)
       (cutoff g) v (cells g) (iter g) (roll g) (mutations g)
       (view g) (generation g).
Definition with_iter (v : Z) (g : GeneticAlgorithm) :=
  mkGA (original g) (k g) (best g) (m g) (max g) (population g) (states g)
       (cutoff g) (m_rate g) (cells g) v (roll g) (mutations g)
       (view g) (generation g).
Definition with_roll (v : distribution) (g : GeneticAlgorithm) :=
  mkGA (original g) (k g) (best g) (m g) (max g) (population g) (states g)
       (cutoff g) (m_rate g) (cells g) (iter g) v (mutations g)
       (view g) (generation g).
Definition with_view (v : instance) (g : GeneticAlgorithm) :=
  mkGA (original g) (k g) (best g) (m g) (max g) (population g) (states g)
       (cutoff g) (m_rate g) (cells g) (iter g) (roll g) (mutations g)
       v (generation g).
Definition with_generation (v : list instance) (g : GeneticAlgorithm) :=
  mkGA (original g) (k g) (best g) (m g) (max g) (population g) (states g)
       (cutoff g) (m_rate g) (cells g) (iter g) (roll g) (mutations g)
       (view g) v.

(** The assignments that open [anonymize]. *)
Definition setup (k_val : nat) (m_val : metric.metric)
    (iters p_val mut_rate : Z) (g : GeneticAlgorithm) :=
  mkGA (original g) k_val (best g) m_val
       (if (iters =? SIZE_MAX)%Z then max g else iters) p_val (states g)
       (cutoff g) mut_rate (cells g) (iter g) (roll g) (mutations g)
       (view g) (generation g).

(** [reset()]. *)
Definition reset (g : GeneticAlgorithm) : GeneticAlgorithm :=
  with_iter 0 (with_states 0 (with_best INFINITY g)).

(** The constructor, with the default member initialisers: [mutations] is
    initialised from the default [m_rate = 10], and [roll] is
    default-constructed. *)
Definition construct (o : Table) : result GeneticAlgorithm :=
  col0 ← get_column o 0;
  Ok (mkGA o 2 INFINITY metric.md 1000 100 0 10 10
           (to_size_t (Z.of_nat (columns o) * Z.of_nat (length (data col0))))
           0
           (mkDistribution 0 (2 ^ 31 - 1))
           (mkDistribution 0 (to_int (100 + 10)))
           (mkInstance (Fin 0) Table_default)
           []).

(** [std::multiset<instance, decltype(score_lambda)>::emplace]: the
    instances are kept by descending fitness, a new one after its
    equals. *)
Fixpoint emplace (x : instance) (l : list instance) : list instance :=
  match l with
  | [] => [x]
  | e :: l' => if fgtb (s x) (s e) then x :: l else e :: emplace x l'
  end.

(** [fitness(f)]. *)
Definition fitness (g : GeneticAlgorithm) (f : Table)
  : M metric.state float :=
  kanon ← metric.k_anonymity f (original g) (k g) None;
  if kanon : bool then
    let score := float_of_nat (k g) in
    s_score ← match m g with
              | metric.md => metric.minimal_distortion f (original g)
              | metric.c => metric.certainty_score f (original g)
              end;
    mret (fdiv (fmul score (float_of_Z (cells g))) s_score)
  else
    av ← metric.av_k_anonymity f (original g) None;
    mret (fdiv av (float_of_nat (k g))).

(** The loop of [generate_return]: tables are taken until the first
    fitness that differs from [top]. *)
Fixpoint tied (top : float) (gen : list instance) : list Table :=
  match gen with
  | [] => []
  | solution :: gen' =>
      if fneb (s solution) top then []
      else table solution :: tied top gen'
  end.

(** The lambda [generate_return]: the tables of the [std::multiset<Table>]
    that it returns, in the order in which they are emplaced. *)
Definition generate_return (gen : list instance) : result (list Table) :=
  top ← at_ gen 0;
  Ok (tied (s top) gen).

(** [*tables.begin()] of the [std::multiset<Table>] that received the
    tables of [l] in this order. [emplace] puts a table behind those that
    are not greater, so the first element is the earliest of the least
    under [operator<]. *)
Fixpoint tables_begin_from (b : Table) (l : list Table) : result Table :=
  match l with
  | [] => Ok b
  | t :: l' =>
      lt ← table_lt t b;
      tables_begin_from (if lt : bool then t else b) l'
  end.

Definition tables_begin (l : list Table) : result Table :=
  match l with
  | [] => Err OutOfBounds
  | b :: l' => tables_begin_from b l'
  end.

Section Evolution.
Context `{Random}.

#[local] Abbreviation GA := (M (GeneticAlgorithm * process)).

(** A draw from a distribution on the engine [shared::gen]. *)
Definition draw (d : distribution) : M engine Z :=
  λ g, Ok (uniform_int (a d) (b d) g).

(** [combine(first, second)]; the child is the updated [first]. *)
Definition combine (first second : Table) : GA Table :=
  g ← self;
  foldM (Mo := GA) (λ first col,
           fc ← on_process (lift (get_column first col));
           sc ← on_process (lift (get_column second col));
           if negb (bool_decide (sensitivity fc = quasi)) then mret first
           else
             foldM (Mo := GA) (λ first row,
                      mutate ← on_process (on_gen (draw (mutations g)));
                      if (100 <? mutate)%Z then
                        value ← on_process (lift (cell (original g) row col));
                        ocol ← on_process (lift (get_column (original g) col));
                        muts ← on_process (on_rng
                                  (mutations_rand value ocol true));
                        chosen ← on_process (lift (at_ muts 0));
                        on_process (lift (set_cell first row col chosen))
                      else if (mutate <? 50)%Z then
                        v ← on_process (lift (at_ (data sc) row));
                        on_process (lift (set_cell first row col v))
                      else mret first)
                   first (seq 0 (length (data fc))))
        first (seq 0 (columns (original g))).

(** [update_view(update)]. *)
Definition update_view (u : instance) : GA unit :=
  update (λ g, with_best (s u) (with_view u g)).

(** The children of one elite: [y] runs over the offspring, [current]
    is recombined in place from one child to the next. *)
Definition breed (offspring : nat) (current : instance)
    (children : list instance) : GA (list instance) :=
  cc ← foldM (Mo := GA) (λ (cc : instance * list instance) (_ : nat),
          _ ← update (λ g, with_states (to_size_t (states g + 1)) g);
          g ← self;
          i ← on_process (on_gen (draw (roll g)));
          partner ← on_process (lift (at_ (generation g) (Z.to_nat i)));
          tb ← combine (table cc.1) (table partner);
          g ← self;
          fit ← on_process (on_metrics (fitness g tb));
          let current := mkInstance fit tb in
          mret (current, emplace current cc.2))
        (current, children) (seq 0 offspring);
  mret cc.2.

(** One turn of the generation loop of [anonymize_worker]. *)
Definition generation_step (tenth : Z) (it : Z) : GA unit :=
  _ ← update (with_iter it);
  _ ← (if (tenth =? 0)%Z then on_process (lift (Err DivisionByZero))
       else if ((it + 1) mod tenth =? 0)%Z then
         (* The two distributions declared here are locals of the
            block: the members [roll] and [mutations] keep their
            values. *)
         _ ← update (λ g, with_m_rate (to_size_t (m_rate g * 2)) g);
         g ← self;
         top ← on_process (lift (at_ (generation g) 0));
         update_view top
       else mret tt);
  g ← self;
  top ← on_process (lift (at_ (generation g) 0));
  _ ← update (with_best (s top));
  let offspring := (to_size_t (population g - cutoff g) / cutoff g)%Z in
  children ← foldM (Mo := GA) (λ children x,
                g ← self;
                current ← on_process (lift (at_ (generation g) x));
                let children := emplace current children in
                _ ← update (λ g, with_states (to_size_t (states g + 1)) g);
                breed (Z.to_nat offspring) current children)
              [] (seq 0 (Z.to_nat (cutoff g)));
  update (with_generation children).

(** [anonymize_worker()]. *)
Definition anonymize_worker : GA (list Table) :=
  g ← self;
  let tenth := (max g / 10)%Z in
  _ ← foldM (Mo := GA) (λ _ it, generation_step tenth (Z.of_nat it))
            tt (seq 0 (Z.to_nat (max g)));
  (* the loop leaves [iter == max] *)
  _ ← update (with_iter (max g));
  g ← self;
  on_process (lift (generate_return (generation g))).

(** [anonymize(k_val, m_val, iters, p_val, mut_rate)] on the path of
    [shared::single_thread]. The colour of the title
    ([shared::pick_mode]) is not modelled, as in [mg.anonymize]. *)
Definition anonymize (k_val : nat) (m_val : metric.metric)
    (iters p_val mut_rate : Z) : GA unit :=
  _ ← update (setup k_val m_val iters p_val mut_rate);
  g ← self;
  _ ← foldM (Mo := GA) (λ _ _,
          g ← self;
          i ← on_process (on_rng (random (original g)));
          fit ← on_process (on_metrics (fitness g i));
          update (λ g, with_generation
                         (emplace (mkInstance fit i) (generation g)) g))
        tt (seq 0 (Z.to_nat (population g)));
  _ ← update (λ g, with_roll (mkDistribution 0 (to_int (cutoff g))) g);
  g ← self;
  total ← on_process (lift (get_distinct (original g)));
  tables ← anonymize_worker;
  b ← on_process (lift (tables_begin tables));
  g ← self;
  sc ← on_process (on_metrics
          match m g with
          | metric.md => metric.minimal_distortion b (original g)
          | metric.c => metric.certainty_score b (original g)
          end);
  _ ← update (with_best sc);
  kanon ← on_process (on_metrics
             (metric.k_anonymity b (original g) (k g) None));
  _ ← (if kanon : bool then mret tt
       else on_process (print NotKAnonymous));
  g ← self;
  _ ← on_process
        (print (Stats tables (max g) total (states g) (best g)));
  update reset.
End Evolution.

End ga.

(** * Specification-side definitions and sample data *)

(** The tree of the score cache after [{"a","b"}] was stored with 1. *)
Definition tree_ab : shared.Tree float :=
  shared.mkTree
    (shared.mkNode ""
       (Fin 0)
       [shared.mkNode "a" (Fin 0) [shared.mkNode "b" (Fin 1) []]])
    0 0.


(** ** Tables as the loader builds them *)

(** A column of strings without a hierarchy, as the constructor of [Table]
    and [generate_ranges] leave it: the set of its values, no ranges, and
    the range [[0-|unique|]]. *)
Definition string_column (w : Q) (sens : table.classification)
    (d : list string) : table.column :=
  table.mkColumn table.string_ w sens (list_to_set d) []
    (shared.Range_of_bounds 0 (Z.of_nat (size (list_to_set d : gset string))))
    domain.Domain_default d.

(** The same with a hierarchy. *)
Definition domain_column (w : Q) (g : domain.Domain) (d : list string)
    : table.column :=
  table.mkColumn table.string_ w table.quasi (list_to_set d) []
    (shared.Range_of_bounds 0 (Z.of_nat (size (list_to_set d : gset string))))
    g d.

(** A table of one column. *)
Definition single (name : string) (col : table.column) : table.Table :=
  table.mkTable [name] (length (table.data col)) {[ name := col ]}.

(** ** Specification side of [get_distinct] *)













(** ** Specification side of the k-anonymity verifier *)

(** [M[r] = match_row(O, W[r], c)] for every row of [W], computed afresh. *)
Definition match_sets (w o : table.Table) (upto : nat)
    : result (list (list nat)) :=
  mapM (λ r, row ← table.row_view w r; metric.compute_matches o row upto)
       (seq 0 (table.rows w)).

(** A global assignment: an original for every row, taken from the match
    set of the row, no original taken twice. *)
Definition assignment (Ms : list (list nat)) (σ : list nat) : Prop :=
  Forall2 (λ o m, o ∈ m) σ Ms ∧ NoDup σ.

(** [o ∈ K[r]]: some assignment gives the original [o] to row [r]. *)
Definition assigned (Ms : list (list nat)) (r o : nat) : Prop :=
  ∃ σ, assignment Ms σ ∧ σ !! r = Some o.

(** What the match cache may hold while the searches run against the
    original [o]: under every stored prefix, the matches of that prefix. *)
Definition match_sound (o : table.Table) (st : metric.state) : Prop :=
  metric.cache st = true →
  ∀ ks v, ks ≠ [] →
    shared.Node_in ks (shared.root (metric.match_cache st)) = true →
    shared.Node_get ks (shared.root (metric.match_cache st)) = Ok v →
    metric.compute_matches o ks (length ks - 1) = Ok v.

(** The table of scenario S4: one suppressed man. *)
Definition s4_original : table.Table :=
  single "sex" (string_column 1 table.quasi ["M"; "M"; "F"; "F"]).
Definition s4_working : table.Table :=
  single "sex"
    (table.with_data (string_column 1 table.quasi ["M"; "M"; "F"; "F"])
       ["*"; "M"; "F"; "F"]).

(** The set of row [r] in a vector of sets; empty outside the vector. *)
Definition set_at (ks : list (gset nat)) (r : nat) : gset nat :=
  default ∅ (ks !! r).

(** [o] is given to row [r] by an extension of the partial assignment
    [tree] over the rows whose match sets are [rest]. *)
Definition completes (rest : list (list nat)) (tree : list nat)
    (r o : nat) : Prop :=
  ∃ σ, Forall2 (λ o m, o ∈ m) σ rest
       ∧ NoDup (tree ++ σ)
       ∧ (tree ++ σ) !! r = Some o.

(** ** Specification side of the scores *)

Definition nonneg_weights (tb : table.Table) : Prop :=
  map_Forall (λ _ col, 0 <= table.weight col)%Q (table.tdata tb).

(** [0 <= x] on idealised floats. *)
Definition fnonneg (x : float) : Prop := fleb (Fin 0) x = true.
(** "NaN or not below zero": what the operations of the scores keep. *)
Definition nan_or_nonneg (x : float) : Prop := x = NaN ∨ fnonneg x.

(** Every score that the score cache serves has the property [P]. *)
Definition served (P : float → Prop) (st : metric.state) : Prop :=
  ∀ ks v,
    shared.Node_in ks (shared.root (metric.score_cache st)) = true →
    shared.Node_get ks (shared.root (metric.score_cache st)) = Ok v →
    P v.

(** Two outcomes that agree: the same failure, or related values. *)
Definition agree {A} (R : A → A → Prop) (x y : result A) : Prop :=
  match x, y with
  | Ok a, Ok b => R a b
  | Err e, Err e' => e = e'
  | _, _ => False
  end.

(** The row loop of the scores without the cache. *)
Definition score_rows_uncached
    (row_score : nat → list string → result float) (w : table.Table)
    : result float :=
  foldM (λ score r,
           row ← table.row_view w r;
           rs ← row_score r row;
           Ok (fadd score rs))
        (Fin 0) (seq 0 (table.rows w)).

(** A suppressed cell under a negative weight. *)
Definition debt_original : table.Table :=
  single "q" (string_column (-10) table.quasi ["A"]).
Definition debt_working : table.Table :=
  single "q"
    (table.with_data (string_column (-10) table.quasi ["A"]) ["*"]).

(** A hierarchy of jobs and tables over it. *)
Definition jobs : domain.Domain :=
  domain.mkDomain "Job"
    [domain.mkDomain "Blue Collar"
       [domain.mkDomain "Mechanic" []; domain.mkDomain "Plumber" []];
     domain.mkDomain "White Collar"
       [domain.mkDomain "Doctor" []; domain.mkDomain "Lawyer" []]].

Definition job_table (d : list string) : table.Table :=
  single "Job" (domain_column 1 jobs d).

(** The table [tb] with other cells in its only column. *)
Definition rewritten (tb : table.Table) (name : string) (d : list string)
    : table.Table :=
  table.mkTable (table.header tb) (table.rows tb)
    (alter (λ col, table.with_data col d) name (table.tdata tb)).

(** The rows of a table, for display. *)
Definition rows_of (tb : table.Table) : list (list string) :=
  match mapM (table.row_view tb) (seq 0 (table.rows tb)) with
  | Ok l => l
  | Err _ => []
  end.

(** One cell under the weight 1, and an unjustified change of it. *)
Definition unit_original : table.Table :=
  single "q" (string_column 1 table.quasi ["A"]).
Definition unit_invalid : table.Table :=
  single "q" (table.with_data (string_column 1 table.quasi ["A"]) ["B"]).

(** ** A scripted source of randomness

    The engine is a script of the values still to be drawn and a log of
    the intervals that were asked for. A draw takes the next value of the
    script when it lies in the interval and the lower bound otherwise; a
    shuffle leaves the list as it is. *)
Definition scripted_draw (a b : Z) (g : list Z * list (Z * Z))
    : Z * (list Z * list (Z * Z)) :=
  match g.1 with
  | x :: script =>
      (if bool_decide (a ≤ x ≤ b)%Z then x else a, (script, g.2 ++ [(a, b)]))
  | [] => (a, ([], g.2 ++ [(a, b)]))
  end.

#[global] Program Instance scripted : Random := {|
  engine := list Z * list (Z * Z);
  shuffle l g := (l, g);
  uniform_int := scripted_draw
|}.
Next Obligation. intros l g. reflexivity. Qed.
Next Obligation.
  intros a b [[|x script] log] Hab; unfold scripted_draw; simpl; [lia|].
  case_bool_decide; lia.
Qed.

(** A process at program start. *)
Definition process_start (enabled : bool) (script : list Z) : process :=
  mkProcess (metric.initial enabled) ([], []) (script, []) [].

(** What a run of [MinGen::anonymize] printed as statistics: the tied-best
    tables by rows, the states entered and the best score. *)
Definition mg_report (r : result (unit * (mg.MinGen * process)))
    : result (list (list (list (list string)) * Z * float)) :=
  match r with
  | Ok (_, (_, p)) =>
      Ok (omap (λ e, match e with
                     | Stats tbs _ _ states best =>
                         Some (rows_of <$> tbs, states, best)
                     | _ => None
                     end) (cout p))
  | Err e => Err e
  end.

(** Two columns, two rows: the first column is already 2-anonymous. *)
Definition two_by_two : table.Table :=
  table.mkTable ["a"; "b"] 2
    {[ "a" := string_column 1 table.quasi ["A"; "A"];
       "b" := string_column 1 table.quasi ["X"; "Y"] ]}.

(** A hierarchy with more categories than the data has values. *)
Definition trades : domain.Domain :=
  domain.mkDomain "Job"
    [domain.mkDomain "Blue Collar"
       [domain.mkDomain "Mechanic" []; domain.mkDomain "Plumber" []];
     domain.mkDomain "White Collar" [domain.mkDomain "Doctor" []];
     domain.mkDomain "Pink Collar" [domain.mkDomain "Nurse" []]].

Definition trade_table (d : list string) : table.Table :=
  single "Job" (domain_column 1 trades d).

(** A [MinGen] in the middle of a search under the certainty metric. *)
Definition searching (working original : table.Table) (best : float)
    : mg.MinGen :=
  mg.mkMinGen working original 2 metric.c SIZE_MAX 1 [] working best.

(** [two_by_two] with its second column suppressed. *)
Definition second_suppressed : table.Table :=
  table.mkTable ["a"; "b"] 2
    {[ "a" := string_column 1 table.quasi ["A"; "A"];
       "b" := table.with_data (string_column 1 table.quasi ["X"; "Y"])
                ["*"; "*"] ]}.

(** ** Specification side of the genetic algorithm *)

(** A step of the genetic algorithm that leaves a member of the object,
    read by [field], as it found it. *)
Definition keeps `{Random} {A F} (field : ga.GeneticAlgorithm → F)
    (c : M (ga.GeneticAlgorithm * process) A) : Prop :=
  ∀ s a s', c s = Ok (a, s') → field s'.1 = field s.1.

(** Two cells, nothing alike. *)
Definition pair_original : table.Table :=
  single "q" (string_column 1 table.quasi ["A"; "B"]).

(** Six cells, nothing alike; all suppressed; all but the first. *)
Definition six_original : table.Table :=
  single "q" (string_column 1 table.quasi ["A"; "B"; "C"; "D"; "E"; "F"]).
Definition six_suppressed : table.Table :=
  rewritten six_original "q" (replicate 6 "*").
Definition six_but_one : table.Table :=
  rewritten six_original "q" ("A" :: replicate 5 "*").

(** The score of the configured metric, as [fitness] takes it. *)
Definition s_score (g : ga.GeneticAlgorithm) (f : table.Table)
    : M metric.state float :=
  match ga.m g with
  | metric.md => metric.minimal_distortion f (ga.original g)
  | metric.c => metric.certainty_score f (ga.original g)
  end.

(** What a run of [GeneticAlgorithm::anonymize] leaves: the mutation rate,
    the two member distributions, and the intervals that were drawn from
    (each once, and how many draws there were). *)
Definition ga_report (r : result (unit * (ga.GeneticAlgorithm * process)))
    : result (Z * ga.distribution * ga.distribution
              * list (Z * Z) * nat) :=
  match r with
  | Ok (_, (g, p)) =>
      Ok (ga.m_rate g, ga.mutations g, ga.roll g,
          remove_dups (gen p).2, length (gen p).2)
  | Err e => Err e
  end.

(** ** Specification side of the string helpers *)

(** The pieces put together again, with the delimiter between them. *)
Fixpoint join (delim : ascii) (l : list string) : string :=
  match l with
  | [] => ""
  | [piece] => piece
  | piece :: l' => piece +:+ String delim (join delim l')
  end.

(** The character [c] does not occur in [s]. *)
Fixpoint no_char (c : ascii) (s : string) : Prop :=
  match s with
  | EmptyString => True
  | String h s' => h ≠ c ∧ no_char c s'
  end.

(** Nothing but blanks. *)
Fixpoint blanks (s : string) : Prop :=
  match s with
  | EmptyString => True
  | String h s' => h = " "%char ∧ blanks s'
  end.

(** ** Specification side of the hierarchies *)

(** Induction on a hierarchy, with the property for all children. *)
Fixpoint Domain_children_ind (P : domain.Domain → Prop)
    (step : ∀ v cs, Forall P cs → P (domain.mkDomain v cs))
    (d : domain.Domain) : P d :=
  match d with
  | domain.mkDomain v cs =>
      step v cs
        ((fix all (cs : list domain.Domain) : Forall P cs :=
            match cs with
            | [] => Forall_nil_2 P
            | c :: cs' =>
                Forall_cons_2 P c cs' (Domain_children_ind P step c) (all cs')
            end) cs)
  end.

(** The loops of [find] and [breadth] over a list of children; [n] is the
    number of children of the node they belong to. *)
Fixpoint find_each (cs : list domain.Domain) (child : string)
    : option (list string) :=
  match cs with
  | [] => None
  | c :: cs' =>
      if String.eqb (domain.value c) child then Some [domain.value c]
      else match domain.find_stack c child with
           | Some st => Some (st ++ [domain.value c])
           | None => find_each cs' child
           end
  end.

Fixpoint breadth_each (n : nat) (cs : list domain.Domain) (name : string)
    : nat :=
  match cs with
  | [] => 0
  | c :: cs' =>
      if String.eqb (domain.value c) name then n
      else match domain.breadth c name with
           | 0 => breadth_each n cs' name
           | inn => inn
           end
  end.

(** [st] leads from a node up to a child of the root of [d]: its last
    element names a child of [d], the one before a child of that child,
    and so on. *)
Inductive path_in : domain.Domain → list string → Prop :=
  | path_child d c :
      c ∈ domain.children d → path_in d [domain.value c]
  | path_below d c st :
      c ∈ domain.children d → path_in c st →
      path_in d (st ++ [domain.value c]).

(** ** Specification side of the matches of a row *)

(** Whether the original row [r] matches [row] on the columns up to
    [upto], as the inner loop of [match_row] decides it. *)
Definition match_of (o : table.Table) (row : list string) (upto r : nat)
    : result bool :=
  compare ← table.row_view o r;
  metric.row_matches o row compare (seq 0 (S upto)).

Definition matching (o : table.Table) (row : list string) (upto r : nat)
    : bool :=
  match match_of o row upto r with Ok true => true | _ => false end.

(** Strictly increasing. *)
Fixpoint increasing (l : list nat) : Prop :=
  match l with
  | [] => True
  | x :: l' => Forall (λ y, x < y) l' ∧ increasing l'
  end.

(** On the columns up to [upto], every cell of [row] is the suppression
    mark or lies in a column that the original does not class as quasi. *)
Definition suppressed (o : table.Table) (row : list string) (upto : nat)
    : Prop :=
  ∀ x, x ≤ upto →
    ∃ rx, row !! x = Some rx
          ∧ (rx = "*"
             ∨ ∃ col, table.get_column o x = Ok col
                      ∧ table.sensitivity col ≠ table.quasi).

(** A column of ages as [generate_ranges] leaves it: the ranges between
    two of its values, without the range of the whole column. *)
Definition ages : table.Table :=
  single "age"
    (table.mkColumn table.integer 1 table.quasi
       (list_to_set ["25"; "40"; "60"])
       [shared.Range_of_bounds 25 40; shared.Range_of_bounds 40 60]
       (shared.Range_of_bounds 25 60)
       domain.Domain_default ["25"; "40"; "60"]).

(** ** Specification side of the generations *)

(** No instance has a higher fitness than one before it. *)
Fixpoint descending (l : list ga.instance) : Prop :=
  match l with
  | [] => True
  | e :: l' => Forall (λ y, fgtb (ga.s y) (ga.s e) = false) l' ∧ descending l'
  end.

(** The object that the constructor builds for [pair_original]. *)
Definition pair_ga : ga.GeneticAlgorithm :=
  ga.mkGA pair_original 2 INFINITY metric.md 1000 100 0 10 10 2 0
    (ga.mkDistribution 0 (2 ^ 31 - 1)) (ga.mkDistribution 0 110)
    (ga.mkInstance (Fin 0) table.Table_default) [].

(** The object and the process after a run of ten generations of twenty
    tables. *)
Definition pair_run : result (unit * (ga.GeneticAlgorithm * process)) :=
  ga.anonymize 2 metric.md 10 20 40
    (pair_ga, process_start true [3; 105; 20; 7; 70; 110]%Z).

Definition after_pair_run : ga.GeneticAlgorithm * process :=
  Eval vm_compute in
  match pair_run with
  | Ok (_, s) => s
  | Err _ => (pair_ga, process_start true [])
  end.

(** ** Specification side of the exhaustive search *)

(** A step on an object [Self] that leaves what [field] reads of it. *)
Definition preserves `{Random} {Self A F} (field : Self → F)
    (c : M (Self * process) A) : Prop :=
  ∀ s a s', c s = Ok (a, s') → field s'.1 = field s.1.

(** What the search is configured with, and the table it works on. *)
Definition configuration (s : mg.MinGen)
    : table.Table * table.Table * nat * metric.metric * Z :=
  (mg.working s, mg.original s, mg.k s, mg.m s, mg.max s).

(** A [MinGen] as [anonymize] hands it to the worker. *)
Definition mg_started (o : table.Table) (k : nat) (m : metric.metric)
    (iters : Z) : mg.MinGen :=
  mg.mkMinGen o o k m iters 0 [] table.Table_default INFINITY.

(** ** Specification side of the random tables *)

(** [new] is one of the candidates that [mutations] offers for the cell
    [old] of the column [col]. *)
Definition mutation_of (col : table.column) (new old : string) : Prop :=
  ∃ l, table.mutations old col = Ok l ∧ new ∈ l.

(** ** Specification side of the recombination *)

(** Where the cell [v] at [(row, c)] of a child of [first] and [second]
    comes from: [first], [second], or the candidates for the cell of
    [original]. *)
Definition inherited (original first second : table.Table) (row c : nat)
    (v : string) : Prop :=
  table.cell first row c = Ok v
  ∨ table.cell second row c = Ok v
  ∨ ∃ ocol old, table.get_column original c = Ok ocol
                ∧ table.cell original row c = Ok old
                ∧ mutation_of ocol v old.

(** The same, on the columns [col0] of [first] and [sc] of [second]. *)
Definition inherited_in (original : table.Table) (col0 sc : table.column)
    (row c : nat) (v : string) : Prop :=
  table.data col0 !! row = Some v
  ∨ table.data sc !! row = Some v
  ∨ ∃ ocol old, table.get_column original c = Ok ocol
                ∧ table.cell original row c = Ok old
                ∧ mutation_of ocol v old.

(** ** Specification side of the ranges of a column *)

(** The pairs of different numbers of [ns], in the order of the two loops
    of [generate_ranges]. *)
Definition pairs_with (a : N) (ns : list N) : list (N * N) :=
  b ← ns; if decide (a = b) then [] else [(a, b)].

Definition pairs (ns : list N) : list (N * N) :=
  a ← ns; pairs_with a ns.

(** The range between two numbers. *)
Definition between (ab : N * N) : shared.Range :=
  shared.Range_of_bounds (Z.of_N ab.1) (Z.of_N ab.2).

(** The column with one more range. *)
Definition with_pair (col : table.column) (ab : N * N) : table.column :=
  table.mkColumn (table.t col) (table.weight col) (table.sensitivity col)
    (table.unique col)
    (shared.set_emplace (between ab) (table.ranges col))
    (shared.update (between ab) (table.range col))
    (table.graph col) (table.data col).

(** A set of ranges as the list of its elements: the texts grow. *)
Fixpoint ordered (l : list shared.Range) : Prop :=
  match l with
  | [] => True
  | x :: l' =>
      Forall (λ y, String.compare (shared.out x) (shared.out y) = Lt) l'
      ∧ ordered l'
  end.

(** * Properties *)

(** ** The monads *)

Lemma M_bind_run {S A B} (f : A → M S B) (c : M S A) (s : S) :
  (c ≫= f) s = match c s with Ok (a, s') => f a s' | Err e => Err e end.
Proof. reflexivity. Qed.

Lemma M_ret_run {S A} (a : A) (s : S) : (mret a : M S A) s = Ok (a, s).
Proof. reflexivity. Qed.

Lemma result_bind_ok {A B} (f : A → result B) (a : A) : Ok a ≫= f = f a.
Proof. reflexivity. Qed.

(** ** The prefix tree *)

Section TreeProperties.
Context {T : Type} `{shared.Defaulted T}.
Import shared.

Lemma Node_add_key (ks : list string) (v : T) (n n' : Node T) :
  Node_add ks v n = Ok n' → key n' = key n.
Proof.
  destruct ks as [|val ks]; simpl.
  - destruct (is_default (value n)); [|discriminate].
    intros [= <-]. reflexivity.
  - destruct (find_state val (states n)) as [[i ch]|].
    + destruct (Node_add ks v ch); simpl; [|discriminate].
      intros [= <-]. reflexivity.
    + destruct (Node_add ks v _); simpl; [|discriminate].
      intros [= <-]. reflexivity.
Qed.

(** Replacing the child found for [val] by a node of the same key moves
    no lookup to another position. *)
Lemma find_state_replace (val val' : string) (l : list (Node T))
    (i : nat) (ch ch' : Node T) :
  find_state val l = Some (i, ch) →
  key ch' = key ch →
  find_state val' (<[i := ch']> l)
  = if decide (val' = val) then Some (i, ch') else find_state val' l.
Proof.
  unfold find_state. revert i.
  induction l as [|x l IH]; intros i Hf Hk; [discriminate|].
  simpl in Hf. destruct (decide (key x = val)) as [Hx|Hx].
  - injection Hf as <- <-. simpl. rewrite Hk.
    destruct (decide (val' = val)) as [->|Hne].
    + rewrite decide_True by done. reflexivity.
    + rewrite !decide_False by congruence. reflexivity.
  - destruct (list_find _ l) as [[j y]|] eqn:Hl; [|discriminate].
    injection Hf as <- <-. simpl.
    rewrite (IH j eq_refl Hk).
    destruct (decide (val' = val)) as [->|Hne].
    + rewrite decide_False by done. reflexivity.
    + destruct (decide (key x = val')); reflexivity.
Qed.

Lemma find_state_key (val : string) (l : list (Node T)) (i : nat)
    (ch : Node T) :
  find_state val l = Some (i, ch) → key ch = val ∧ l ≠ [].
Proof.
  unfold find_state. intros (Hl & Hk & _)%list_find_Some.
  split; [done|]. intros ->. discriminate.
Qed.

Lemma Node_add_collision (ks : list string) (v : T) (n : Node T) :
  Node_in ks n = true → Node_add ks v n = Err TreeCollision.
Proof.
  revert n. induction ks as [|val ks IH]; intros n; simpl.
  - destruct (is_default (value n)); [discriminate|reflexivity].
  - destruct (states n) as [|s0 ss] eqn:Hs; [discriminate|].
    destruct (find_state val (s0 :: ss)) as [[i ch]|]; [|discriminate].
    intros Hin. rewrite (IH ch Hin). reflexivity.
Qed.

Lemma Node_add_preserves (ks : list string) (v : T) (n n' : Node T) :
  Node_add ks v n = Ok n' →
  ∀ ks', Node_in ks' n = true →
         Node_in ks' n' = true ∧ Node_get ks' n' = Node_get ks' n.
Proof.
  revert n n'. induction ks as [|val ks IH]; intros n n' Hadd ks' Hin.
  - simpl in Hadd. destruct (is_default (value n)) eqn:Hd; [|discriminate].
    injection Hadd as <-. destruct ks' as [|val' ks']; simpl in *.
    + rewrite Hd in Hin. discriminate.
    + split; [exact Hin|reflexivity].
  - simpl in Hadd.
    destruct ks' as [|val' ks'].
    { destruct (find_state val (states n)) as [[i ch]|];
        destruct (Node_add ks v _); simpl in Hadd; try discriminate;
        injection Hadd as <-; split; [exact Hin|reflexivity|exact Hin|reflexivity]. }
    simpl in Hin. destruct (states n) as [|s0 ss] eqn:Hs; [discriminate|].
    rewrite <- Hs in *.
    destruct (find_state val' (states n)) as [[j cj]|] eqn:Hj;
      [|discriminate].
    destruct (find_state val (states n)) as [[i ch]|] eqn:Hi.
    + destruct (Node_add ks v ch) as [ch'|] eqn:Hch; simpl in Hadd;
        [|discriminate].
      injection Hadd as <-. simpl.
      rewrite (find_state_replace val val' _ i ch ch' Hi
                 (Node_add_key _ _ _ _ Hch)).
      assert (<[i:=ch']> (states n) ≠ []) as Hne.
      { rewrite Hs. destruct i; discriminate. }
      destruct (<[i:=ch']> (states n)) eqn:Hins; [done|].
      destruct (decide (val' = val)) as [->|Hv].
      * rewrite Hi in Hj. injection Hj as <- <-. rewrite Hi.
        exact (IH ch ch' Hch ks' Hin).
      * rewrite Hj. split; [exact Hin|reflexivity].
    + destruct (Node_add ks v _) as [ch'|] eqn:Hch; simpl in Hadd;
        [|discriminate].
      injection Hadd as <-. simpl.
      unfold find_state in *.
      rewrite (list_find_app_l _ _ _ _ _ Hj).
      destruct (states n ++ [ch']) eqn:Happ.
      { apply app_eq_nil in Happ as [_ ?]. discriminate. }
      rewrite Hj. split; [exact Hin|reflexivity].
Qed.

Lemma Node_in_get (ks : list string) (n : Node T) :
  Node_in ks n = true → ∃ v, Node_get ks n = Ok v.
Proof.
  revert n. induction ks as [|val ks IH]; intros n; simpl; [eauto|].
  destruct (states n); [discriminate|].
  destruct (find_state val _) as [[i ch]|]; [apply IH|discriminate].
Qed.

Lemma Node_in_fresh (ks : list string) (val : string) :
  Node_in ks (mkNode val T_default []) = false.
Proof.
  destruct ks; simpl; [|reflexivity].
  rewrite default_is_default. reflexivity.
Qed.

Lemma Node_add_absent (ks : list string) (v : T) (n : Node T) :
  Node_in ks n = false → ∃ n', Node_add ks v n = Ok n'.
Proof.
  revert n. induction ks as [|val ks IH]; intros n; simpl.
  - destruct (is_default (value n)); [eauto|discriminate].
  - destruct (find_state val (states n)) as [[i ch]|] eqn:Hf.
    + destruct (find_state_key _ _ _ _ Hf) as [_ Hne].
      destruct (states n); [done|].
      intros Hin. destruct (IH ch Hin) as [ch' ->]. simpl. eauto.
    + intros _.
      destruct (IH (mkNode val T_default []) (Node_in_fresh ks val))
        as [ch' ->].
      simpl. eauto.
Qed.

Lemma find_state_fresh (val : string) (l : list (Node T)) (ch : Node T) :
  find_state val l = None → key ch = val →
  find_state val (l ++ [ch]) = Some (length l, ch).
Proof.
  unfold find_state. intros Hn Hk.
  rewrite (list_find_app_r _ _ _ Hn). simpl.
  rewrite decide_True by exact Hk. reflexivity.
Qed.

Lemma Node_add_get (ks : list string) (v : T) (n n' : Node T) :
  Node_add ks v n = Ok n' → Node_get ks n' = Ok v.
Proof.
  revert n n'. induction ks as [|val ks IH]; intros n n'; simpl.
  - destruct (is_default (value n)); [|discriminate].
    intros [= <-]. reflexivity.
  - destruct (find_state val (states n)) as [[i ch]|] eqn:Hf.
    + destruct (Node_add ks v ch) as [ch'|] eqn:Hch; simpl;
        [|discriminate].
      intros [= <-]. simpl.
      rewrite (find_state_replace val val _ i ch ch' Hf
                 (Node_add_key _ _ _ _ Hch)).
      rewrite decide_True by done. exact (IH _ _ Hch).
    + destruct (Node_add ks v _) as [ch'|] eqn:Hch; simpl;
        [|discriminate].
      intros [= <-]. simpl.
      rewrite (find_state_fresh val _ ch' Hf).
      * exact (IH _ _ Hch).
      * exact (Node_add_key _ _ _ _ Hch).
Qed.

(** After [add], only the stored prefix can have appeared. *)
Lemma Node_add_in (ks : list string) (v : T) (n n' : Node T) :
  Node_add ks v n = Ok n' →
  ∀ ks', Node_in ks' n' = true → ks' = ks ∨ Node_in ks' n = true.
Proof.
  revert n n'. induction ks as [|val ks IH]; intros n n' Hadd ks' Hin.
  - simpl in Hadd. destruct (is_default (value n)); [|discriminate].
    injection Hadd as <-. destruct ks'; [by left|right; exact Hin].
  - simpl in Hadd. destruct ks' as [|val' ks'].
    { right. destruct (find_state val (states n)) as [[i ch]|];
        destruct (Node_add ks v _); simpl in Hadd; try discriminate;
        injection Hadd as <-; exact Hin. }
    destruct (find_state val (states n)) as [[i ch]|] eqn:Hf.
    + destruct (Node_add ks v ch) as [ch'|] eqn:Hch; simpl in Hadd;
        [|discriminate].
      injection Hadd as <-. simpl in Hin.
      rewrite (find_state_replace val val' _ i ch ch' Hf
                 (Node_add_key _ _ _ _ Hch)) in Hin.
      destruct (find_state_key _ _ _ _ Hf) as [_ Hne].
      destruct (<[i:=ch']> (states n)); [discriminate|].
      simpl. destruct (states n) as [|s0 ss] eqn:Hs; [done|].
      destruct (decide (val' = val)) as [->|Hv].
      * destruct (IH _ _ Hch ks' Hin) as [->|Hold]; [by left|].
        right. rewrite Hf. exact Hold.
      * right. exact Hin.
    + destruct (Node_add ks v _) as [ch'|] eqn:Hch; simpl in Hadd;
        [|discriminate].
      injection Hadd as <-. simpl in Hin.
      destruct (states n ++ [ch']) eqn:Happ; [discriminate|].
      rewrite <- Happ in Hin. clear Happ.
      destruct (find_state val' (states n)) as [[j cj]|] eqn:Hj.
      * right. unfold find_state in *.
        rewrite (list_find_app_l _ _ _ _ _ Hj) in Hin. simpl.
        destruct (find_state_key _ _ _ _ Hj) as [_ Hne].
        destruct (states n); [done|]. unfold find_state.
        rewrite Hj. exact Hin.
      * unfold find_state in Hin, Hj.
        rewrite (list_find_app_r _ _ _ Hj) in Hin. simpl in Hin.
        rewrite (Node_add_key _ _ _ _ Hch) in Hin. simpl in Hin.
        destruct (decide (val = val')) as [<-|]; [|discriminate].
        simpl in Hin.
        destruct (IH _ _ Hch ks' Hin) as [->|Hold]; [by left|].
        rewrite Node_in_fresh in Hold. discriminate.
Qed.

(** C9, as the code has it. The test of [add] is the test of [in]: a
    value other than [T()] at the end of the prefix. A prefix that holds
    such a value cannot be stored again: [add] fails with the collision
    error. An [add] that succeeds leaves every such prefix in place, with
    the value it had. And a prefix for which [in] answers no, be it
    absent or stored with [T()], is free: [add] succeeds there and the
    value it was given is the one [get] returns. *)
Theorem tree_never_overwrites (tr : Tree T) (row : list string)
    (max : option nat) (v : T) :
  (eval (in_ row max) tr = Ok true →
   add row v max tr = Err TreeCollision)
  ∧ (∀ tr', add row v max tr = Ok (tt, tr') →
       ∀ row' max', eval (in_ row' max') tr = Ok true →
         eval (in_ row' max') tr' = Ok true
         ∧ get row' max' tr' = get row' max' tr)
  ∧ (eval (in_ row max) tr = Ok false →
     ∃ tr', add row v max tr = Ok (tt, tr') ∧ get row max tr' = Ok v).
Proof.
  split; [|split].
  - unfold eval, in_, add. destruct (cells_of row max) as [ks|]; simpl;
      [|discriminate].
    destruct (Node_in ks (root tr)) eqn:Hin; [|discriminate].
    intros _. rewrite (Node_add_collision ks v _ Hin). reflexivity.
  - intros tr' Hadd row' max'. unfold add in Hadd.
    destruct (cells_of row max) as [ks|]; simpl in Hadd; [|discriminate].
    destruct (Node_add ks v (root tr)) as [r|] eqn:Hr; simpl in Hadd;
      [|discriminate].
    injection Hadd as <-. unfold eval, in_, get. simpl.
    destruct (cells_of row' max') as [ks'|]; simpl; [|discriminate].
    destruct (Node_in ks' (root tr)) eqn:Hin; [|discriminate].
    intros _. destruct (Node_add_preserves ks v _ _ Hr ks' Hin) as [-> ->].
    split; reflexivity.
  - unfold eval, in_, add, get.
    destruct (cells_of row max) as [ks|]; simpl; [|discriminate].
    destruct (Node_in ks (root tr)) eqn:Hin; [discriminate|].
    intros _. destruct (Node_add_absent ks v _ Hin) as [n' Hn'].
    rewrite Hn'. simpl. eexists. split; [reflexivity|].
    simpl. exact (Node_add_get ks v _ _ Hn').
Qed.
End TreeProperties.

Lemma tree_never_overwrites_witness :
  shared.add ["a"; "b"] (Fin 2) None tree_ab = Err TreeCollision
  ∧ ∀ tr', shared.add ["a"; "c"] (Fin 2) None tree_ab = Ok (tt, tr') →
      shared.get ["a"; "b"] None tr' = Ok (Fin 1).
Proof.
  split.
  - apply (tree_never_overwrites tree_ab ["a"; "b"] None (Fin 2)).
    reflexivity.
  - intros tr' Hadd.
    destruct (tree_never_overwrites tree_ab ["a"; "c"] None (Fin 2))
      as (_ & Hkeep & _).
    destruct (Hkeep tr' Hadd ["a"; "b"] None eq_refl) as [_ ->].
    reflexivity.
Defined.

(** C9 as stated fails. The value [T()] stands for "nothing stored": a
    score of zero that was added for a prefix is not seen by [in], and a
    second [add] for the same prefix succeeds, without a collision, and
    takes its place. *)
Lemma tree_overwrites_default :
  ∃ t1 t2,
    shared.add ["a"] (Fin 0) None shared.Tree_empty = Ok (tt, t1)
    ∧ shared.get ["a"] None t1 = Ok (Fin 0)
    ∧ eval (shared.in_ ["a"] None) t1 = Ok false
    ∧ shared.add ["a"] (Fin 1) None t1 = Ok (tt, t2)
    ∧ shared.get ["a"] None t2 = Ok (Fin 1).
Proof. eexists _, _. split_and!; vm_compute; reflexivity. Qed.

(** ** The mutations of a cell *)

Section Mutations.
Import table.

Lemma filter_star_none (l : list string) :
  "*" ∉ l → filter (λ x, x = "*") l = [].
Proof.
  induction l as [|x l IH]; intros Hn; [reflexivity|].
  rewrite filter_cons. destruct (decide (x = "*")) as [->|_].
  - exfalso. apply Hn. left.
  - apply IH. intros Hin. apply Hn. right. exact Hin.
Qed.

Lemma range_strings_no_star (P : shared.Range → Prop)
    `{∀ r, Decision (P r)} (rs : list shared.Range) :
  Forall (λ r, shared.str r ≠ "*") rs →
  "*" ∉ shared.str <$> filter P rs.
Proof.
  intros Hall Hin. apply list_elem_of_fmap in Hin as (r & Hr & Hin).
  apply list_elem_of_filter in Hin as [_ Hin].
  rewrite Forall_forall in Hall. exact (Hall r Hin (eq_sym Hr)).
Qed.

(** The head of every mutation list is the suppression symbol. *)
Lemma mutations_head (v : string) (col : column) (l : list string) :
  mutations v col = Ok l → ∃ rest, l = "*" :: rest.
Proof.
  unfold mutations. intros Hm.
  destruct (t col);
    [injection Hm as <-|
     destruct (starts_with "[" v);
     [destruct (shared.Range_of_string v)|destruct (stoi v)];
     simpl in Hm; try discriminate; injection Hm as <-];
    destruct (negb (domain.empty (graph col)));
    try destruct (negb (v =? "")%string); simpl; eauto.
Qed.

(** C6, as the code has it. In a column without hierarchy and of string
    type, a cell that is not empty is among its own mutations. And
    whenever [mutations] returns, the suppression symbol appears exactly
    once in the result, unless the cell is itself the symbol, or the
    hierarchy path of the cell or the text of a range of the column
    is. *)
Theorem mutations_coverage (v : string) (col : column) :
  (domain.empty (graph col) = true → t col ≠ integer → v ≠ "" →
   ∃ l, mutations v col = Ok l ∧ v ∈ l)
  ∧ (∀ l, mutations v col = Ok l →
       v ≠ "*" →
       "*" ∉ domain.find (graph col) v →
       Forall (λ r, shared.str r ≠ "*") (ranges col) →
       length (filter (λ x, x = "*") l) = 1).
Proof.
  split.
  - intros Hg Ht Hv. unfold mutations. rewrite Hg. simpl.
    destruct (t col); [|done].
    destruct (String.eqb_spec v ""); [done|]. simpl.
    exists ["*"; v]. split; [reflexivity|]. right. left.
  - intros l Hm Hv Hf Hr.
    assert (∃ rs, l = ("*" ::
      (if negb (domain.empty (graph col)) then domain.find (graph col) v
       else if negb (v =? "")%string then [v] else [])) ++ rs
      ∧ "*" ∉ rs) as (rs & -> & Hrs).
    { unfold mutations in Hm. destruct (t col).
      - injection Hm as <-. exists []. rewrite app_nil_r.
        split; [|apply not_elem_of_nil].
        destruct (negb (domain.empty (graph col)));
          [|destruct (negb (v =? "")%string)]; reflexivity.
      - destruct (starts_with "[" v).
        + destruct (shared.Range_of_string v) as [r|]; simpl in Hm;
            [|discriminate].
          injection Hm as <-. eexists. split.
          { destruct (negb (domain.empty (graph col)));
              [|destruct (negb (v =? "")%string)]; reflexivity. }
          apply range_strings_no_star. exact Hr.
        + destruct (stoi v) as [n|]; simpl in Hm; [|discriminate].
          injection Hm as <-. eexists. split.
          { destruct (negb (domain.empty (graph col)));
              [|destruct (negb (v =? "")%string)]; reflexivity. }
          apply range_strings_no_star. exact Hr. }
    rewrite filter_app, (filter_star_none rs Hrs), app_nil_r.
    rewrite filter_cons, decide_True by done.
    rewrite filter_star_none; [reflexivity|].
    destruct (negb (domain.empty (graph col))); [exact Hf|].
    destruct (negb (v =? "")%string); [|apply not_elem_of_nil].
    intros Hin. apply list_elem_of_singleton in Hin. congruence.
Qed.

Lemma mutations_coverage_witness :
  ∃ l, mutations "Mechanic"
         (string_column 1 quasi ["Mechanic"; "Plumber"]) = Ok l
       ∧ "Mechanic" ∈ l
       ∧ length (filter (λ x, x = "*") l) = 1.
Proof.
  pose (col := string_column 1 quasi ["Mechanic"; "Plumber"]).
  destruct (mutations_coverage "Mechanic" col) as [Hin Hone].
  destruct (Hin eq_refl ltac:(discriminate) ltac:(discriminate))
    as (l & Hl & Hv).
  exists l. split; [exact Hl|]. split; [exact Hv|].
  apply (Hone l Hl).
  - discriminate.
  - apply not_elem_of_nil.
  - constructor.
Defined.

(** C6 as stated fails twice: the empty cell is not among its mutations,
    and the mutations of a suppressed cell hold the symbol twice. *)
Lemma mutations_coverage_counterexample :
  let col := string_column 1 quasi [""; "*"] in
  domain.empty (graph col) = true ∧ t col ≠ integer
  ∧ (∃ l, mutations "" col = Ok l ∧ "" ∉ l)
  ∧ (∃ l, mutations "*" col = Ok l
          ∧ length (filter (λ x, x = "*") l) = 2).
Proof.
  simpl. split; [reflexivity|]. split; [discriminate|]. split.
  - exists ["*"]. split; [reflexivity|].
    intros Hin. apply list_elem_of_singleton in Hin. discriminate.
  - exists ["*"; "*"]. split; reflexivity.
Qed.
End Mutations.

(** ** Loops in the [result] monad *)

Lemma mapM_result_cons {A B} (f : A → result B) (x : A) (l : list A)
    (ys : list B) :
  mapM f (x :: l) = Ok ys ↔
  ∃ y ys', f x = Ok y ∧ mapM f l = Ok ys' ∧ ys = y :: ys'.
Proof.
  simpl. split.
  - destruct (f x) as [y|]; simpl; [|discriminate].
    destruct (mapM f l) as [ys'|]; simpl; [|discriminate].
    intros [= <-]. eauto.
  - intros (y & ys' & -> & -> & ->). reflexivity.
Qed.


Lemma mapM_result_length {A B} (f : A → result B) (l : list A)
    (ys : list B) :
  mapM f l = Ok ys → length ys = length l.
Proof.
  revert ys. induction l as [|x l IH]; intros ys.
  - intros [= <-]. reflexivity.
  - intros (y & ys' & _ & Hl & ->)%mapM_result_cons. simpl.
    f_equal. exact (IH _ Hl).
Qed.

(** ** [get_distinct] *)

Section Distinct.
Import table.









End Distinct.



(** ** The k-anonymity verifier *)

Section Verifier.
Import table metric.

Lemma set_at_zip (ks : list (gset nat)) (tree : list nat) (r o : nat) :
  length ks = length tree →
  o ∈ set_at (zip_with (λ s x, s ∪ {[x]}) ks tree) r
  ↔ o ∈ set_at ks r ∨ tree !! r = Some o.
Proof.
  intros Hlen. unfold set_at. rewrite lookup_zip_with.
  destruct (ks !! r) as [K|] eqn:HK; simpl.
  - destruct (tree !! r) as [x|] eqn:Hx; simpl.
    + rewrite elem_of_union, elem_of_singleton.
      split; (intros [?|?]; [by left|right; congruence]).
    + apply lookup_ge_None in Hx. apply lookup_lt_Some in HK. lia.
  - apply lookup_ge_None in HK.
    rewrite (proj2 (lookup_ge_None tree r)) by lia.
    split; [intros []%not_elem_of_empty|].
    intros [[]%not_elem_of_empty|?]; discriminate.
Qed.

Lemma completes_nil (tree : list nat) (r o : nat) :
  NoDup tree → completes [] tree r o ↔ tree !! r = Some o.
Proof.
  intros Hnd. unfold completes. split.
  - intros (σ & Hσ & _ & Hr). apply Forall2_nil_inv_r in Hσ as ->.
    rewrite app_nil_r in Hr. exact Hr.
  - intros Hr. exists []. rewrite app_nil_r. split; [constructor|done].
Qed.

Lemma completes_cons (options : list nat) (rest : list (list nat))
    (tree : list nat) (r o : nat) :
  completes (options :: rest) tree r o
  ↔ ∃ option, option ∈ options ∧ (option ∉ tree)
              ∧ completes rest (tree ++ [option]) r o.
Proof.
  unfold completes. split.
  - intros (σ & Hσ & Hnd & Hr).
    apply Forall2_cons_inv_r in Hσ as (option & σ' & Hin & Hσ' & ->).
    exists option. split; [exact Hin|].
    rewrite cons_middle, app_assoc in Hnd, Hr. split.
    + apply NoDup_app in Hnd as [Hnd _].
      apply NoDup_app in Hnd as (_ & Hd & _).
      intros Ht. apply (Hd option Ht). left.
    + exists σ'. done.
  - intros (option & Hin & Hout & σ' & Hσ' & Hnd & Hr).
    exists (option :: σ'). rewrite cons_middle, app_assoc.
    split; [|done]. constructor; done.
Qed.

(** What [k_tree] adds to the sets: for every row, the originals that
    the extensions of [tree] give to it. *)
Lemma k_tree_spec (rest : list (list nat)) :
  ∀ (tree : list nat) (ks : list (gset nat)),
    NoDup tree →
    length ks = length tree + length rest →
    length (k_tree rest tree ks) = length ks
    ∧ ∀ r o, o ∈ set_at (k_tree rest tree ks) r
             ↔ o ∈ set_at ks r ∨ completes rest tree r o.
Proof.
  induction rest as [|options rest IH]; intros tree ks Hnd Hlen.
  - simpl in *. split.
    + rewrite length_zip_with. lia.
    + intros r o. rewrite set_at_zip by lia.
      rewrite (completes_nil tree r o Hnd). reflexivity.
  - simpl in Hlen. cbn [k_tree].
    assert (∀ (opts : list nat) (ks : list (gset nat)),
      length ks = length tree + S (length rest) →
      let out := foldl (λ ks option,
                   if bool_decide (option ∈ tree) then ks
                   else k_tree rest (tree ++ [option]) ks) ks opts in
      length out = length ks
      ∧ ∀ r o, o ∈ set_at out r
               ↔ o ∈ set_at ks r
                 ∨ ∃ option, option ∈ opts ∧ (option ∉ tree)
                             ∧ completes rest (tree ++ [option]) r o)
      as Hloop.
    { clear ks Hlen. induction opts as [|x opts IHo]; intros ks Hlen.
      - simpl. split; [reflexivity|]. intros r o. split; [by left|].
        intros [?|(x & []%not_elem_of_nil & _)]. done.
      - cbn [foldl]. case_bool_decide as Hx.
        + destruct (IHo ks Hlen) as [Hl Hm]. split; [exact Hl|].
          intros r o. rewrite Hm. split.
          * intros [?|(y & Hy & Hrest)]; [by left|].
            right. exists y. split; [by right|done].
          * intros [?|(y & Hy & Hny & Hc)]; [by left|].
            right. exists y. apply elem_of_cons in Hy as [->|Hy]; done.
        + destruct (IH (tree ++ [x]) ks) as [Hl1 Hm1].
          { apply NoDup_app. split; [exact Hnd|]. split.
            - intros y Hy ->%list_elem_of_singleton. done.
            - apply NoDup_singleton. }
          { rewrite length_app. simpl. lia. }
          destruct (IHo (k_tree rest (tree ++ [x]) ks)) as [Hl Hm];
            [lia|].
          split; [lia|]. intros r o. rewrite Hm, Hm1. split.
          * intros [[?|Hc]|(y & Hy & Hrest)]; [by left| |].
            -- right. exists x. split; [by left|done].
            -- right. exists y. split; [by right|done].
          * intros [?|(y & Hy & Hny & Hc)]; [by left; left|].
            apply elem_of_cons in Hy as [->|Hy]; [by left; right|].
            right. exists y. done. }
    destruct (Hloop options ks) as [Hl Hm]; [lia|].
    split; [exact Hl|]. intros r o. rewrite Hm, completes_cons.
    reflexivity.
Qed.

Lemma set_at_empty (n r : nat) : set_at (replicate n ∅) r = ∅.
Proof.
  unfold set_at. destruct (replicate n ∅ !! r) as [K|] eqn:HK;
    [|reflexivity].
  apply lookup_replicate in HK as [-> _]. reflexivity.
Qed.

(** The sets that [k_anonymity] tests are the sets [K[r]] of the
    specification. *)
Lemma k_tree_assigned (Ms : list (list nat)) (r o : nat) :
  o ∈ set_at (k_tree Ms [] (replicate (length Ms) ∅)) r
  ↔ assigned Ms r o.
Proof.
  destruct (k_tree_spec Ms [] (replicate (length Ms) ∅)) as [_ Hm].
  { constructor. }
  { rewrite length_replicate. reflexivity. }
  rewrite Hm, set_at_empty. unfold completes, assigned, assignment.
  simpl. split.
  - intros [[]%not_elem_of_empty|(σ & H1 & H2 & H3)]. eauto.
  - intros (σ & [H1 H2] & H3). right. eauto.
Qed.

Lemma k_tree_length (Ms : list (list nat)) :
  length (k_tree Ms [] (replicate (length Ms) ∅)) = length Ms.
Proof.
  destruct (k_tree_spec Ms [] (replicate (length Ms) ∅)) as [Hl _].
  { constructor. }
  { rewrite length_replicate. reflexivity. }
  rewrite Hl, length_replicate. reflexivity.
Qed.

(** [|K[r]| >= k], said with a list of [k] distinct originals. *)
Lemma enough_assigned (Ms : list (list nat)) (k r : nat) :
  k ≤ size (set_at (k_tree Ms [] (replicate (length Ms) ∅)) r)
  ↔ ∃ K : list nat,
      NoDup K ∧ (∀ o, o ∈ K → assigned Ms r o) ∧ k ≤ length K.
Proof.
  set (S := set_at _ r). split.
  - intros Hk. exists (elements S). split; [apply NoDup_elements|].
    split; [|exact Hk].
    intros o Ho. apply k_tree_assigned, elem_of_elements, Ho.
  - intros (K & Hnd & Hall & Hk).
    assert (list_to_set K ⊆ S) as Hsub.
    { intros o Ho. apply elem_of_list_to_set in Ho.
      apply k_tree_assigned, Hall, Ho. }
    apply subseteq_size in Hsub.
    rewrite size_list_to_set in Hsub by exact Hnd. lia.
Qed.
Lemma foldM_result_ext {A B} (f g : B → A → result B) (l : list A) (b : B) :
  (∀ b a, a ∈ l → f b a = g b a) → foldM f b l = foldM g b l.
Proof.
  revert b. induction l as [|a l IH]; intros b Hfg; [reflexivity|].
  cbn [foldM]. rewrite (Hfg b a) by left.
  destruct (g b a); simpl; [|reflexivity].
  apply IH. intros b' a' Ha. apply Hfg. right. exact Ha.
Qed.

Lemma row_view_length (w : Table) (r : nat) (row : list string) :
  row_view w r = Ok row → length row = columns w.
Proof.
  unfold row_view, columns. intros Hr.
  rewrite (mapM_result_length _ _ _ Hr), length_seq. reflexivity.
Qed.

(** [match_row] reads the cells [0..upto] of the row and nothing else. *)
Lemma row_matches_take (o : Table) (row compare : list string)
    (xs : list nat) (n : nat) :
  Forall (λ x, x < n) xs →
  row_matches o (take n row) compare xs = row_matches o row compare xs.
Proof.
  induction 1 as [|x xs Hx _ IH]; [reflexivity|].
  cbn [row_matches].
  assert (at_ (take n row) x = at_ row x) as ->.
  { unfold at_. rewrite (lookup_take_lt row n x Hx). reflexivity. }
  rewrite IH. reflexivity.
Qed.

Lemma compute_matches_take (o : Table) (row : list string) (upto : nat) :
  S upto ≤ length row →
  compute_matches o (take (S upto) row) (length (take (S upto) row) - 1)
  = compute_matches o row upto.
Proof.
  intros Hlen. rewrite length_take_le by exact Hlen. simpl.
  rewrite Nat.sub_0_r. unfold compute_matches.
  apply foldM_result_ext. intros matches r _.
  destruct (row_view o r) as [compare|]; [|reflexivity].
  cbn [mbind result_bind].
  rewrite (row_matches_take o row compare (seq 0 (S upto)) (S upto));
    [reflexivity|].
  apply Forall_forall. intros x Hx. apply elem_of_seq in Hx. lia.
Qed.

Lemma match_sound_initial (o : Table) (enabled : bool) :
  match_sound o (initial enabled).
Proof.
  intros _ ks v Hks Hin. destruct ks as [|val ks]; [done|].
  discriminate.
Qed.

Lemma match_sound_off (o : Table) (st : state) :
  cache st = false → match_sound o st.
Proof. intros Hoff Hon. congruence. Qed.

(** [match_row] returns the matches of the row, whatever a sound cache
    holds, and leaves the cache sound. *)
Lemma match_row_spec (o : Table) (row : list string) (upto : nat)
    (st : state) (v : list nat) :
  match_sound o st →
  S upto ≤ length row →
  compute_matches o row upto = Ok v →
  ∃ st', match_row o row upto st = Ok (v, st')
         ∧ match_sound o st'
         ∧ cache st' = cache st
         ∧ score_cache st' = score_cache st.
Proof.
  intros Hsound Hlen Hv. unfold match_row.
  rewrite M_bind_run. unfold get_state.
  destruct (cache st) eqn:Hc.
  - rewrite M_bind_run.
    unfold on_match at 1, shared.in_, shared.cells_of.
    rewrite decide_True by exact Hlen. rewrite result_bind_ok.
    set (ks := take (S upto) row).
    assert (ks ≠ []) as Hks.
    { destruct row; [simpl in Hlen; lia|discriminate]. }
    destruct (shared.Node_in ks (shared.root (match_cache st))) eqn:Hin.
    + unfold match_get, shared.get, shared.cells_of. cbn [match_cache].
      rewrite decide_True by exact Hlen. rewrite result_bind_ok.
      fold ks. cbn [shared.root].
      destruct (Node_in_get ks _ Hin) as [v' Hget]. rewrite Hget.
      rewrite result_bind_ok.
      pose proof (Hsound Hc ks v' Hks Hin Hget) as Hcomp.
      unfold ks in Hcomp. rewrite (compute_matches_take o row upto Hlen) in Hcomp.
      assert (v' = v) as -> by congruence.
      eexists. split; [reflexivity|]. split; [|done].
      intros _ ks0 v0. cbn. apply Hsound, Hc.
    + rewrite M_bind_run. unfold lift. rewrite Hv.
      rewrite M_bind_run.
      unfold on_match, shared.add, shared.cells_of. cbn [match_cache].
      rewrite decide_True by exact Hlen. rewrite result_bind_ok.
      fold ks. cbn [shared.root].
      destruct (Node_add_absent ks v _ Hin) as [n' Hadd]. rewrite Hadd.
      rewrite result_bind_ok, M_ret_run.
      eexists. split; [reflexivity|]. split; [|done].
      intros _ ks0 v0 Hks0 Hin0 Hget0. cbn in Hin0, Hget0.
      destruct (Node_add_in ks v _ _ Hadd ks0 Hin0) as [->|Hold].
      * rewrite (Node_add_get ks v _ _ Hadd) in Hget0.
        injection Hget0 as <-. unfold ks.
        rewrite (compute_matches_take o row upto Hlen). exact Hv.
      * destruct (Node_add_preserves ks v _ _ Hadd ks0 Hold) as [_ Heq].
        rewrite Heq in Hget0. exact (Hsound Hc ks0 v0 Hks0 Hold Hget0).
  - rewrite M_bind_run, M_ret_run, M_bind_run. unfold lift. rewrite Hv.
    rewrite M_bind_run, M_ret_run, M_ret_run.
    eexists. split; [reflexivity|]. done.
Qed.
Lemma gather_spec (w o : Table) (k upto : nat) (rs : list nat) :
  upto < columns w →
  ∀ (acc Ms : list (list nat)) (st : state),
    match_sound o st →
    mapM (λ r, row ← row_view w r; compute_matches o row upto) rs
    = Ok Ms →
    ∃ st', gather w o k upto rs acc st
           = Ok (if decide (Forall (λ m, k ≤ length m) Ms)
                 then Some (acc ++ Ms) else None, st')
           ∧ match_sound o st'
           ∧ cache st' = cache st
           ∧ score_cache st' = score_cache st.
Proof.
  intros Hupto. induction rs as [|r rs IH]; intros acc Ms st Hsound.
  - intros [= <-]. cbn [gather]. rewrite M_ret_run.
    rewrite decide_True by constructor. rewrite app_nil_r. eauto.
  - intros (m & Ms' & Hm & HMs & ->)%mapM_result_cons.
    destruct (row_view w r) as [row|] eqn:Hrow; [|discriminate].
    rewrite result_bind_ok in Hm.
    pose proof (row_view_length w r row Hrow) as Hlen.
    destruct (match_row_spec o row upto st m Hsound ltac:(lia) Hm)
      as (st1 & Hrun & Hs1 & Hc1 & Hsc1).
    cbn [gather]. rewrite M_bind_run. unfold lift at 1. rewrite Hrow.
    rewrite M_bind_run, Hrun.
    destruct (decide (length m < k)) as [Hlt|Hge].
    + rewrite M_bind_run. unfold modify. rewrite M_ret_run.
      rewrite decide_False.
      * eexists. split; [reflexivity|]. split; [|done].
        intros Hon ks v. cbn. apply Hs1, Hon.
      * intros Hall. apply Forall_cons_1 in Hall as [? _]. lia.
    + destruct (IH (acc ++ [m]) Ms' st1 Hs1 HMs)
        as (st2 & Hrun2 & Hs2 & Hc2 & Hsc2).
      rewrite Hrun2. exists st2. split; [|split; [done|split; congruence]].
      rewrite <- app_assoc. simpl.
      destruct (decide (Forall _ Ms')) as [Hall|Hnall].
      * rewrite decide_True; [reflexivity|].
        constructor; [lia|exact Hall].
      * rewrite decide_False; [reflexivity|].
        intros Hall. apply Forall_cons_1 in Hall as [_ ?]. done.
Qed.

(** X30. What [k_anonymity] decides: when the match set of every
    row of the working table exists, [k_anonymity] returns, and it
    returns [true] exactly when every match set has at least [k] entries
    and every row has at least [k] distinct originals assigned to it by
    the injective assignments that stay inside the match sets. The match
    cache, which this call reads and fills, does not change the
    answer. *)
Theorem k_anonymity_characterisation (w o : Table) (k : nat)
    (upto : option nat) (Ms : list (list nat)) (st : state) :
  match_sound o st →
  bound w upto < columns w →
  match_sets w o (bound w upto) = Ok Ms →
  ∃ b st', k_anonymity w o k upto st = Ok (b, st')
    ∧ match_sound o st'
    ∧ (b = true ↔
       (∀ m, m ∈ Ms → k ≤ length m)
       ∧ (∀ r, r < length Ms →
            ∃ K : list nat,
              NoDup K ∧ (∀ x, x ∈ K → assigned Ms r x) ∧ k ≤ length K)).
Proof.
  intros Hsound Hupto HMs. unfold match_sets in HMs.
  destruct (gather_spec w o k (bound w upto) (seq 0 (rows w)) Hupto
              [] Ms st Hsound HMs) as (st' & Hrun & Hs' & _ & _).
  unfold k_anonymity. rewrite M_bind_run, Hrun.
  destruct (decide (Forall (λ m, k ≤ length m) Ms)) as [Hall|Hnall].
  - rewrite M_ret_run. eexists _, st'. split; [reflexivity|].
    split; [exact Hs'|]. simpl app.
    set (tree := k_tree Ms [] (replicate (length Ms) ∅)).
    assert (forallb (λ solutions : gset nat, negb (size solutions <? k))
                    tree = true
            ↔ ∀ r, r < length Ms → k ≤ size (set_at tree r)) as Hsizes.
    { rewrite forallb_forall. split.
      - intros Hf r Hr. unfold set_at.
        destruct (tree !! r) as [K|] eqn:HK.
        + apply list_elem_of_lookup_2, list_elem_of_In, Hf in HK.
          apply negb_true_iff, Nat.ltb_ge in HK. exact HK.
        + apply lookup_ge_None in HK. unfold tree in HK.
          rewrite k_tree_length in HK. lia.
      - intros Hk K HK. apply list_elem_of_In, list_elem_of_lookup in HK
          as [r HK].
        apply negb_true_iff, Nat.ltb_ge.
        pose proof (lookup_lt_Some _ _ _ HK) as Hr.
        unfold tree in Hr. rewrite k_tree_length in Hr.
        specialize (Hk r Hr). unfold set_at in Hk. rewrite HK in Hk.
        exact Hk. }
    rewrite Hsizes. split.
    + intros Hk. split; [apply Forall_forall, Hall|].
      intros r Hr. apply enough_assigned, Hk, Hr.
    + intros [_ Hk] r Hr. apply enough_assigned, Hk, Hr.
  - rewrite M_ret_run. eexists _, st'. split; [reflexivity|].
    split; [exact Hs'|]. split; [discriminate|].
    intros [Hall _]. exfalso. apply Hnall, Forall_forall, Hall.
Qed.
End Verifier.

Lemma k_anonymity_characterisation_witness :
  let Ms := [[0; 1; 2; 3]; [0; 1]; [2; 3]; [2; 3]] in
  ∃ b st',
    metric.k_anonymity s4_working s4_original 2 None (metric.initial true)
    = Ok (b, st')
    ∧ match_sound s4_original st'
    ∧ (b = true ↔
       (∀ m, m ∈ Ms → 2 ≤ length m)
       ∧ (∀ r, r < length Ms →
            ∃ K : list nat,
              NoDup K ∧ (∀ x, x ∈ K → assigned Ms r x) ∧ 2 ≤ length K)).
Proof.
  apply (k_anonymity_characterisation s4_working s4_original 2 None
           [[0; 1; 2; 3]; [0; 1]; [2; 3]; [2; 3]] (metric.initial true)).
  - apply match_sound_initial.
  - unfold metric.bound, table.columns. simpl. lia.
  - vm_compute. reflexivity.
Defined.

(** C1 fails on the code at its example, which is the example in the
    comment of [k_tree] (two men, two women, one man suppressed): on the
    rows [*], [M], [F], [F] against the originals [M], [M], [F], [F] the
    verifier returns [true] for k = 2, with the caches or without, where
    the comment and the claim expect a k of 1. Every row keeps two
    originals over the injective assignments: the suppressed row is given
    0 or 1. *)
Lemma k_anonymity_s4_counterexample :
  match_sets s4_working s4_original 0
  = Ok [[0; 1; 2; 3]; [0; 1]; [2; 3]; [2; 3]]
  ∧ eval (metric.k_anonymity s4_working s4_original 2 (Some 0))
         (metric.initial true) = Ok true
  ∧ eval (metric.k_anonymity s4_working s4_original 2 (Some 0))
         (metric.initial false) = Ok true
  ∧ assigned [[0; 1; 2; 3]; [0; 1]; [2; 3]; [2; 3]] 0 0
  ∧ assigned [[0; 1; 2; 3]; [0; 1]; [2; 3]; [2; 3]] 0 1.
Proof.
  split; [vm_compute; reflexivity|].
  split; [vm_compute; reflexivity|].
  split; [vm_compute; reflexivity|].
  split.
  - exists [0; 1; 2; 3]. split; [|reflexivity]. split.
    + repeat constructor.
    + apply (bool_decide_unpack _). vm_compute. exact I.
  - exists [1; 0; 2; 3]. split; [|reflexivity]. split.
    + repeat constructor.
    + apply (bool_decide_unpack _). vm_compute. exact I.
Qed.

(** ** Arithmetic of the idealised floats *)

Section Floats.
Open Scope Q_scope.

Lemma fleb_zero_Fin (q : Q) : fleb (Fin 0) (Fin q) = true ↔ 0 <= q.
Proof.
  unfold fleb, fltb, feqb. destruct (Qcompare_spec 0 q) as [He|Hl|Hg];
    simpl.
  - rewrite (proj2 (Qeq_bool_iff 0 q) He). split; [lra|done].
  - split; [lra|done].
  - destruct (Qeq_bool 0 q) eqn:Hq.
    + apply Qeq_bool_iff in Hq. lra.
    + split; [discriminate|lra].
Qed.

Lemma nan_or_nonneg_Fin (q : Q) : 0 <= q → nan_or_nonneg (Fin q).
Proof. intros Hq. right. apply fleb_zero_Fin, Hq. Qed.

Lemma nan_or_nonneg_cases (x : float) :
  nan_or_nonneg x ↔
  match x with Fin q => 0 <= q | PInf | NaN => True | NInf => False end.
Proof.
  unfold nan_or_nonneg, fnonneg. destruct x as [q| | |].
  - rewrite fleb_zero_Fin. split; [intros [?|?]; [discriminate|done]|].
    intros Hq. right. exact Hq.
  - split; [done|]. intros _. right. reflexivity.
  - split; [|done]. intros [?|?]; discriminate.
  - split; [done|]. intros _. left. reflexivity.
Qed.

Lemma nan_or_nonneg_fadd (x y : float) :
  nan_or_nonneg x → nan_or_nonneg y → nan_or_nonneg (fadd x y).
Proof.
  rewrite !nan_or_nonneg_cases.
  destruct x as [a| | |], y as [b| | |]; simpl; try done. lra.
Qed.

Lemma nan_or_nonneg_fmul (x : float) (w : Q) :
  nan_or_nonneg x → 0 <= w → nan_or_nonneg (fmul x (Fin w)).
Proof.
  rewrite !nan_or_nonneg_cases.
  destruct x as [a| | |]; simpl; try done.
  - nra.
  - intros _ Hw. unfold inf_of_sign.
    destruct (Qcompare_spec w 0); [done|lra|done].
Qed.

Lemma nan_or_nonneg_fdiv (a b : Z) :
  (0 ≤ a)%Z → (0 ≤ b)%Z →
  nan_or_nonneg (fdiv (float_of_Z a) (float_of_Z b)).
Proof.
  intros Ha Hb. rewrite nan_or_nonneg_cases. unfold float_of_Z, fdiv.
  pose proof Ha as Ha'. rewrite Zle_Qle in Ha'.
  pose proof Hb as Hb'. rewrite Zle_Qle in Hb'.
  change (inject_Z 0) with 0 in Ha', Hb'.
  destruct (Qeq_bool (inject_Z b) 0) eqn:Hz.
  - unfold inf_of_sign.
    destruct (Qcompare_spec (inject_Z a) 0); [done|lra|done].
  - apply Qeq_bool_neq in Hz.
    apply Qle_shift_div_l; [lra|lra].
Qed.

Lemma fnonneg_fadd (a b : float) :
  fnonneg a → fnonneg b → fnonneg (fadd a b).
Proof.
  unfold fnonneg. destruct a as [x| | |], b as [y| | |]; try done.
  rewrite !fleb_zero_Fin. cbn [fadd]. rewrite fleb_zero_Fin. lra.
Qed.
End Floats.

(** ** The scores *)

Section Scores.
Import table metric.

Lemma foldM_result_inv {A B} (P : B → Prop) (f : B → A → result B)
    (l : list A) :
  (∀ b a b', P b → f b a = Ok b' → P b') →
  ∀ b b', P b → foldM f b l = Ok b' → P b'.
Proof.
  intros Hstep. induction l as [|a l IH]; intros b b' Hb.
  - intros [= <-]. exact Hb.
  - cbn [foldM]. destruct (f b a) as [b1|] eqn:Hf; [|discriminate].
    rewrite result_bind_ok. apply IH. exact (Hstep b a b1 Hb Hf).
Qed.

(** Without the cache the row loop is the plain sum of the row scores,
    and the state is left as it was. *)
Lemma score_rows_off (f : nat → list string → result float) (w : Table)
    (st : state) :
  cache st = false →
  score_rows f w st
  = match score_rows_uncached f w with
    | Ok s => Ok (s, st)
    | Err e => Err e
    end.
Proof.
  intros Hoff. unfold score_rows, score_rows_uncached.
  generalize (Fin 0) as score. generalize (seq 0 (rows w)) as rs.
  induction rs as [|r rs IH]; intros score; [reflexivity|].
  cbn [foldM]. rewrite M_bind_run, M_bind_run. unfold lift at 1.
  destruct (row_view w r) as [row|]; [|reflexivity].
  rewrite result_bind_ok, M_bind_run. unfold get_state.
  rewrite Hoff, M_bind_run, M_ret_run, M_bind_run. unfold lift.
  destruct (f r row) as [rs'|]; [|reflexivity].
  rewrite result_bind_ok, M_bind_run, !M_ret_run. apply IH.
Qed.

Lemma eval_score_rows_off (f : nat → list string → result float)
    (w : Table) (st : state) :
  cache st = false →
  eval (score_rows f w) st = score_rows_uncached f w.
Proof.
  intros Hoff. unfold eval. rewrite (score_rows_off f w st Hoff).
  destruct (score_rows_uncached f w); reflexivity.
Qed.

(** *** Scores that are not below zero *)

Lemma weight_nonneg (tb : Table) (col : nat) (column : column) :
  nonneg_weights tb → get_column tb col = Ok column →
  (0 <= weight column)%Q.
Proof.
  intros Hw. unfold get_column, index.
  destruct (at_ (header tb) col) as [h|]; [|discriminate].
  rewrite result_bind_ok.
  destruct (tdata tb !! h) as [c0|] eqn:Hh; [|discriminate].
  intros [= <-]. exact (Hw h c0 Hh).
Qed.

Lemma md_row_nonneg (w o : Table) (r : nat) (row : list string)
    (s : float) :
  nonneg_weights w → md_row w o r row = Ok s →
  ∃ q, s = Fin q ∧ (0 <= q)%Q.
Proof.
  intros Hw. unfold md_row.
  apply (foldM_result_inv (λ s, ∃ q, s = Fin q ∧ (0 <= q)%Q)).
  - intros b col b' (q & -> & Hq).
    destruct (cell o r col) as [original|]; [|discriminate].
    rewrite result_bind_ok.
    destruct (at_ row col) as [mod_|]; [|discriminate].
    rewrite result_bind_ok.
    destruct (negb (original =? mod_)%string);
      [|intros [= <-]; eauto].
    destruct (get_column w col) as [column|] eqn:Hc; [|discriminate].
    rewrite result_bind_ok. intros [= <-].
    pose proof (weight_nonneg w col column Hw Hc) as Hweight.
    eexists. split; [reflexivity|]. lra.
  - exists 0%Q. split; [reflexivity|]. lra.
Qed.

Lemma certainty_cell_nonneg (w : Table) (col : nat)
    (original mod_ : string) (cs : float) :
  certainty_cell w col original mod_ = Ok (Some cs) → nan_or_nonneg cs.
Proof.
  unfold certainty_cell.
  destruct (original =? mod_)%string; [discriminate|].
  destruct (mod_ =? "*")%string.
  { intros [= <-]. apply nan_or_nonneg_Fin. simpl. lra. }
  destruct (get_column w col) as [column|]; [|discriminate].
  rewrite result_bind_ok.
  destruct (_ && _).
  { intros [= <-].
    refine (nan_or_nonneg_fadd (Fin 0)
              (fdiv (float_of_Z (Z.of_nat _)) (float_of_Z (Z.of_nat _)))
              _ _).
    - apply nan_or_nonneg_Fin. lra.
    - apply nan_or_nonneg_fdiv; lia. }
  destruct (_ && _); [|discriminate].
  destruct (shared.Range_of_string mod_) as [rg|]; [|discriminate].
  rewrite result_bind_ok. intros [= <-].
  refine (nan_or_nonneg_fadd (Fin 0)
            (fdiv (float_of_Z (shared.range _))
                  (float_of_Z (shared.range _))) _ _).
  - apply nan_or_nonneg_Fin. lra.
  - apply nan_or_nonneg_fdiv; unfold shared.range, to_size_t;
      apply Z.mod_pos_bound; lia.
Qed.

Lemma certainty_row_nonneg (w o : Table) (r : nat) (row : list string)
    (s : float) :
  nonneg_weights o → certainty_row w o r row = Ok s → nan_or_nonneg s.
Proof.
  intros Hw. unfold certainty_row.
  apply (foldM_result_inv nan_or_nonneg).
  - intros b col b' Hb.
    destruct (cell o r col) as [original|]; [|discriminate].
    rewrite result_bind_ok.
    destruct (at_ row col) as [mod_|]; [|discriminate].
    rewrite result_bind_ok.
    destruct (certainty_cell w col original mod_) as [[cs|]|] eqn:Hcs;
      [|intros [= <-]; exact Hb|discriminate].
    rewrite result_bind_ok.
    destruct (get_column o col) as [ocol|] eqn:Hc; [|discriminate].
    rewrite result_bind_ok. intros [= <-].
    apply nan_or_nonneg_fadd; [exact Hb|].
    apply nan_or_nonneg_fmul.
    + exact (certainty_cell_nonneg _ _ _ _ _ Hcs).
    + exact (weight_nonneg o col ocol Hw Hc).
  - apply nan_or_nonneg_Fin. lra.
Qed.

End Scores.

(** C7 as stated fails. Under a negative weight both scores are negative;
    and [certainty_score] does not return for a change that is neither a
    suppression nor a generalisation. *)
Lemma scores_counterexample :
  (eval (metric.minimal_distortion debt_working debt_original)
        (metric.initial false) = Ok (Fin (-10))
   ∧ eval (metric.certainty_score debt_working debt_original)
          (metric.initial false) = Ok (Fin (-10))
   ∧ fleb (Fin 0) (Fin (-10)) = false)
  ∧ eval (metric.certainty_score unit_invalid unit_original)
         (metric.initial false) = Err InvalidModification.
Proof.
  split.
  - split_and!; vm_compute; reflexivity.
  - vm_compute. reflexivity.
Qed.

(** ** MinGen *)

Section MinGenProperties.
Context `{Random}.
Import table.

(** C10. A call of [anonymize] starts from an object without states
    counted and without tables recorded (the constructor and the end of
    every search leave it so). When the original table is k-anonymous as
    it stands, the call prints the notice and returns: no state is
    counted, no table is recorded, the working copy is the original, and
    of the process only the metrics moved, by the one call of
    [k_anonymity]; no mutation was drawn, no score computed and nothing
    else printed. *)
Theorem anonymize_already_anonymous (s : mg.MinGen) (p : process)
    (k_val : nat) (m_val : metric.metric) (iters : Z)
    (ms' : metric.state) :
  mg.states s = 0%Z →
  mg.tables s = [] →
  metric.k_anonymity (mg.original s) (mg.original s) k_val
    (Some (columns (mg.original s) - 1)) (metrics p)
  = Ok (true, ms') →
  mg.anonymize k_val m_val iters (s, p)
  = Ok (tt, (mg.mkMinGen (mg.original s) (mg.original s) k_val m_val
               iters 0 [] (mg.view s) (mg.best s),
             mkProcess ms' (rng p) (gen p) (cout p ++ [AlreadyMeets]))).
Proof.
  intros Hstates Htables Hk. unfold mg.anonymize.
  rewrite M_bind_run. unfold update at 1. cbn [fst snd].
  rewrite M_bind_run. unfold self at 1.
  cbn [fst snd mg.original mg.working mg.k].
  rewrite M_bind_run. unfold on_process at 1, on_metrics at 1.
  cbn [fst snd]. rewrite Hk, Hstates, Htables. reflexivity.
Qed.
End MinGenProperties.

Lemma anonymize_already_anonymous_witness :
  ∃ ms',
    mg.anonymize 2 metric.md SIZE_MAX
      (mg.construct s4_original, process_start true [])
    = Ok (tt, (mg.mkMinGen s4_original s4_original 2 metric.md SIZE_MAX 0 []
                 table.Table_default INFINITY,
               mkProcess ms' ([], []) ([], []) [AlreadyMeets])).
Proof.
  eexists.
  apply (anonymize_already_anonymous (mg.construct s4_original)
           (process_start true [])).
  - reflexivity.
  - reflexivity.
  - vm_compute. reflexivity.
Defined.

(** C2 fails on the code under the certainty metric: the condition of the
    last row is [certainty_score(...)] itself, taken as a boolean, and not
    its comparison with [best].
    - The search advances with a score above the best: with the best at 2,
      the candidate [*], [Blue Collar] of score 5/2 passes.
    - The search does not advance with a score that is not above the best:
      the untouched first column of [two_by_two] (score 0, 2-anonymous on
      that column) is refused.
    - So the exhaustive search under the certainty metric ends with the
      best score 3 on [two_by_two], and never visits [second_suppressed],
      which is 2-anonymous with the score 2; under minimal distortion,
      where the scores of these tables are the same, it finds it. *)
Theorem prune_test_certainty_diverges :
  let original := trade_table ["Mechanic"; "Plumber"] in
  let candidate := rewritten original "Job" ["*"; "Blue Collar"] in
  (agree feq (eval (metric.certainty_score candidate original)
                   (metric.initial false)) (Ok (Fin (5 # 2)))
   ∧ fleb (Fin (5 # 2)) (Fin 2) = false
   ∧ eval (mg.prune_test 0)
          (searching candidate original (Fin 2), process_start false [])
     = Ok true)
  ∧ (eval (metric.certainty_score two_by_two two_by_two)
          (metric.initial false) = Ok (Fin 0)
     ∧ fleb (Fin 0) (Fin 3) = true
     ∧ eval (metric.k_anonymity two_by_two two_by_two 2 (Some 0))
            (metric.initial false) = Ok true
     ∧ eval (mg.prune_test 0)
            (searching two_by_two two_by_two (Fin 3), process_start false [])
       = Ok false)
  ∧ (mg_report (mg.anonymize 2 metric.c SIZE_MAX
                  (mg.construct two_by_two, process_start false []))
     = Ok [([[["*"; "*"]; ["A"; "*"]]; [["A"; "*"]; ["*"; "*"]]],
            27%Z, Fin 3)]
     ∧ mg_report (mg.anonymize 2 metric.md SIZE_MAX
                    (mg.construct two_by_two, process_start false []))
       = Ok [([[["A"; "*"]; ["A"; "*"]]], 34%Z, Fin 2)]
     ∧ eval (metric.certainty_score second_suppressed two_by_two)
            (metric.initial false) = Ok (Fin 2)
     ∧ eval (metric.k_anonymity second_suppressed two_by_two 2 None)
            (metric.initial false) = Ok true).
Proof.
  split; [|split].
  - split; [vm_compute; reflexivity|]. split; vm_compute; reflexivity.
  - split_and!; vm_compute; reflexivity.
  - split_and!; vm_compute; reflexivity.
Qed.

(** C3 fails on the code: the score cache is keyed by the row of the
    working table alone, while the score of a row depends on the original
    row it is compared with. [Blue Collar] is a mutation of [Mechanic];
    in the candidate [Blue Collar], [Blue Collar] over the originals
    [Mechanic], [Blue Collar] the second row is unchanged, yet with the
    cache it is given the score of the first. And an exhaustive search
    with the cache loses a tied-best table that the search without it
    returns. *)
Theorem cache_changes_results :
  let original := job_table ["Mechanic"; "Blue Collar"] in
  let candidate := rewritten original "Job" ["Blue Collar"; "Blue Collar"] in
  table.mutations "Mechanic"
    (domain_column 1 jobs ["Mechanic"; "Blue Collar"])
  = Ok ["*"; "Mechanic"; "Blue Collar"]
  ∧ eval (metric.minimal_distortion candidate original)
         (metric.initial false) = Ok (Fin 1)
  ∧ eval (metric.minimal_distortion candidate original)
         (metric.initial true) = Ok (Fin 2)
  ∧ agree feq (eval (metric.certainty_score candidate original)
                    (metric.initial false)) (Ok (Fin 1))
  ∧ agree feq (eval (metric.certainty_score candidate original)
                    (metric.initial true)) (Ok (Fin 2))
  ∧ mg_report (mg.anonymize 2 metric.md SIZE_MAX
                 (mg.construct
                    (job_table ["Blue Collar"; "Mechanic"; "Doctor"]),
                  process_start false []))
    = Ok [([[["*"]; ["Mechanic"]; ["*"]]; [["Blue Collar"]; ["*"]; ["*"]]],
           29%Z, Fin 2)]
  ∧ mg_report (mg.anonymize 2 metric.md SIZE_MAX
                 (mg.construct
                    (job_table ["Blue Collar"; "Mechanic"; "Doctor"]),
                  process_start true []))
    = Ok [([[["*"]; ["Mechanic"]; ["*"]]], 28%Z, Fin 2)].
Proof. intros original candidate. split_and!; vm_compute; reflexivity. Qed.

(** ** The genetic algorithm *)

Section Evolution.
Context `{Random}.
Import table.

Section Frame.
Context {F : Type} (field : ga.GeneticAlgorithm → F).

Lemma keeps_ret {A} (a : A) : keeps field (mret a).
Proof. intros s a' s' [= <- <-]. reflexivity. Qed.

Lemma keeps_bind {A B} (c : M (ga.GeneticAlgorithm * process) A)
    (f : A → M (ga.GeneticAlgorithm * process) B) :
  keeps field c → (∀ a, keeps field (f a)) → keeps field (c ≫= f).
Proof.
  intros Hc Hf s b s'. rewrite M_bind_run.
  destruct (c s) as [[a s1]|] eqn:Hcs; [|discriminate].
  intros Hfs. rewrite (Hf a s1 b s' Hfs). exact (Hc s a s1 Hcs).
Qed.

Lemma keeps_self : keeps field self.
Proof. intros s a s' [= <- <-]. reflexivity. Qed.

Lemma keeps_on_process {A} (c : M process A) :
  keeps field (on_process c).
Proof.
  intros s a s'. unfold on_process.
  destruct (c s.2) as [[a' p]|]; [|discriminate].
  intros [= <- <-]. reflexivity.
Qed.

Lemma keeps_update (f : ga.GeneticAlgorithm → ga.GeneticAlgorithm) :
  (∀ g, field (f g) = field g) → keeps field (update f).
Proof. intros Hf s a s' [= <- <-]. apply Hf. Qed.

Lemma keeps_foldM {A B}
    (f : B → A → M (ga.GeneticAlgorithm * process) B) (l : list A) :
  (∀ b a, keeps field (f b a)) → ∀ b, keeps field (foldM f b l).
Proof.
  intros Hf. induction l as [|a l IH]; intros b.
  - apply keeps_ret.
  - cbn [foldM]. apply keeps_bind; [apply Hf|]. intros b'. apply IH.
Qed.
End Frame.

Ltac keeps :=
  repeat first
    [ apply keeps_ret
    | apply keeps_self
    | apply keeps_on_process
    | apply keeps_update; intros; reflexivity
    | apply keeps_foldM; intros
    | apply keeps_bind; [|intros]
    | match goal with
      | |- keeps _ (if ?b then _ else _) => destruct b
      | |- keeps _ (match ?x with _ => _ end) => destruct x
      end ].

Lemma combine_keeps {F} (field : ga.GeneticAlgorithm → F)
    (first second : Table) :
  keeps field (ga.combine first second).
Proof. unfold ga.combine. keeps. Qed.

(** Breeding counts states and changes nothing else of the object. *)
Lemma breed_keeps {F} (field : ga.GeneticAlgorithm → F)
    (offspring : nat) (current : ga.instance)
    (children : list ga.instance) :
  (∀ v g, field (ga.with_states v g) = field g) →
  keeps field (ga.breed offspring current children).
Proof.
  intros Hs. unfold ga.breed. keeps;
    first [ apply combine_keeps | apply keeps_update; intros; apply Hs ].
Qed.

Lemma generation_step_keeps_mutations (tenth it : Z) :
  keeps ga.mutations (ga.generation_step tenth it).
Proof.
  unfold ga.generation_step, ga.update_view. keeps.
Qed.

Lemma anonymize_worker_keeps_mutations :
  keeps ga.mutations ga.anonymize_worker.
Proof.
  unfold ga.anonymize_worker. keeps.
Qed.

(** Whatever [anonymize] is given as mutation rate and however often
    the rate is doubled, the member distribution that [combine] draws
    its rolls from is the one the object had before. *)
Lemma anonymize_keeps_mutations (k_val : nat) (m_val : metric.metric)
    (iters p_val mut_rate : Z) :
  keeps ga.mutations (ga.anonymize k_val m_val iters p_val mut_rate).
Proof.
  unfold ga.anonymize. keeps.
Qed.

Lemma M_bind_inv {S A B} (c : M S A) (f : A → M S B) (s s' : S) (b : B) :
  (c ≫= f) s = Ok (b, s') →
  ∃ a s1, c s = Ok (a, s1) ∧ f a s1 = Ok (b, s').
Proof.
  rewrite M_bind_run. destruct (c s) as [[a s1]|]; [|discriminate].
  eauto.
Qed.

(** One turn of the generation loop doubles [m_rate] when the turn ends
    a tenth of the run, and leaves it otherwise. *)
Lemma generation_step_m_rate (tenth it : Z) (g g' : ga.GeneticAlgorithm)
    (p p' : process) :
  ga.generation_step tenth it (g, p) = Ok (tt, (g', p')) →
  ga.m_rate g'
  = if ((it + 1) mod tenth =? 0)%Z then to_size_t (ga.m_rate g * 2)
    else ga.m_rate g.
Proof.
  unfold ga.generation_step.
  intros (u & s1 & Hup & Hrun)%M_bind_inv.
  injection Hup as <- <-.
  apply M_bind_inv in Hrun as (u2 & s2 & Hblock & Hrest).
  assert (ga.m_rate g' = ga.m_rate s2.1) as ->.
  { revert Hrest.
    match goal with
    | |- ?c s2 = _ → _ =>
        assert (keeps ga.m_rate c) as Hk; [|exact (Hk s2 tt (g', p'))]
    end.
    keeps. }
  destruct (tenth =? 0)%Z; [discriminate|].
  destruct ((it + 1) mod tenth =? 0)%Z.
  - apply M_bind_inv in Hblock as (u3 & s3 & Hup & Hview).
    injection Hup as <- <-.
    revert Hview.
    match goal with
    | |- ?c ?s = _ → _ =>
        assert (keeps ga.m_rate c) as Hk; [|exact (Hk s u2 s2)]
    end.
    unfold ga.update_view. keeps.
  - injection Hblock as <- <-. reflexivity.
Qed.

(** The constructor builds it from the default rate 10. *)
Lemma construct_mutations (o : Table) (g : ga.GeneticAlgorithm) :
  ga.construct o = Ok g → ga.mutations g = ga.mkDistribution 0 110.
Proof.
  unfold ga.construct. destruct (get_column o 0); [|discriminate].
  intros [= <-]. reflexivity.
Qed.
End Evolution.

(** C5 fails on the code. The rate is doubled every tenth of the run, but
    the distribution built from the doubled rate is a local variable of
    the block, and the member that [combine] draws from is never assigned
    after the constructor. A run of ten generations asked for the mutation
    rate 40 ends with the rate [40 * 2^10], and every roll of [combine] was
    drawn from the interval from 0 to 110 (the draws from 0 to 10 pick the
    partners). The script makes the three branches of [combine] run. *)
Theorem mutation_rate_never_reaches_combine :
  ga_report
    (g ← ga.construct pair_original;
     ga.anonymize 2 metric.md 10 20 40
       (g, process_start true [3; 105; 20; 7; 70; 110]%Z))
  = Ok ((40 * 2 ^ 10)%Z, ga.mkDistribution 0 110, ga.mkDistribution 0 10,
        [(0, 10); (0, 110)]%Z, 300).
Proof. vm_compute. reflexivity. Qed.

(** ** The fitness *)

Section Fitness.
Import table metric.

(** What [match_row] returns over a sound cache is what it computes
    without the cache. *)
Lemma match_row_returns (o : Table) (row : list string) (upto : nat)
    (st st' : state) (v : list nat) :
  match_sound o st →
  S upto ≤ length row →
  match_row o row upto st = Ok (v, st') →
  compute_matches o row upto = Ok v ∧ match_sound o st'.
Proof.
  intros Hsound Hlen Hrun.
  destruct (compute_matches o row upto) as [v0|e] eqn:Hc.
  - destruct (match_row_spec o row upto st v0 Hsound Hlen Hc)
      as (st0 & Hrun0 & Hs0 & _).
    rewrite Hrun0 in Hrun. injection Hrun as <- <-. done.
  - exfalso. revert Hrun. unfold match_row.
    rewrite M_bind_run. unfold get_state.
    destruct (cache st) eqn:Hon.
    + rewrite M_bind_run.
      unfold on_match at 1, shared.in_, shared.cells_of.
      rewrite decide_True by exact Hlen. rewrite result_bind_ok.
      set (ks := take (S upto) row).
      destruct (shared.Node_in ks (shared.root (match_cache st))) eqn:Hin.
      * destruct (Node_in_get ks _ Hin) as [v' Hget].
        assert (ks ≠ []) as Hks.
        { destruct row; [simpl in Hlen; lia|discriminate]. }
        pose proof (Hsound Hon ks v' Hks Hin Hget) as Hcomp.
        unfold ks in Hcomp.
        rewrite (compute_matches_take o row upto Hlen) in Hcomp.
        congruence.
      * rewrite M_bind_run. unfold lift. rewrite Hc. discriminate.
    + rewrite M_bind_run, M_ret_run, M_bind_run. unfold lift.
      rewrite Hc. discriminate.
Qed.
End Fitness.

(** C4 fails on the code. The dominance that the claim states, and that
    the comments of [ga.h] intend with the factor [cells] ("giving
    K-Anonymous scores a boost", on the assumption that the score is at
    most 1), fails under the default configuration (minimal distortion,
    weights 1, k = 2). Of six rows with nothing alike, the table that
    suppresses everything is 2-anonymous and has the fitness [2 * 6 / 6];
    the table that keeps the first row is not 2-anonymous and has the
    fitness [(26/6) / 2], which is more. *)
Lemma fitness_dominance_counterexample :
  ∃ g, ga.construct six_original = Ok g
    ∧ eval (metric.k_anonymity six_suppressed six_original 2 None)
           (metric.initial true) = Ok true
    ∧ eval (metric.k_anonymity six_but_one six_original 2 None)
           (metric.initial true) = Ok false
    ∧ eval (ga.fitness g six_suppressed) (metric.initial true)
      = Ok (Fin (12 # 6))
    ∧ eval (ga.fitness g six_but_one) (metric.initial true)
      = Ok (Fin (26 # 12))
    ∧ fltb (Fin (12 # 6)) (Fin (26 # 12)) = true.
Proof.
  eexists. split; [vm_compute; reflexivity|].
  split_and!; vm_compute; reflexivity.
Qed.

(** ** The scores with the cache in use *)

Section ScoreCache.
Import table metric.

Lemma foldM_M_state {S A B} (I : list A → B → S → Prop)
    (f : B → A → M S B) (l : list A) :
  (∀ pre a b s b1 s1,
     I pre b s → f b a s = Ok (b1, s1) → I (pre ++ [a]) b1 s1) →
  ∀ b0 s b' s', I [] b0 s → foldM f b0 l s = Ok (b', s') → I l b' s'.
Proof.
  intros Hstep.
  assert (∀ pre b s b' s', I pre b s → foldM f b l s = Ok (b', s') →
                           I (pre ++ l) b' s') as Hgen.
  { induction l as [|a l IH]; intros pre b s b' s' Hb.
    - intros [= <- <-]. rewrite app_nil_r. exact Hb.
    - cbn [foldM]. intros (b1 & s1 & Hf & Hrun)%M_bind_inv.
      rewrite (cons_middle a pre l), app_assoc.
      exact (IH _ _ _ _ _ (Hstep _ _ _ _ _ _ Hb Hf) Hrun). }
  intros b0 s b' s'. exact (Hgen [] b0 s b' s').
Qed.

Lemma served_initial (P : float → Prop) (enabled : bool) :
  served P (initial enabled).
Proof.
  intros ks v Hin. unfold initial, shared.Tree_empty in Hin.
  cbn [score_cache shared.root] in Hin.
  destruct ks as [|val ks]; discriminate.
Qed.

(** A row that the cache holds is served with a value of [P]. *)
Lemma served_hit (P : float → Prop) (row : list string) (st st1 st2 : state)
    (v : float) :
  served P st →
  on_score (shared.in_ row None) st = Ok (true, st1) →
  score_get row st1 = Ok (v, st2) →
  P v ∧ served P st2.
Proof.
  intros Hserved Hin Hget.
  unfold on_score, shared.in_ in Hin.
  destruct (shared.cells_of row None) as [ks|] eqn:Hks; [|discriminate].
  rewrite result_bind_ok in Hin.
  destruct (shared.Node_in ks _) eqn:Hnode; [|discriminate].
  injection Hin as <-.
  unfold score_get, shared.get in Hget.
  cbn [score_cache shared.root] in Hget. rewrite Hks in Hget.
  rewrite result_bind_ok in Hget.
  destruct (shared.Node_get ks _) as [v'|] eqn:Hv; [|discriminate].
  rewrite result_bind_ok in Hget. injection Hget as <- <-.
  split; [exact (Hserved ks v' Hnode Hv)|].
  intros ks' w. cbn [score_cache shared.root]. apply Hserved.
Qed.

(** A miss leaves the stored scores as they are, and storing a score of
    [P] keeps the cache within [P]. *)
Lemma served_miss (P : float → Prop) (row : list string) (st st1 : state) :
  served P st →
  on_score (shared.in_ row None) st = Ok (false, st1) →
  served P st1.
Proof.
  intros Hserved Hin. unfold on_score, shared.in_ in Hin.
  destruct (shared.cells_of row None) as [ks|]; [|discriminate].
  rewrite result_bind_ok in Hin.
  destruct (shared.Node_in ks _); [discriminate|].
  injection Hin as <-. intros ks' w. cbn [score_cache shared.root].
  apply Hserved.
Qed.

Lemma served_add (P : float → Prop) (row : list string) (rs : float)
    (st st1 : state) :
  served P st → P rs →
  on_score (shared.add row rs None) st = Ok (tt, st1) →
  served P st1.
Proof.
  intros Hserved Hrs Hadd. unfold on_score, shared.add in Hadd.
  destruct (shared.cells_of row None) as [ks|]; [|discriminate].
  rewrite result_bind_ok in Hadd.
  destruct (shared.Node_add ks rs _) as [r|] eqn:Hr; [|discriminate].
  rewrite result_bind_ok in Hadd. injection Hadd as <-.
  intros ks' w. cbn [score_cache shared.root]. intros Hin Hget.
  destruct (Node_add_in ks rs _ _ Hr ks' Hin) as [->|Hold].
  - rewrite (Node_add_get ks rs _ _ Hr) in Hget. injection Hget as <-.
    exact Hrs.
  - destruct (Node_add_preserves ks rs _ _ Hr ks' Hold) as [_ Hsame].
    rewrite Hsame in Hget. exact (Hserved ks' w Hold Hget).
Qed.

(** The row loop keeps a property of the scores that holds of zero, of
    sums and of every row score, whatever the cache serves. *)
Lemma score_rows_served (P : float → Prop)
    (f : nat → list string → result float) (w : Table)
    (st st' : state) (s : float) :
  P (Fin 0) →
  (∀ a b, P a → P b → P (fadd a b)) →
  (∀ r row x, f r row = Ok x → P x) →
  served P st →
  score_rows f w st = Ok (s, st') →
  P s ∧ served P st'.
Proof.
  intros H0 Hadd Hf Hserved Hrun. unfold score_rows in Hrun.
  refine (foldM_M_state (λ _ score st, P score ∧ served P st)
            _ _ _ _ _ _ _ _ Hrun); [|split; [exact H0|exact Hserved]].
  clear Hrun Hserved. intros _ r score st0 score1 st1 [Hscore Hserved].
  intros (row1 & st2 & Hrow & Hbody)%M_bind_inv.
  unfold lift in Hrow. destruct (row_view w r) as [row|]; [|discriminate].
  injection Hrow as <- <-.
  apply M_bind_inv in Hbody as (st3 & st4 & Hst & Hbody).
  injection Hst as <- <-.
  apply M_bind_inv in Hbody as (hit & st5 & Hhit & Hbody).
  destruct (cache st0) eqn:Hcache.
  - destruct hit.
    + apply M_bind_inv in Hbody as (v & st6 & Hget & Hret).
      injection Hret as <- <-.
      destruct (served_hit P row st0 st5 st6 v Hserved Hhit Hget)
        as [Hv Hserved'].
      split; [exact (Hadd _ _ Hscore Hv)|exact Hserved'].
    + apply M_bind_inv in Hbody as (rs & st6 & Hrs & Hbody).
      unfold lift in Hrs. destruct (f r row) as [rs'|] eqn:Hfr;
        [|discriminate].
      injection Hrs as <- <-.
      apply M_bind_inv in Hbody as ([] & st7 & Hstore & Hret).
      injection Hret as <- <-.
      pose proof (Hf r row rs' Hfr) as Hrs.
      split; [exact (Hadd _ _ Hscore Hrs)|].
      apply (served_add P row rs' st5 st7); [|exact Hrs|exact Hstore].
      exact (served_miss P row st0 st5 Hserved Hhit).
  - injection Hhit as <- <-.
    apply M_bind_inv in Hbody as (rs & st6 & Hrs & Hbody).
    unfold lift in Hrs. destruct (f r row) as [rs'|] eqn:Hfr;
      [|discriminate].
    injection Hrs as <- <-.
    apply M_bind_inv in Hbody as ([] & st7 & Hstore & Hret).
    injection Hstore as <-. injection Hret as <- <-.
    split; [exact (Hadd _ _ Hscore (Hf r row rs' Hfr))|exact Hserved].
Qed.
End ScoreCache.

(** C7, as the code has it. When no weight of the working table is
    negative, [minimal_distortion] returns no value below zero; when no
    weight of the original table is negative, [certainty_score] returns no
    value below zero, NaN (which a divisor of zero can give) apart. Both hold
    with the score cache in use: the scores it serves were computed by
    earlier calls under the same weights, so they are of the same kind,
    from the empty cache of the program start on. *)
Theorem scores_nonnegative (w o : table.Table) (st st' : metric.state)
    (s : float) :
  (nonneg_weights w → served fnonneg st →
   metric.minimal_distortion w o st = Ok (s, st') →
   fnonneg s ∧ served fnonneg st')
  ∧ (nonneg_weights o → served nan_or_nonneg st →
     metric.certainty_score w o st = Ok (s, st') →
     nan_or_nonneg s ∧ served nan_or_nonneg st')
  ∧ (∀ enabled, served fnonneg (metric.initial enabled)
                ∧ served nan_or_nonneg (metric.initial enabled)).
Proof.
  split; [|split].
  - intros Hw. apply score_rows_served.
    + apply fleb_zero_Fin. lra.
    + apply fnonneg_fadd.
    + intros r row x Hx.
      destruct (md_row_nonneg w o r row x Hw Hx) as (q & -> & Hq).
      apply fleb_zero_Fin, Hq.
  - intros Hw. apply score_rows_served.
    + apply nan_or_nonneg_Fin. lra.
    + apply nan_or_nonneg_fadd.
    + intros r row x. apply certainty_row_nonneg, Hw.
  - intros enabled. split; apply served_initial.
Qed.

Lemma scores_nonnegative_witness :
  ∃ s st',
    metric.minimal_distortion s4_working s4_original (metric.initial true)
    = Ok (s, st')
    ∧ fnonneg s ∧ served fnonneg st'.
Proof.
  destruct (metric.minimal_distortion s4_working s4_original
              (metric.initial true)) as [[s st']|] eqn:Hrun;
    [|vm_compute in Hrun; discriminate].
  exists s, st'. split; [reflexivity|].
  destruct (scores_nonnegative s4_working s4_original (metric.initial true)
              st' s) as (Hmd & _ & Hstart).
  apply Hmd; [|apply Hstart|exact Hrun].
  apply map_Forall_singleton. simpl. lra.
Defined.

(** * Further properties of the code *)

(** ** [shared::Tree]: lookups and insertions *)

Section TreeLookups.
Context {T : Type} `{shared.Defaulted T}.
Import shared.

Lemma Node_get_in (ks : list string) (n : Node T) (v : T) :
  Node_get ks n = Ok v → is_default v = false → Node_in ks n = true.
Proof.
  revert n. induction ks as [|val ks IH]; intros n; simpl.
  - intros [= <-] ->. reflexivity.
  - destruct (find_state val (states n)) as [[i ch]|] eqn:Hf;
      [|discriminate].
    intros Hg Hd. destruct (states n) eqn:Hs; [discriminate|].
    exact (IH _ Hg Hd).
Qed.

Lemma Node_in_get_value (ks : list string) (n : Node T) :
  Node_in ks n = true →
  ∃ v, Node_get ks n = Ok v ∧ is_default v = false.
Proof.
  revert n. induction ks as [|val ks IH]; intros n; simpl.
  - intros Hv. exists (value n). split; [reflexivity|].
    apply negb_true_iff, Hv.
  - destruct (states n); [discriminate|].
    destruct (find_state val _) as [[i ch]|]; [apply IH|discriminate].
Qed.

(** X1. [in(row)] answers whether [get(row)] would return a value other
    than [T()]: it is true exactly when the prefix has a node and the
    value at that node is not the default. *)
Theorem tree_in_iff_get (tr : Tree T) (row : list string)
    (max : option nat) (b : bool) :
  eval (in_ row max) tr = Ok b →
  (b = true ↔ ∃ v, get row max tr = Ok v ∧ is_default v = false).
Proof.
  unfold eval, in_, get.
  destruct (cells_of row max) as [ks|]; simpl; [|discriminate].
  intros [= <-]. split.
  - apply Node_in_get_value.
  - intros (v & Hg & Hd). exact (Node_get_in _ _ _ Hg Hd).
Qed.

(** X2. Insertion and lookup round trip: when [in(row)] is false,
    [add(row, v)] succeeds; afterwards [get(row)] returns [v], [in(row)]
    tells whether [v] differs from [T()], and the hit and miss counters
    are as they were. *)
Theorem tree_add_then_get (tr : Tree T) (row : list string)
    (max : option nat) (v : T) :
  eval (in_ row max) tr = Ok false →
  ∃ tr', add row v max tr = Ok (tt, tr')
    ∧ get row max tr' = Ok v
    ∧ eval (in_ row max) tr' = Ok (negb (is_default v))
    ∧ hits tr' = hits tr ∧ misses tr' = misses tr.
Proof.
  unfold eval, in_, add, get.
  destruct (cells_of row max) as [ks|]; simpl; [|discriminate].
  intros [= Hin].
  destruct (Node_add_absent ks v (root tr) Hin) as [n' Hadd].
  rewrite Hadd. simpl. eexists. split; [reflexivity|]. simpl.
  pose proof (Node_add_get _ _ _ _ Hadd) as Hget.
  split_and!; try reflexivity; [exact Hget|].
  f_equal. destruct (is_default v) eqn:Hd; simpl.
  - destruct (Node_in ks n') eqn:Hin'; [|reflexivity].
    destruct (Node_in_get_value _ _ Hin') as (v' & Hg' & Hd').
    congruence.
  - exact (Node_get_in _ _ _ Hget Hd).
Qed.
End TreeLookups.

Lemma tree_in_iff_get_witness :
  true = true
  ↔ ∃ v, shared.get ["a"; "b"] None tree_ab = Ok v
         ∧ shared.is_default v = false.
Proof.
  apply (tree_in_iff_get tree_ab ["a"; "b"] None true). reflexivity.
Defined.

Lemma tree_add_then_get_witness :
  ∃ tr', shared.add ["a"; "c"] (Fin 2) None tree_ab = Ok (tt, tr')
    ∧ shared.get ["a"; "c"] None tr' = Ok (Fin 2)
    ∧ eval (shared.in_ ["a"; "c"] None) tr'
      = Ok (negb (shared.is_default (Fin 2)))
    ∧ shared.hits tr' = shared.hits tree_ab
    ∧ shared.misses tr' = shared.misses tree_ab.
Proof.
  apply (tree_add_then_get tree_ab ["a"; "c"] None (Fin 2)). reflexivity.
Defined.

(** ** [shared::Range] *)

Section Ranges.
Import shared.

(** X3. The constructor from two bounds orders them: [Range(m, M)] and
    [Range(M, m)] are the same range, its bounds are the smaller and the
    larger of the two, [in(x)] holds exactly between them, and for bounds
    of the width of [size_t] [range()] is their distance. *)
Theorem Range_of_bounds_ordered (m M x : Z) :
  Range_of_bounds m M = Range_of_bounds M m
  ∧ min (Range_of_bounds m M) = Z.min m M
  ∧ max (Range_of_bounds m M) = Z.max m M
  ∧ (in_val (Range_of_bounds m M) x = true
     ↔ (Z.min m M ≤ x ≤ Z.max m M)%Z)
  ∧ ((0 ≤ m < 2 ^ 64)%Z → (0 ≤ M < 2 ^ 64)%Z →
     range (Range_of_bounds m M) = Z.abs (M - m)).
Proof.
  assert (∀ lo hi o, in_val (mkRange lo hi o) x = true
                     ↔ (lo ≤ x ≤ hi)%Z) as Hin.
  { intros. unfold in_val. cbn [min max].
    rewrite andb_true_iff, !Z.leb_le. reflexivity. }
  unfold Range_of_bounds, range, to_size_t. cbn zeta.
  destruct (Z.ltb_spec m M) as [Hlt|Hge], (Z.ltb_spec M m) as [Hlt'|Hge'];
    try lia; rewrite Hin; cbn [min max].
  - split_and!; [reflexivity|lia|lia|lia|].
    intros Hm HM. rewrite Z.mod_small by lia. lia.
  - split_and!; [reflexivity|lia|lia|lia|].
    intros Hm HM. rewrite Z.mod_small by lia. lia.
  - assert (m = M) as -> by lia.
    split_and!; [reflexivity|lia|lia|lia|].
    intros Hm HM. rewrite Z.mod_small by lia. lia.
Qed.

(** X4. [update] widens: the updated range contains the range it was
    updated with; when the updated range was not a single point it still
    contains its old self, and its bounds are the smaller of the lower
    and the larger of the upper bounds. A range that is a single point
    (as the initial [Range(0, 0)] of a column) is not kept: its lower
    bound is replaced. *)
Theorem update_widens (q r : Range) :
  in_range (update q r) q = true
  ∧ ((min r < max r)%Z →
     in_range (update q r) r = true
     ∧ min (update q r) = Z.min (min q) (min r)
     ∧ max (update q r) = Z.max (max q) (max r))
  ∧ (min r = max r → min (update q r) = min q)
  ∧ ((min q ≤ max q)%Z → (min r ≤ max r)%Z →
     (min (update q r) ≤ max (update q r))%Z).
Proof.
  assert (∀ lo hi o lo' hi' o',
            in_range (mkRange lo hi o) (mkRange lo' hi' o') = true
            ↔ (lo ≤ lo' ∧ hi' ≤ hi)%Z) as Hin.
  { intros. unfold in_range. cbn [min max].
    rewrite andb_true_iff, !Z.leb_le. reflexivity. }
  destruct q as [qm qM qo], r as [rm rM ro].
  unfold update, update_string, update_max, update_min. cbn [min max out].
  destruct (Z.ltb_spec qm rm), (Z.eqb_spec rm rM); cbn [orb min max out];
    repeat match goal with
           | |- context [(?a <? ?b)%Z] =>
               destruct (Z.ltb_spec a b); cbn [orb min max out]
           | |- context [(?a =? ?b)%Z] =>
               destruct (Z.eqb_spec a b); cbn [orb min max out]
           end;
    rewrite !Hin; split_and!; intros; try split_and!; lia.
Qed.
End Ranges.

Lemma Range_of_bounds_ordered_witness :
  shared.range (shared.Range_of_bounds 7 3) = Z.abs (3 - 7).
Proof.
  apply (Range_of_bounds_ordered 7 3 0); lia.
Defined.

Lemma update_widens_witness :
  shared.in_range
    (shared.update (shared.Range_of_bounds 2 9) (shared.Range_of_bounds 4 6))
    (shared.Range_of_bounds 4 6) = true
  ∧ shared.min (shared.update (shared.Range_of_bounds 2 9)
                  (shared.Range_of_bounds 0 0)) = 2%Z.
Proof.
  split.
  - apply (update_widens (shared.Range_of_bounds 2 9)
             (shared.Range_of_bounds 4 6)). simpl. lia.
  - apply (update_widens (shared.Range_of_bounds 2 9)
             (shared.Range_of_bounds 0 0)). reflexivity.
Defined.

(** ** [shared::split] and [shared::strip] *)

Section Strings.

Lemma app_cons (h : ascii) (a b : string) :
  String h a +:+ b = String h (a +:+ b).
Proof. reflexivity. Qed.

Lemma app_nil (b : string) : "" +:+ b = b.
Proof. reflexivity. Qed.

Lemma split_nonempty (s : string) (d : ascii) : split s d ≠ [].
Proof.
  destruct s as [|h s]; simpl; [discriminate|].
  destruct (Ascii.eqb h d); [discriminate|].
  destruct (split s d); discriminate.
Qed.

Lemma join_cons (d : ascii) (piece : string) (l : list string) :
  l ≠ [] → join d (piece :: l) = piece +:+ String d (join d l).
Proof. destruct l; [congruence|reflexivity]. Qed.

Lemma split_join_left (s : string) (d : ascii) :
  join d (split s d) = s ∧ Forall (no_char d) (split s d).
Proof.
  induction s as [|h s [IHj IHn]]; simpl.
  - split; [reflexivity|]. repeat constructor.
  - destruct (Ascii.eqb_spec h d) as [->|Hne].
    + rewrite join_cons by apply split_nonempty. rewrite IHj.
      split; [reflexivity|]. constructor; [exact I|exact IHn].
    + pose proof (split_nonempty s d) as Hs.
      destruct (split s d) as [|piece ret]; [congruence|].
      apply Forall_cons in IHn as [Hp Hret].
      split.
      * destruct ret as [|p2 ret].
        -- simpl in *. congruence.
        -- rewrite join_cons in * by discriminate.
           rewrite app_cons. congruence.
      * constructor; [split; assumption|exact Hret].
Qed.

Lemma split_no_char (s : string) (d : ascii) :
  no_char d s → split s d = [s].
Proof.
  induction s as [|h s IH]; simpl; [reflexivity|].
  intros [Hh Hs]. destruct (Ascii.eqb_spec h d); [congruence|].
  rewrite (IH Hs). reflexivity.
Qed.

Lemma split_app (a b : string) (d : ascii) :
  no_char d a → split (a +:+ String d b) d = a :: split b d.
Proof.
  induction a as [|h a IH].
  - intros _. rewrite app_nil. simpl. rewrite Ascii.eqb_refl. reflexivity.
  - intros [Hh Ha]. rewrite app_cons. simpl.
    destruct (Ascii.eqb_spec h d); [congruence|].
    rewrite (IH Ha). reflexivity.
Qed.

(** X5. [split] on a delimiter of one character cuts at every occurrence
    of it and nowhere else: no piece contains the delimiter, the pieces
    joined by the delimiter are the input, and a list of such pieces is
    what [split] returns for their join. *)
Theorem split_join (d : ascii) (s : string) (l : list string) :
  join d (split s d) = s
  ∧ Forall (no_char d) (split s d)
  ∧ (l ≠ [] → Forall (no_char d) l → split (join d l) d = l).
Proof.
  destruct (split_join_left s d) as [Hj Hn].
  split_and!; [exact Hj|exact Hn|].
  induction l as [|piece l IH]; [congruence|].
  intros _ Hall. apply Forall_cons in Hall as [Hp Hl].
  destruct l as [|p2 l].
  - simpl. apply split_no_char, Hp.
  - rewrite join_cons by discriminate.
    rewrite (split_app _ _ _ Hp), IH; [reflexivity|discriminate|exact Hl].
Qed.

Lemma strip_front_spec (s : string) :
  starts_with " " (strip_front s) = false
  ∧ ∃ a, blanks a ∧ s = a +:+ strip_front s.
Proof.
  induction s as [|h s [IHs (a & Ha & IHa)]]; simpl.
  - split; [reflexivity|]. exists "". split; [exact I|reflexivity].
  - destruct (Ascii.eqb_spec h " ") as [->|Hne].
    + split; [exact IHs|]. exists (String " " a).
      split; [split; [reflexivity|exact Ha]|].
      rewrite app_cons. congruence.
    + split.
      * simpl. apply Ascii.eqb_neq, Hne.
      * exists "". split; [exact I|reflexivity].
Qed.

Lemma strip_back_spec (s : string) :
  last_char (strip_back s) ≠ Some " "%char
  ∧ ∃ b, blanks b ∧ s = strip_back s +:+ b.
Proof.
  induction s as [|h s [IHl (b & Hb & IHb)]]; simpl.
  - split; [discriminate|]. exists "". split; [exact I|reflexivity].
  - destruct (strip_back s) as [|c rest] eqn:Hs.
    + rewrite app_nil in IHb. subst b.
      destruct (Ascii.eqb_spec h " ") as [->|Hne].
      * split; [discriminate|]. exists (String " " s).
        split; [split; [reflexivity|exact Hb]|reflexivity].
      * split; [simpl; congruence|]. exists s.
        split; [exact Hb|reflexivity].
    + split; [exact IHl|]. exists b. split; [exact Hb|].
      rewrite app_cons. congruence.
Qed.

Lemma strip_back_head (h : ascii) (s : string) :
  h ≠ " "%char → ∃ rest, strip_back (String h s) = String h rest.
Proof.
  intros Hne. simpl. destruct (strip_back s).
  - destruct (Ascii.eqb_spec h " "); [congruence|]. eauto.
  - eauto.
Qed.

Lemma strip_back_fixed (s : string) :
  last_char s ≠ Some " "%char → strip_back s = s.
Proof.
  induction s as [|h s IH]; [reflexivity|].
  destruct s as [|c s].
  - simpl. intros Hne. destruct (Ascii.eqb_spec h " "); congruence.
  - intros Hl. change (last_char (String c s) ≠ Some " "%char) in Hl.
    change (strip_back (String h (String c s)))
      with (match strip_back (String c s) with
            | EmptyString =>
                if Ascii.eqb h " " then EmptyString else String h EmptyString
            | rest => String h rest
            end).
    rewrite (IH Hl). reflexivity.
Qed.

Lemma blanks_app (a b : string) : blanks a → blanks b → blanks (a +:+ b).
Proof.
  induction a as [|h a IH]; [intros _ Hb; exact Hb|].
  intros [-> Ha] Hb. rewrite app_cons. split; [reflexivity|auto].
Qed.

(** X6. [strip] removes the blanks at both ends and nothing else: what it
    leaves is not empty, neither starts nor ends with a blank, is left
    alone by a second [strip], and the input is that string between
    blanks. On a string of blanks only (the empty string is one) the
    second loop reads outside the string. *)
Theorem strip_spec (s : string) :
  match strip s with
  | Ok t =>
      t ≠ ""
      ∧ starts_with " " t = false
      ∧ last_char t ≠ Some " "%char
      ∧ strip t = Ok t
      ∧ ∃ a b, blanks a ∧ blanks b ∧ s = a +:+ t +:+ b
  | Err e => e = OutOfBounds ∧ blanks s
  end.
Proof.
  unfold strip.
  destruct (strip_front_spec s) as [Hst (a & Ha & Hs)].
  destruct (strip_front s) as [|h f] eqn:Hf.
  - split; [reflexivity|]. rewrite Hs. apply blanks_app; [exact Ha|exact I].
  - simpl in Hst. apply Ascii.eqb_neq in Hst.
    destruct (strip_back_head h f Hst) as [rest Hrest].
    destruct (strip_back_spec (String h f)) as [Hl (b & Hb & Hsb)].
    rewrite Hrest in *. split_and!.
    + discriminate.
    + simpl. apply Ascii.eqb_neq, Hst.
    + exact Hl.
    + simpl strip_front.
      destruct (Ascii.eqb_spec h " "); [congruence|].
      rewrite (strip_back_fixed _ Hl). reflexivity.
    + exists a, b. split_and!; [exact Ha|exact Hb|]. congruence.
Qed.
End Strings.

Lemma split_join_witness :
  split (join "," ["q"; ""; "s"]) "," = ["q"; ""; "s"].
Proof.
  apply (split_join "," "" ["q"; ""; "s"]); [discriminate|].
  repeat constructor; discriminate.
Defined.

(** ** The text of a [shared::Range] *)

Section RangeStrings.
Import shared.

Lemma digit_of_pretty (r : N) :
  (r < 10)%N →
  digit_of (pretty_N_char r) = Some (Z.of_N r)
  ∧ pretty_N_char r ≠ "-"%char
  ∧ ∀ rest, strtol (String (pretty_N_char r) rest)
            = digits (String (pretty_N_char r) rest) 0 false.
Proof.
  intros Hr. rewrite <- (N2Nat.id r).
  assert (N.to_nat r < 10) as Hn by lia.
  generalize dependent (N.to_nat r). clear r Hr. intros n Hn.
  do 10 (destruct n as [|n];
         [split_and!; [reflexivity|discriminate|reflexivity]|]).
  lia.
Qed.

(** The decimal digits that [pretty] writes are read back by [digits]. *)
Lemma digits_pretty_go (x : N) :
  (0 < x)%N →
  ∀ (s : string) (acc : Z) (seen : bool),
    ∃ p, digits (pretty_N_go x s) acc seen
         = digits s (acc * p + Z.of_N x)%Z true.
Proof.
  induction (N.lt_wf_0 x) as [x _ IH]. intros Hx s acc seen.
  rewrite pretty_N_go_step by exact Hx.
  assert (x `mod` 10 < 10)%N as Hr by (apply N.mod_lt; lia).
  destruct (digit_of_pretty _ Hr) as (Hd & _ & _).
  destruct (decide (x `div` 10 = 0)%N) as [Hz|Hnz].
  - rewrite Hz, pretty_N_go_0. simpl. rewrite Hd. exists 10%Z.
    f_equal.
    pose proof (N.div_mod x 10 ltac:(lia)) as Hdm. rewrite Hz in Hdm.
    remember (x `mod` 10)%N as r. clear -Hdm. lia.
  - destruct (IH (x `div` 10)%N) with
      (s := String (pretty_N_char (x `mod` 10)) s) (acc := acc)
      (seen := seen) as [p Hp].
    + apply N.div_lt; lia.
    + apply N.neq_0_lt_0, Hnz.
    + rewrite Hp. simpl. rewrite Hd. exists (10 * p)%Z. f_equal.
      pose proof (N.div_mod x 10 ltac:(lia)) as Hdm.
      remember (x `mod` 10)%N as r. remember (x `div` 10)%N as q.
      clear -Hdm. lia.
Qed.

Lemma pretty_go_head (x : N) :
  (0 < x)%N →
  ∀ s, ∃ r rest, (r < 10)%N
                 ∧ pretty_N_go x s = String (pretty_N_char r) rest.
Proof.
  induction (N.lt_wf_0 x) as [x _ IH]. intros Hx s.
  rewrite pretty_N_go_step by exact Hx.
  destruct (decide (x `div` 10 = 0)%N) as [Hz|Hnz].
  - rewrite Hz, pretty_N_go_0. eexists _, _. split; [|reflexivity].
    apply N.mod_lt. lia.
  - apply IH; [apply N.div_lt; lia|apply N.neq_0_lt_0, Hnz].
Qed.

Lemma pretty_go_no_dash (x : N) :
  ∀ s, no_char "-" s → no_char "-" (pretty_N_go x s).
Proof.
  induction (N.lt_wf_0 x) as [x _ IH]. intros s Hs.
  destruct (decide (0 < x)%N) as [Hx|Hx].
  - rewrite pretty_N_go_step by exact Hx.
    apply IH; [apply N.div_lt; lia|].
    split; [|exact Hs].
    apply digit_of_pretty, N.mod_lt. lia.
  - assert (x = 0%N) as -> by lia. rewrite pretty_N_go_0. exact Hs.
Qed.

Lemma stoi_pretty (n : N) :
  no_char "-" (pretty n)
  ∧ stoi (pretty n)
    = if (Z.of_N n <? 2 ^ 31)%Z then Ok (Z.of_N n) else Err IntOutOfRange.
Proof.
  unfold pretty, pretty_N. destruct (decide (n = 0%N)) as [->|Hn].
  - split; [split; [discriminate|exact I]|reflexivity].
  - split; [apply pretty_go_no_dash; exact I|].
    destruct (pretty_go_head n ltac:(lia) "") as (r & rest & Hr & Hhead).
    destruct (digits_pretty_go n ltac:(lia) "" 0%Z false) as [p Hp].
    unfold stoi.
    rewrite Hhead, (proj2 (proj2 (digit_of_pretty r Hr))), <- Hhead, Hp.
    simpl digits. 
    destruct (Z.ltb_spec (Z.of_N n) (2 ^ 31)) as [Hlt|Hge].
    + rewrite (proj2 (Z.leb_le _ _)), (proj2 (Z.ltb_lt _ _)) by lia.
      reflexivity.
    + rewrite (proj2 (Z.ltb_ge _ _)) by lia. rewrite andb_false_r.
      reflexivity.
Qed.

Lemma app_assoc' (a b c : string) : (a +:+ b) +:+ c = a +:+ (b +:+ c).
Proof.
  induction a as [|h a IH]; [reflexivity|].
  rewrite !app_cons, IH. reflexivity.
Qed.

Lemma length_app' (a b : string) :
  String.length (a +:+ b) = String.length a + String.length b.
Proof.
  induction a as [|h a IH]; [reflexivity|].
  rewrite app_cons. simpl. rewrite IH. reflexivity.
Qed.

Lemma substring_app (a b : string) :
  substring 0 (String.length a) (a +:+ b) = a.
Proof.
  induction a as [|h a IH].
  - destruct b; reflexivity.
  - rewrite app_cons. simpl. rewrite IH. reflexivity.
Qed.

Lemma last_char_snoc (h c : ascii) (a : string) :
  last_char (String h (a +:+ String c "")) = Some c.
Proof.
  revert h. induction a as [|h' a IH]; intros h; [reflexivity|].
  rewrite app_cons. exact (IH h').
Qed.

(** The text of a range between brackets is read back. *)
Lemma Range_of_string_brackets (a b : string) :
  no_char "-" a → no_char "-" b →
  Range_of_string ("[" +:+ a +:+ "-" +:+ b +:+ "]")
  = m ← stoi a; M ← stoi b;
    Ok (mkRange (to_size_t m) (to_size_t M)
          ("[" +:+ a +:+ "-" +:+ b +:+ "]")).
Proof.
  intros Ha Hb.
  set (s := "[" +:+ a +:+ "-" +:+ b +:+ "]").
  assert (s = String "[" ((a +:+ String "-" b) +:+ String "]" ""))
    as Hs.
  { unfold s. rewrite app_assoc'. reflexivity. }
  unfold Range_of_string.
  assert (starts_with "[" s = true) as -> by (rewrite Hs; reflexivity).
  assert (last_char s = Some "]"%char) as ->
    by (rewrite Hs; apply last_char_snoc).
  rewrite bool_decide_eq_true_2 by reflexivity. cbn [andb negb].
  assert (substring 1 (String.length s - 2) s = a +:+ String "-" b) as ->.
  { rewrite Hs. cbn [String.length]. rewrite length_app'.
    cbn [String.length].
    replace (S (String.length (a +:+ String "-" b) + 1) - 2)
      with (String.length (a +:+ String "-" b)) by lia.
    cbn [substring]. apply substring_app. }
  rewrite (split_app _ _ _ Ha), (split_no_char _ _ Hb). reflexivity.
Qed.

(** X7. A range prints and parses back: for bounds that are not
    negative, the text [str()] of [Range(m, M)] is read by
    [Range(const std::string&)] as the same range when both bounds are
    below 2^31, and is refused by [std::stoi] with [out_of_range] when
    one of them is not. *)
Theorem Range_string_round_trip (m M : Z) :
  (0 ≤ m)%Z → (0 ≤ M)%Z →
  Range_of_string (str (Range_of_bounds m M))
  = if (Z.max m M <? 2 ^ 31)%Z then Ok (Range_of_bounds m M)
    else Err IntOutOfRange.
Proof.
  intros Hm HM. unfold str, Range_of_bounds. cbn zeta. cbn [out].
  set (lo := if (m <? M)%Z then m else M).
  set (hi := if (m <? M)%Z then M else m).
  assert (0 ≤ lo ∧ lo ≤ hi ∧ hi = Z.max m M)%Z as (Hlo & Hle & Hhi).
  { unfold lo, hi. destruct (Z.ltb_spec m M); lia. }
  destruct (stoi_pretty (Z.to_N lo)) as [Hda Hsa].
  destruct (stoi_pretty (Z.to_N hi)) as [Hdb Hsb].
  rewrite (Range_of_string_brackets _ _ Hda Hdb), Hsa, Hsb.
  rewrite !Z2N.id by lia. rewrite <- Hhi.
  destruct (Z.ltb_spec hi (2 ^ 31)) as [Hlt|Hge].
  - rewrite (proj2 (Z.ltb_lt lo (2 ^ 31))) by lia.
    rewrite !result_bind_ok. unfold to_size_t.
    rewrite !Z.mod_small by lia. reflexivity.
  - destruct (Z.ltb_spec lo (2 ^ 31)); reflexivity.
Qed.
End RangeStrings.

Lemma Range_string_round_trip_witness :
  shared.Range_of_string "[18-65]"
  = Ok (shared.Range_of_bounds 65 18).
Proof.
  apply (Range_string_round_trip 65 18); lia.
Defined.

(** ** [domain::Domain] *)

Section Hierarchies.
Import domain.

Lemma find_stack_each (v : string) (cs : list Domain) (child : string) :
  find_stack (mkDomain v cs) child = find_each cs child.
Proof.
  induction cs as [|c cs IH]; [reflexivity|].
  simpl in *. rewrite IH. reflexivity.
Qed.

Lemma breadth_each_eq (v : string) (cs : list Domain) (name : string) :
  breadth (mkDomain v cs) name = breadth_each (length cs) cs name.
Proof.
  change (breadth (mkDomain v cs) name)
    with ((fix each (rest : list Domain) : nat :=
             match rest with
             | [] => 0
             | c :: rest' =>
                 if String.eqb (value c) name then length cs
                 else match breadth c name with
                      | 0 => each rest'
                      | inn => inn
                      end
             end) cs).
  generalize (length cs). intros n.
  induction cs as [|c cs IH]; [reflexivity|].
  simpl. rewrite IH. reflexivity.
Qed.

Lemma find_each_nonempty (cs : list Domain) (child : string)
    (st : list string) :
  find_each cs child = Some st → st ≠ [].
Proof.
  induction cs as [|c cs IH]; simpl; [discriminate|].
  destruct (String.eqb (value c) child); [intros [= <-]; discriminate|].
  destruct (find_stack c child) as [st'|]; [|exact IH].
  intros [= <-]. destruct st'; discriminate.
Qed.

Lemma find_nil (d : Domain) (child : string) :
  find d child = [] ↔ find_stack d child = None.
Proof.
  unfold find. destruct d as [v cs]. rewrite find_stack_each.
  destruct (find_each cs child) as [st|] eqn:Hf; simpl.
  - apply find_each_nonempty in Hf. split; [congruence|discriminate].
  - split; reflexivity.
Qed.

Lemma find_each_breadth (name : string) (cs : list Domain) (n : nat) :
  0 < n →
  Forall (λ c, find_stack c name = None ↔ breadth c name = 0) cs →
  find_each cs name = None ↔ breadth_each n cs name = 0.
Proof.
  intros Hn. induction 1 as [|c cs Hc _ IH]; simpl; [split; reflexivity|].
  destruct (String.eqb (value c) name).
  - split; [discriminate|lia].
  - destruct (find_stack c name) as [st|].
    + destruct (breadth c name) as [|inn].
      * destruct Hc as [_ Hc]. specialize (Hc eq_refl). discriminate.
      * split; discriminate.
    + destruct Hc as [Hc _]. rewrite (Hc eq_refl). exact IH.
Qed.

(** X8. [find] and [breadth] agree on which names a hierarchy has:
    [find(name)] is empty exactly when [breadth(name)] is 0. So the
    certainty score, which divides [breadth(mod)] where [find(mod)] is not
    empty, never divides a zero breadth. *)
Theorem find_empty_iff_breadth_zero (d : Domain) (name : string) :
  find d name = [] ↔ breadth d name = 0.
Proof.
  rewrite find_nil.
  induction d as [v cs IH] using Domain_children_ind.
  rewrite find_stack_each, breadth_each_eq.
  destruct cs as [|c cs]; [split; reflexivity|].
  apply find_each_breadth; [simpl; lia|exact IH].
Qed.

Lemma find_each_inv (cs : list Domain) (child : string)
    (st : list string) :
  find_each cs child = Some st →
  ∃ c, c ∈ cs
       ∧ ((value c = child ∧ st = [value c])
          ∨ ∃ st', find_stack c child = Some st'
                   ∧ st = st' ++ [value c]).
Proof.
  induction cs as [|c cs IH]; simpl; [discriminate|].
  destruct (String.eqb_spec (value c) child) as [Heq|Hne].
  - intros [= <-]. exists c. split; [left|]. left. split; [exact Heq|reflexivity].
  - destruct (find_stack c child) as [st'|] eqn:Hc.
    + intros [= <-]. exists c. split; [left|]. right. eauto.
    + intros Hf. destruct (IH Hf) as (c' & Hin & Hc').
      exists c'. split; [right; exact Hin|exact Hc'].
Qed.

Lemma find_stack_path (d : Domain) (child : string) (st : list string) :
  find_stack d child = Some st → path_in d st ∧ head st = Some child.
Proof.
  revert st. induction d as [v cs IH] using Domain_children_ind.
  intros st. rewrite find_stack_each. intros Hf.
  destruct (find_each_inv _ _ _ Hf) as (c & Hin & [[Hv ->]|(st' & Hc & ->)]).
  - split; [apply path_child; exact Hin|]. simpl. congruence.
  - rewrite Forall_forall in IH.
    destruct (IH c Hin st' Hc) as [Hp Hh]. split.
    + apply path_below; [exact Hin|exact Hp].
    + destruct st'; [discriminate|exact Hh].
Qed.

(** X9. What [find] returns is a path of the hierarchy, from the node up:
    when [find(child)] is not empty its first element is [child] itself,
    every element names a child of the node that the next element names,
    and its last element names a child of the root. *)
Theorem find_is_path (d : Domain) (child : string) :
  find d child ≠ [] →
  path_in d (find d child) ∧ head (find d child) = Some child.
Proof.
  unfold find. destruct (find_stack d child) as [st|] eqn:Hf; simpl.
  - intros _. exact (find_stack_path d child st Hf).
  - congruence.
Qed.

Lemma find_each_app (l1 l2 : list Domain) (n : string) :
  find_each (l1 ++ l2) n
  = match find_each l1 n with
    | Some st => Some st
    | None => find_each l2 n
    end.
Proof.
  induction l1 as [|c l1 IH]; [reflexivity|]. simpl.
  destruct (String.eqb (value c) n); [reflexivity|].
  destruct (find_stack c n); [reflexivity|exact IH].
Qed.

Lemma find_each_None (cs : list Domain) (n : string) :
  find_each cs n = None
  ↔ Forall (λ c, value c ≠ n ∧ find_stack c n = None) cs.
Proof.
  induction cs as [|c cs IH]; simpl.
  - split; [constructor|reflexivity].
  - rewrite Forall_cons.
    destruct (String.eqb_spec (value c) n) as [Heq|Hne].
    + split; [discriminate|]. intros [[Hc _] _]. congruence.
    + destruct (find_stack c n) as [st|].
      * split; [discriminate|]. intros [[_ Hc] _]. discriminate.
      * rewrite IH. split; [intros Hall; split; [split|]; auto|].
        intros [_ Hall]. exact Hall.
Qed.

(** The search over the children after the child at [i] was replaced by
    one of the same name. *)
Lemma find_each_insert (cs : list Domain) (i : nat) (c c' : Domain)
    (n : string) :
  cs !! i = Some c → value c' = value c →
  find_each (<[i := c']> cs) n
  = match find_each (take i cs) n with
    | Some st => Some st
    | None =>
        if String.eqb (value c) n then Some [value c]
        else match find_stack c' n with
             | Some st => Some (st ++ [value c])
             | None => find_each (drop (S i) cs) n
             end
    end.
Proof.
  intros Hi Hv.
  rewrite <- (take_drop_middle cs i c Hi) at 1.
  assert (length (take i cs) = i) as Hlen.
  { rewrite length_take. apply lookup_lt_Some in Hi. lia. }
  replace i with (length (take i cs) + 0) at 1 by lia.
  rewrite insert_app_r. cbn [insert list_insert].
  rewrite find_each_app. simpl. rewrite Hv. reflexivity.
Qed.

Lemma find_each_same (cs : list Domain) (i : nat) (c : Domain)
    (n : string) :
  cs !! i = Some c →
  find_each cs n
  = match find_each (take i cs) n with
    | Some st => Some st
    | None =>
        if String.eqb (value c) n then Some [value c]
        else match find_stack c n with
             | Some st => Some (st ++ [value c])
             | None => find_each (drop (S i) cs) n
             end
    end.
Proof.
  intros Hi. rewrite <- (find_each_insert cs i c c n Hi eq_refl).
  rewrite list_insert_id by exact Hi. reflexivity.
Qed.

Lemma add_find_stack (x : string) (pre : list string) :
  ∀ (path : list string) (d : Domain),
    Forall2 (λ p q, strip p = Ok q) path (pre ++ [x]) →
    x ∉ pre →
    find_stack d x = None →
    ∃ d', add path d = Ok d'
      ∧ value d' = value d
      ∧ find_stack d' x = Some (reverse (pre ++ [x]))
      ∧ ∀ n, n ∉ pre ++ [x] → find_stack d' n = find_stack d n.
Proof.
  induction pre as [|q pre IH]; intros path [v cs] Hpath Hx Hnew.
  - apply Forall2_cons_inv_r in Hpath as (p & path' & Hp & Hnil & ->).
    apply Forall2_nil_inv_r in Hnil as ->.
    rewrite find_stack_each in Hnew.
    pose proof (proj1 (find_each_None _ _) Hnew) as Hall.
    simpl add. rewrite Hp, result_bind_ok. unfold get. cbn [children value].
    destruct (list_find (λ c, value c = x) cs) as [[i c]|] eqn:Hfind.
    { apply list_find_Some in Hfind as (Hi & Hv & _).
      rewrite Forall_forall in Hall.
      apply list_elem_of_lookup_2, Hall in Hi as [Hne _]. congruence. }
    cbn [children value]. unfold at_.
    rewrite lookup_app_r, Nat.sub_diag by lia. cbn [lookup list_lookup].
    rewrite !result_bind_ok.
    replace (<[length cs := mkDomain x []]> (cs ++ [mkDomain x []]))
      with (cs ++ [mkDomain x []]).
    2:{ rewrite <- (Nat.add_0_r (length cs)) at 1.
        rewrite insert_app_r. reflexivity. }
    eexists. split; [reflexivity|]. split; [reflexivity|].
    rewrite !find_stack_each. split.
    + rewrite find_each_app, Hnew. simpl. rewrite String.eqb_refl.
      reflexivity.
    + intros n Hn. rewrite !find_stack_each, find_each_app.
      destruct (find_each cs n); [reflexivity|]. simpl.
      destruct (String.eqb_spec x n) as [->|_]; [|reflexivity].
      exfalso. apply Hn. simpl. left.
  - apply Forall2_cons_inv_r in Hpath as (p & path' & Hp & Hrest & ->).
    apply not_elem_of_cons in Hx as [Hxq Hx].
    rewrite find_stack_each in Hnew.
    pose proof (proj1 (find_each_None _ _) Hnew) as Hall.
    simpl add. rewrite Hp, result_bind_ok. unfold get. cbn [children value].
    destruct (list_find (λ c, value c = q) cs) as [[i c]|] eqn:Hfind.
    + apply list_find_Some in Hfind as (Hi & Hv & _).
      cbn [children value]. unfold at_. rewrite Hi, result_bind_ok.
      assert (find_stack c x = None) as Hc.
      { rewrite Forall_forall in Hall.
        apply list_elem_of_lookup_2, Hall in Hi as [_ Hc]. exact Hc. }
      destruct (IH path' c Hrest Hx Hc) as (c' & Hadd & Hv' & Hfx & Hframe).
      rewrite Hadd, result_bind_ok.
      eexists. split; [reflexivity|]. split; [reflexivity|].
      rewrite !find_stack_each. split.
      * rewrite (find_each_insert cs i c c' x Hi Hv').
        assert (find_each (take i cs) x = None) as ->.
        { apply find_each_None, Forall_take, Hall. }
        rewrite Hv. destruct (String.eqb_spec q x); [congruence|].
        rewrite Hfx. cbn [app reverse]. rewrite reverse_cons.
        reflexivity.
      * intros n Hn. rewrite !find_stack_each.
        rewrite (find_each_insert cs i c c' n Hi Hv'),
          (find_each_same cs i c n Hi).
        rewrite Hframe; [reflexivity|].
        intros Hin. apply Hn. right. exact Hin.
    + cbn [children value]. unfold at_.
      rewrite lookup_app_r, Nat.sub_diag by lia. cbn [lookup list_lookup].
      rewrite result_bind_ok.
      destruct (IH path' (mkDomain q []) Hrest Hx eq_refl)
        as (c' & Hadd & Hv' & Hfx & Hframe).
      rewrite Hadd, result_bind_ok.
      replace (<[length cs := c']> (cs ++ [mkDomain q []]))
        with (cs ++ [c']).
      2:{ rewrite <- (Nat.add_0_r (length cs)) at 1.
          rewrite insert_app_r. reflexivity. }
      eexists. split; [reflexivity|]. split; [reflexivity|].
      rewrite !find_stack_each. split.
      * rewrite find_each_app, Hnew. simpl. rewrite Hv'. simpl.
        destruct (String.eqb_spec q x); [congruence|].
        rewrite Hfx. rewrite reverse_cons. reflexivity.
      * intros n Hn. rewrite !find_stack_each, find_each_app.
        destruct (find_each cs n); [reflexivity|]. simpl.
        rewrite Hv'. simpl.
        destruct (String.eqb_spec q n) as [->|_].
        { exfalso. apply Hn. left. }
        rewrite Hframe; [reflexivity|].
        intros Hin. apply Hn. right. exact Hin.
Qed.

(** X10. Insertion and lookup round trip: when the name [x] is new to the
    hierarchy and occurs on the path only as its last element, [add] of
    the path (whose elements [strip] accepts) succeeds, [find(x)] then
    returns the stripped path from [x] up, and [find] answers as before
    for every name that is not on the path. *)
Theorem add_then_find (x : string) (pre path : list string) (d : Domain) :
  Forall2 (λ p q, strip p = Ok q) path (pre ++ [x]) →
  x ∉ pre →
  find d x = [] →
  ∃ d', add path d = Ok d'
    ∧ find d' x = reverse (pre ++ [x])
    ∧ ∀ n, n ∉ pre ++ [x] → find d' n = find d n.
Proof.
  intros Hpath Hx Hnew. apply find_nil in Hnew.
  destruct (add_find_stack x pre path d Hpath Hx Hnew)
    as (d' & Hadd & _ & Hfx & Hframe).
  exists d'. split; [exact Hadd|]. unfold find. rewrite Hfx.
  split; [reflexivity|]. intros n Hn. rewrite (Hframe n Hn). reflexivity.
Qed.
End Hierarchies.

Lemma add_then_find_witness :
  ∃ d', domain.add ["White Collar"; " Nurse "] jobs = Ok d'
    ∧ domain.find d' "Nurse" = reverse (["White Collar"] ++ ["Nurse"])
    ∧ ∀ n, n ∉ ["White Collar"] ++ ["Nurse"] →
           domain.find d' n = domain.find jobs n.
Proof.
  apply (add_then_find "Nurse" ["White Collar"] ["White Collar"; " Nurse "]
           jobs).
  - repeat constructor.
  - apply (bool_decide_unpack _). vm_compute. exact I.
  - reflexivity.
Defined.

Lemma find_is_path_witness :
  path_in jobs ["Mechanic"; "Blue Collar"]
  ∧ head (domain.find jobs "Mechanic") = Some "Mechanic".
Proof.
  apply (find_is_path jobs "Mechanic"). discriminate.
Defined.

(** ** [metric::match_row] and [metric::k_anonymity] *)

Section Matching.
Import table metric.

Lemma compute_matches_loop (o : Table) (row : list string) (upto : nat)
    (rs acc v : list nat) :
  foldM (λ matches r,
           compare ← row_view o r;
           b ← row_matches o row compare (seq 0 (S upto));
           Ok (if b : bool then matches ++ [r] else matches))
        acc rs = Ok v →
  v = acc ++ filter (λ r, matching o row upto r = true) rs
  ∧ Forall (λ r, ∃ b, match_of o row upto r = Ok b) rs.
Proof.
  revert acc. induction rs as [|r rs IH]; intros acc.
  - intros [= <-]. rewrite app_nil_r. split; [reflexivity|constructor].
  - cbn [foldM]. unfold matching at 1, match_of.
    destruct (row_view o r) as [compare|] eqn:Hview; [|discriminate].
    rewrite result_bind_ok.
    destruct (row_matches o row compare _) as [b|] eqn:Hb; [|discriminate].
    rewrite !result_bind_ok. intros Hrun.
    destruct (IH _ Hrun) as [-> Hall]. split.
    + rewrite filter_cons. unfold matching, match_of.
      rewrite Hview, result_bind_ok, Hb.
      destruct b.
      * rewrite decide_True by reflexivity.
        rewrite <- app_assoc. reflexivity.
      * rewrite decide_False by discriminate. reflexivity.
    + constructor; [|exact Hall]. exists b. unfold match_of.
      rewrite Hview, result_bind_ok. exact Hb.
Qed.

Lemma increasing_filter_seq (P : nat → Prop) `{∀ x, Decision (P x)}
    (a n : nat) :
  increasing (filter P (seq a n)).
Proof.
  revert a. induction n as [|n IH]; intros a; [exact I|].
  cbn [seq]. rewrite filter_cons. destruct (decide (P a)); [|apply IH].
  split; [|apply IH].
  apply Forall_forall. intros y Hy%list_elem_of_filter.
  destruct Hy as [_ Hy%elem_of_seq]. lia.
Qed.

(** X11. What [match_row] computes when the cache does not answer: the
    rows of the original that match the given row on the columns up to
    [c], each once and in increasing order. *)
Theorem compute_matches_lists_matching_rows (o : Table)
    (row : list string) (upto : nat) (v : list nat) :
  compute_matches o row upto = Ok v →
  (∀ r, r ∈ v ↔ r < rows o ∧ match_of o row upto r = Ok true)
  ∧ increasing v.
Proof.
  unfold compute_matches. intros Hrun.
  destruct (compute_matches_loop o row upto _ _ _ Hrun) as [-> _].
  cbn [app]. split; [|apply increasing_filter_seq].
  intros r. rewrite list_elem_of_filter, elem_of_seq. unfold matching.
  split.
  - intros [Hm Hr]. split; [lia|].
    destruct (match_of o row upto r) as [[|]|]; done.
  - intros [Hr ->]. split; [reflexivity|lia].
Qed.
End Matching.

Section CacheTransparency.
Import table metric.

(** X12. The match cache is transparent: from a cache that holds matches
    against the same original only, [match_row] returns exactly what the
    computation without the cache returns, and it leaves such a cache,
    the cache switch and the score cache as they were. *)
Theorem match_row_cache_transparent (o : Table) (row : list string)
    (upto : nat) (st : state) :
  match_sound o st →
  S upto ≤ length row →
  (∀ v, (∃ st', match_row o row upto st = Ok (v, st'))
        ↔ compute_matches o row upto = Ok v)
  ∧ (∀ v st', match_row o row upto st = Ok (v, st') →
       match_sound o st'
       ∧ cache st' = cache st
       ∧ score_cache st' = score_cache st).
Proof.
  intros Hsound Hlen. split.
  - intros v. split.
    + intros [st' Hrun].
      apply (match_row_returns o row upto st st' v Hsound Hlen Hrun).
    + intros Hc.
      destruct (match_row_spec o row upto st v Hsound Hlen Hc)
        as (st' & Hrun & _). eauto.
  - intros v st' Hrun.
    destruct (match_row_returns o row upto st st' v Hsound Hlen Hrun)
      as [Hc _].
    destruct (match_row_spec o row upto st v Hsound Hlen Hc)
      as (st'' & Hrun' & Hs & Hcache & Hscore).
    rewrite Hrun in Hrun'. injection Hrun' as <-. done.
Qed.
End CacheTransparency.

Lemma match_row_cache_transparent_witness :
  (∃ st', metric.match_row s4_original ["*"] 0 (metric.initial true)
          = Ok ([0; 1; 2; 3], st')).
Proof.
  apply (match_row_cache_transparent s4_original ["*"] 0
           (metric.initial true)).
  - apply match_sound_initial.
  - simpl. lia.
  - vm_compute. reflexivity.
Defined.

Lemma compute_matches_lists_matching_rows_witness :
  (∀ r, r ∈ [2; 3] ↔
        r < table.rows s4_original
        ∧ match_of s4_original ["F"] 0 r = Ok true)
  ∧ increasing [2; 3].
Proof.
  apply (compute_matches_lists_matching_rows s4_original ["F"] 0).
  vm_compute. reflexivity.
Defined.

Section MutationsMatch.
Import table metric.

Lemma stoi_atoi (s : string) (z : Z) : stoi s = Ok z → atoi s = z.
Proof.
  unfold stoi, atoi. destruct (strtol s) as [z'|]; [|discriminate].
  destruct (_ && _); [|discriminate]. intros [= <-]. reflexivity.
Qed.

Lemma Range_of_string_bracket (s : string) (r : shared.Range) :
  shared.Range_of_string s = Ok r → starts_with "[" s = true.
Proof.
  unfold shared.Range_of_string.
  destruct (starts_with "[" s); [reflexivity|]. discriminate.
Qed.

Lemma mutations_base_in (cx mut : string) (g : domain.Domain) :
  mut ∈ (if negb (domain.empty g) then ["*"] ++ domain.find g cx
         else if negb (String.eqb cx "") then ["*"] ++ [cx] else ["*"]) →
  mut = "*"
  ∨ (domain.empty g = false ∧ mut ∈ domain.find g cx)
  ∨ (domain.empty g = true ∧ mut = cx).
Proof.
  destruct (domain.empty g); cbn [negb].
  - destruct (String.eqb cx ""); cbn [negb app].
    + intros Hin%list_elem_of_singleton. left. exact Hin.
    + rewrite elem_of_cons, list_elem_of_singleton.
      intros [->| ->]; [left|right; right]; done.
  - cbn [app]. rewrite elem_of_cons. intros [->|Hin]; [left; done|].
    right. left. done.
Qed.

(** X13. A mutated cell still matches the cell it came from: for a cell
    [cx] of column [x] of the original, every candidate that [mutations]
    offers is accepted by the cell test of [match_row] against [cx]. For
    an integer column this needs a column without hierarchy, a cell that
    is a number and not itself a range, and ranges whose text reads back
    as the range. *)
Theorem mutation_matches_source (o : Table) (x : nat) (col : column)
    (cx mut : string) (l : list string) :
  get_column o x = Ok col →
  mutations cx col = Ok l →
  mut ∈ l →
  (t col = integer →
   domain.empty (graph col) = true
   ∧ starts_with "[" cx = false
   ∧ Forall (λ r, shared.Range_of_string (shared.str r) = Ok r)
            (ranges col)) →
  cell_matches o x mut cx = Ok true.
Proof.
  intros Hcol Hmut Hin Hint. unfold cell_matches.
  destruct (String.eqb_spec mut cx) as [|Hne]; [reflexivity|].
  destruct (String.eqb_spec mut "*") as [|Hstar]; [reflexivity|].
  cbn [orb]. rewrite Hcol, result_bind_ok.
  destruct (bool_decide (sensitivity col = quasi)); [|reflexivity].
  cbn [negb]. unfold mutations in Hmut. cbn zeta in Hmut.
  destruct (t col) eqn:Ht.
  - injection Hmut as <-.
    apply mutations_base_in in Hin as [?|[[Hg Hin]|[_ ?]]]; try congruence.
    rewrite Hg. cbn [negb].
    destruct (bool_decide (cx ∈ domain.find (graph col) mut));
      [reflexivity|].
    rewrite bool_decide_eq_true_2 by exact Hin. reflexivity.
  - destruct (Hint eq_refl) as (Hg & Hcx & Hread).
    rewrite Hcx in Hmut.
    destruct (stoi cx) as [number|] eqn:Hnum; [|discriminate].
    rewrite result_bind_ok in Hmut. injection Hmut as <-.
    apply elem_of_app in Hin as [Hin|Hin].
    { apply mutations_base_in in Hin as [?|[[Hg' _]|[_ ?]]]; congruence. }
    apply list_elem_of_fmap in Hin as (r & -> & Hr).
    apply list_elem_of_filter in Hr as [Hval Hr].
    rewrite Forall_forall in Hread. specialize (Hread r Hr).
    rewrite Hg. cbn [negb].
    rewrite bool_decide_eq_true_2 by reflexivity.
    rewrite (Range_of_string_bracket _ _ Hread). cbn [andb].
    rewrite Hread, result_bind_ok, (stoi_atoi _ _ Hnum).
    f_equal. apply Is_true_true, Hval.
Qed.
End MutationsMatch.

Lemma mutation_matches_source_witness :
  metric.cell_matches ages 0 "[25-40]" "25" = Ok true.
Proof.
  eapply (mutation_matches_source ages 0 _ "25" "[25-40]").
  - reflexivity.
  - vm_compute. reflexivity.
  - apply (bool_decide_unpack _). vm_compute. exact I.
  - intros _. split_and!; [reflexivity|reflexivity|].
    repeat constructor.
Defined.

Section Anonymity.
Import table metric.

Lemma tree_sizes (Ms : list (list nat)) (k : nat) :
  forallb (λ solutions : gset nat, negb (size solutions <? k))
          (k_tree Ms [] (replicate (length Ms) ∅)) = true
  ↔ ∀ r, r < length Ms →
         k ≤ size (set_at (k_tree Ms [] (replicate (length Ms) ∅)) r).
Proof.
  set (tree := k_tree Ms [] (replicate (length Ms) ∅)).
  rewrite forallb_forall. split.
  - intros Hf r Hr. unfold set_at.
    destruct (tree !! r) as [K|] eqn:HK.
    + apply list_elem_of_lookup_2, list_elem_of_In, Hf in HK.
      apply negb_true_iff, Nat.ltb_ge in HK. exact HK.
    + apply lookup_ge_None in HK. unfold tree in HK.
      rewrite k_tree_length in HK. lia.
  - intros Hk K HK. apply list_elem_of_In, list_elem_of_lookup in HK
      as [r HK].
    apply negb_true_iff, Nat.ltb_ge.
    pose proof (lookup_lt_Some _ _ _ HK) as Hr.
    unfold tree in Hr. rewrite k_tree_length in Hr.
    specialize (Hk r Hr). unfold set_at in Hk. rewrite HK in Hk.
    exact Hk.
Qed.

(** [k_anonymity] on match sets that exist. *)
Lemma k_anonymity_sizes (w o : Table) (k : nat) (upto : option nat)
    (Ms : list (list nat)) (st : state) :
  match_sound o st →
  bound w upto < columns w →
  match_sets w o (bound w upto) = Ok Ms →
  ∃ b st', k_anonymity w o k upto st = Ok (b, st')
    ∧ match_sound o st'
    ∧ (b = true ↔
       Forall (λ m, k ≤ length m) Ms
       ∧ ∀ r, r < length Ms →
           k ≤ size (set_at (k_tree Ms [] (replicate (length Ms) ∅)) r)).
Proof.
  intros Hsound Hupto HMs. unfold match_sets in HMs.
  destruct (gather_spec w o k (bound w upto) (seq 0 (rows w)) Hupto
              [] Ms st Hsound HMs) as (st' & Hrun & Hs' & _ & _).
  unfold k_anonymity. rewrite M_bind_run, Hrun.
  destruct (decide (Forall (λ m, k ≤ length m) Ms)) as [Hall|Hnall].
  - rewrite M_ret_run. eexists _, st'. split; [reflexivity|].
    split; [exact Hs'|]. cbn [app]. rewrite tree_sizes.
    split; [intros Hk; split; assumption|intros [_ Hk]; exact Hk].
  - rewrite M_ret_run. eexists _, st'. split; [reflexivity|].
    split; [exact Hs'|]. split; [discriminate|].
    intros [Hall _]. contradiction.
Qed.

(** The match sets behind a run of [gather] that was not cut short. *)
Lemma gather_inv (w o : Table) (k upto : nat) (rs : list nat) :
  upto < columns w →
  ∀ (acc Ms : list (list nat)) (st st' : state),
    match_sound o st →
    gather w o k upto rs acc st = Ok (Some Ms, st') →
    ∃ Ms', mapM (λ r, row ← row_view w r; compute_matches o row upto) rs
           = Ok Ms'
           ∧ Ms = acc ++ Ms'
           ∧ Forall (λ m, k ≤ length m) Ms'.
Proof.
  intros Hupto. induction rs as [|r rs IH]; intros acc Ms st st' Hsound.
  - intros [= <- <-]. exists []. rewrite app_nil_r.
    split; [reflexivity|]. split; [reflexivity|constructor].
  - cbn [gather]. intros (row & st0 & Hrow & Hstep)%M_bind_inv.
    unfold lift in Hrow.
    destruct (row_view w r) as [row'|] eqn:Hview; [|discriminate].
    injection Hrow as <- <-.
    apply M_bind_inv in Hstep as (mt & st1 & Hmatch & Hstep).
    pose proof (row_view_length w r row' Hview) as Hlen.
    destruct (match_row_returns o row' upto st st1 mt Hsound
                ltac:(lia) Hmatch) as [Hmt Hs1].
    destruct (decide (length mt < k)).
    + apply M_bind_inv in Hstep as (u & st2 & Hmod & Hret).
      discriminate.
    + destruct (IH _ _ _ _ Hs1 Hstep) as (Ms' & HMs' & -> & Hall).
      exists (mt :: Ms'). split.
      * rewrite (mapM_result_cons _ _ _ (mt :: Ms')).
        exists mt, Ms'. rewrite Hview, result_bind_ok. done.
      * split; [rewrite <- app_assoc; reflexivity|].
        constructor; [lia|exact Hall].
Qed.

Lemma k_anonymity_true_inv (w o : Table) (k : nat) (upto : option nat)
    (st st' : state) :
  match_sound o st →
  bound w upto < columns w →
  k_anonymity w o k upto st = Ok (true, st') →
  ∃ Ms, match_sets w o (bound w upto) = Ok Ms
        ∧ Forall (λ m, k ≤ length m) Ms
        ∧ ∀ r, r < length Ms →
            k ≤ size (set_at (k_tree Ms [] (replicate (length Ms) ∅)) r).
Proof.
  intros Hsound Hupto. unfold k_anonymity.
  intros (res & st1 & Hg & Hret)%M_bind_inv.
  destruct res as [Ms|]; [|discriminate].
  destruct (gather_inv w o k _ _ Hupto _ _ _ _ Hsound Hg)
    as (Ms' & HMs & -> & Hall).
  cbn [app] in *. exists Ms'. split; [exact HMs|]. split; [exact Hall|].
  injection Hret as Hf _. apply tree_sizes, Hf.
Qed.

(** X14. [k_anonymity] is monotone in [k]: a table that is found
    k-anonymous is found k'-anonymous for every smaller k', whatever the
    match cache has collected against the same original in between. *)
Theorem k_anonymity_monotone (w o : Table) (k k' : nat)
    (upto : option nat) (st st1 st2 : state) :
  match_sound o st →
  match_sound o st2 →
  bound w upto < columns w →
  k_anonymity w o k upto st = Ok (true, st1) →
  k' ≤ k →
  ∃ st3, k_anonymity w o k' upto st2 = Ok (true, st3).
Proof.
  intros Hsound Hsound2 Hupto Hrun Hk.
  destruct (k_anonymity_true_inv w o k upto st st1 Hsound Hupto Hrun)
    as (Ms & HMs & Hall & Hsizes).
  destruct (k_anonymity_sizes w o k' upto Ms st2 Hsound2 Hupto HMs)
    as (b & st3 & Hrun' & _ & Hb).
  exists st3. rewrite Hrun'. f_equal. f_equal. apply Hb. split.
  - eapply Forall_impl; [exact Hall|]. intros m Hm. simpl in *. lia.
  - intros r Hr. specialize (Hsizes r Hr). lia.
Qed.

(** X15. Nothing is k-anonymous against fewer than k originals: when
    [k_anonymity] returns true for a table that has rows, the original
    has at least [k] rows. *)
Theorem k_anonymous_needs_k_rows (w o : Table) (k : nat)
    (upto : option nat) (st st' : state) :
  match_sound o st →
  bound w upto < columns w →
  0 < rows w →
  k_anonymity w o k upto st = Ok (true, st') →
  k ≤ rows o.
Proof.
  intros Hsound Hupto Hrows Hrun.
  destruct (k_anonymity_true_inv w o k upto st st' Hsound Hupto Hrun)
    as (Ms & HMs & Hall & _).
  unfold match_sets in HMs.
  destruct (rows w) as [|n]; [lia|]. cbn [seq] in HMs.
  apply mapM_result_cons in HMs as (m & Ms' & Hm & _ & ->).
  apply Forall_cons_1 in Hall as [Hk _].
  destruct (row_view w 0) as [row|]; [|discriminate].
  rewrite result_bind_ok in Hm. unfold compute_matches in Hm.
  destruct (compute_matches_loop o row _ _ _ _ Hm) as [-> _].
  cbn [app] in Hk.
  pose proof (length_filter (λ r, matching o row (bound w upto) r = true)
                (seq 0 (rows o))) as Hlen.
  rewrite length_seq in Hlen. lia.
Qed.

Lemma row_matches_suppressed (o : Table) (row compare : list string)
    (upto : nat) (xs : list nat) :
  suppressed o row upto →
  upto < length compare →
  Forall (λ x, x ≤ upto) xs →
  row_matches o row compare xs = Ok true.
Proof.
  intros Hsup Hlen. induction 1 as [|x xs Hx _ IH]; [reflexivity|].
  cbn [row_matches]. unfold at_.
  destruct (Hsup x Hx) as (rx & -> & Hrx).
  destruct (lookup_lt_is_Some_2 compare x ltac:(lia)) as [cx ->].
  rewrite !result_bind_ok. unfold cell_matches.
  destruct Hrx as [->|(col & Hcol & Hq)].
  - rewrite orb_true_r, result_bind_ok. exact IH.
  - destruct (String.eqb rx cx || String.eqb rx "*").
    + rewrite result_bind_ok. exact IH.
    + rewrite Hcol, result_bind_ok.
      rewrite bool_decide_eq_false_2 by exact Hq. cbn [negb].
      rewrite result_bind_ok. exact IH.
Qed.

Lemma compute_matches_all (o : Table) (row : list string) (upto : nat)
    (rs acc : list nat) :
  Forall (λ r, match_of o row upto r = Ok true) rs →
  foldM (λ matches r,
           compare ← row_view o r;
           b ← row_matches o row compare (seq 0 (S upto));
           Ok (if b : bool then matches ++ [r] else matches))
        acc rs = Ok (acc ++ rs).
Proof.
  intros Hall. revert acc.
  induction Hall as [|r rs Hr _ IH]; intros acc.
  - rewrite app_nil_r. reflexivity.
  - cbn [foldM]. unfold match_of in Hr.
    destruct (row_view o r) as [compare|]; [|discriminate].
    rewrite result_bind_ok in Hr. rewrite result_bind_ok, Hr.
    rewrite !result_bind_ok. rewrite IH.
    rewrite <- app_assoc. reflexivity.
Qed.

Lemma mapM_result_const {A B} (f : A → result B) (l : list A) (y : B) :
  Forall (λ x, f x = Ok y) l → mapM f l = Ok (replicate (length l) y).
Proof.
  induction 1 as [|x l Hx _ IH]; [reflexivity|].
  apply mapM_result_cons. exists y, (replicate (length l) y). done.
Qed.

(** Every original can be given to every row when all rows match all
    originals: rotate the identity. *)
Lemma assigned_full (n r x : nat) :
  r < n → x < n → assigned (replicate n (seq 0 n)) r x.
Proof.
  intros Hr Hx.
  set (d := if decide (r ≤ x) then x - r else n - (r - x)).
  assert (d ≤ n) as Hd by (unfold d; destruct (decide (r ≤ x)); lia).
  set (σ := drop d (seq 0 n) ++ take d (seq 0 n)).
  assert (σ ≡ₚ seq 0 n) as Hperm.
  { unfold σ. rewrite Permutation_app_comm, take_drop. reflexivity. }
  exists σ. split; [split|].
  - apply Forall2_same_length_lookup_2.
    + rewrite Hperm, length_seq, length_replicate. reflexivity.
    + intros i a m Ha Hm. apply lookup_replicate in Hm as [-> _].
      rewrite <- Hperm. exact (list_elem_of_lookup_2 _ _ _ Ha).
  - rewrite Hperm. apply NoDup_seq.
  - unfold σ, d. destruct (decide (r ≤ x)).
    + rewrite lookup_app_l by (rewrite length_drop, length_seq; lia).
      rewrite lookup_drop, lookup_seq_lt by lia. f_equal. lia.
    + rewrite lookup_app_r by (rewrite length_drop, length_seq; lia).
      rewrite length_drop, length_seq.
      rewrite lookup_take_lt by lia.
      rewrite lookup_seq_lt by lia. f_equal. lia.
Qed.

(** X16. Suppression always works: a table with as many rows as the
    original, whose cells in the quasi columns up to [c] are all
    suppressed, is found k-anonymous exactly when the original has at
    least [k] rows (or none at all). *)
Theorem suppressed_table_k_anonymous (w o : Table) (k : nat)
    (upto : option nat) (st : state) :
  match_sound o st →
  bound w upto < columns w →
  bound w upto < columns o →
  rows w = rows o →
  (∀ r, r < rows o → ∃ compare, row_view o r = Ok compare) →
  (∀ r, r < rows w →
     ∃ row, row_view w r = Ok row ∧ suppressed o row (bound w upto)) →
  ∃ b st', k_anonymity w o k upto st = Ok (b, st')
    ∧ (b = true ↔ rows o = 0 ∨ k ≤ rows o).
Proof.
  intros Hsound Hupto Hupto' Hrows Ho Hw.
  set (c := bound w upto) in *. set (n := rows o) in *.
  assert (match_sets w o c = Ok (replicate n (seq 0 n))) as HMs.
  { unfold match_sets. rewrite Hrows.
    replace (replicate n (seq 0 n))
      with (replicate (length (seq 0 n)) (seq 0 n))
      by (rewrite length_seq; reflexivity).
    apply mapM_result_const.
    apply Forall_forall. intros r Hr%elem_of_seq.
    destruct (Hw r ltac:(lia)) as (row & -> & Hsup).
    rewrite result_bind_ok. unfold compute_matches.
    fold n. rewrite compute_matches_all; [reflexivity|].
    apply Forall_forall. intros r' Hr'%elem_of_seq. unfold match_of.
    destruct (Ho r' ltac:(lia)) as [compare Hview]. rewrite Hview.
    rewrite result_bind_ok.
    apply row_matches_suppressed with (upto := c); [exact Hsup| |].
    - rewrite (row_view_length o r' compare Hview). exact Hupto'.
    - apply Forall_forall. intros x Hx%elem_of_seq. lia. }
  destruct (k_anonymity_sizes w o k upto _ st Hsound Hupto HMs)
    as (b & st' & Hrun & _ & Hb).
  exists b, st'. split; [exact Hrun|]. rewrite Hb.
  split.
  - intros [Hall _]. destruct n as [|n']; [left; reflexivity|right].
    cbn [replicate] in Hall. apply Forall_cons_1 in Hall as [Hk _].
    rewrite length_seq in Hk. exact Hk.
  - intros Hk. split.
    + apply Forall_forall. intros m [-> Hn]%elem_of_replicate.
      rewrite length_seq. lia.
    + intros r Hr. rewrite length_replicate in Hr.
      apply enough_assigned. exists (seq 0 n).
      split; [apply NoDup_seq|]. split; [|rewrite length_seq; lia].
      intros x Hx%elem_of_seq. apply assigned_full; lia.
Qed.
End Anonymity.

Lemma k_anonymity_monotone_witness :
  ∃ st3, metric.k_anonymity six_suppressed six_original 2 None
           (metric.initial false) = Ok (true, st3).
Proof.
  eapply (k_anonymity_monotone six_suppressed six_original 6 2 None
            (metric.initial true)).
  - apply match_sound_initial.
  - apply match_sound_initial.
  - vm_compute. lia.
  - vm_compute. reflexivity.
  - lia.
Defined.

Lemma k_anonymous_needs_k_rows_witness : 6 ≤ table.rows six_original.
Proof.
  eapply (k_anonymous_needs_k_rows six_suppressed six_original 6 None
            (metric.initial true)).
  - apply match_sound_initial.
  - vm_compute. lia.
  - vm_compute. lia.
  - vm_compute. reflexivity.
Defined.

Lemma suppressed_table_k_anonymous_witness :
  ∃ b st', metric.k_anonymity six_suppressed six_original 6 None
             (metric.initial true) = Ok (b, st')
    ∧ (b = true ↔ table.rows six_original = 0 ∨ 6 ≤ table.rows six_original).
Proof.
  apply (suppressed_table_k_anonymous six_suppressed six_original 6 None
           (metric.initial true)).
  - apply match_sound_initial.
  - vm_compute. lia.
  - vm_compute. lia.
  - reflexivity.
  - intros r Hr. change (table.rows six_original) with 6 in Hr.
    do 6 (destruct r as [|r]; [eexists; vm_compute; reflexivity|]). lia.
  - intros r Hr. change (table.rows six_suppressed) with 6 in Hr.
    do 6 (destruct r as [|r];
          [exists ["*"]; split; [vm_compute; reflexivity|];
           intros x Hx; change (metric.bound six_suppressed None) with 0 in Hx;
           assert (x = 0) as -> by lia; exists "*"; split; [reflexivity|];
           left; reflexivity|]).
    lia.
Defined.

(** ** The scores of an unchanged table *)

Section ZeroScores.
Import table metric.

Lemma foldM_result_prefix {A B} (I : list A → B → Prop)
    (f : B → A → result B) (l : list A) (b0 b' : B) :
  I [] b0 →
  (∀ pre a b b1, I pre b → f b a = Ok b1 → I (pre ++ [a]) b1) →
  foldM f b0 l = Ok b' → I l b'.
Proof.
  intros H0 Hstep.
  assert (∀ pre b, I pre b → foldM f b l = Ok b' → I (pre ++ l) b')
    as Hgen.
  { induction l as [|a l IH]; intros pre b Hb.
    - intros [= <-]. rewrite app_nil_r. exact Hb.
    - cbn [foldM]. destruct (f b a) as [b1|] eqn:Hf; [|discriminate].
      rewrite result_bind_ok. intros Hrun.
      rewrite (cons_middle a pre l), app_assoc.
      exact (IH _ _ (Hstep _ _ _ _ Hb Hf) Hrun). }
  exact (Hgen [] b0 H0).
Qed.

Lemma mapM_result_lookup {A B} (f : A → result B) (l : list A)
    (ys : list B) (i : nat) (a : A) :
  mapM f l = Ok ys → l !! i = Some a → at_ ys i = f a.
Proof.
  revert ys i. induction l as [|x l IH]; intros ys i; [discriminate|].
  intros (y & ys' & Hy & Hys & ->)%mapM_result_cons.
  destruct i as [|i]; simpl.
  - intros [= <-]. unfold at_. simpl. congruence.
  - intros Hi. exact (IH _ _ Hys Hi).
Qed.

(** The cells of a row view are the cells of the table. *)
Lemma row_view_cell (w : Table) (r : nat) (row : list string) (col : nat) :
  row_view w r = Ok row → col < columns w → at_ row col = cell w r col.
Proof.
  intros Hview Hcol. unfold row_view in Hview.
  apply (mapM_result_lookup _ _ _ col col Hview).
  apply lookup_seq_lt. exact Hcol.
Qed.

Lemma md_row_zero (w o : Table) (r : nat) (row : list string) (s : float) :
  map_Forall (λ _ col, (0 < weight col)%Q) (tdata w) →
  md_row w o r row = Ok s →
  ∃ q, s = Fin q ∧ (0 <= q)%Q
       ∧ ((q == 0)%Q ↔
          Forall (λ col, cell o r col = at_ row col) (seq 0 (columns w))).
Proof.
  intros Hw. unfold md_row.
  apply (foldM_result_prefix
           (λ pre s, ∃ q, s = Fin q ∧ (0 <= q)%Q
              ∧ ((q == 0)%Q ↔
                 Forall (λ col, cell o r col = at_ row col) pre))).
  - exists 0%Q. split; [reflexivity|]. split; [lra|].
    split; [constructor|reflexivity].
  - intros pre col b b1 (q & -> & Hq & Hiff).
    destruct (cell o r col) as [original|] eqn:Hcell; [|discriminate].
    rewrite result_bind_ok.
    destruct (at_ row col) as [mod_|] eqn:Hat; [|discriminate].
    rewrite result_bind_ok.
    destruct (String.eqb_spec original mod_) as [->|Hne]; cbn [negb].
    + intros [= <-]. exists q. split; [reflexivity|]. split; [exact Hq|].
      rewrite Forall_app, Forall_singleton, Hcell, Hat, <- Hiff.
      split; [intros ?; split; done|intros [? _]; done].
    + destruct (get_column w col) as [column|] eqn:Hc; [|discriminate].
      rewrite result_bind_ok. intros [= <-].
      assert (0 < weight column)%Q as Hweight.
      { revert Hc. unfold get_column, index.
        destruct (at_ (header w) col) as [h|]; [|discriminate].
        rewrite result_bind_ok.
        destruct (tdata w !! h) as [c0|] eqn:Hh; [|discriminate].
        intros [= <-]. exact (Hw h c0 Hh). }
      eexists. split; [reflexivity|]. split; [lra|].
      split; [intros Hz; exfalso; lra|].
      rewrite Forall_app, Forall_singleton, Hcell, Hat.
      intros [_ [= Heq]]. contradiction.
Qed.

(** X17. Under minimal distortion with positive weights and the cache
    disabled, the score is zero exactly for the unchanged table: a
    returned score is 0 if and only if every cell of the working table is
    the cell of the original. *)
Theorem minimal_distortion_zero_iff_unchanged (w o : Table) (st : state)
    (v : float) :
  cache st = false →
  map_Forall (λ _ col, (0 < weight col)%Q) (tdata w) →
  eval (minimal_distortion w o) st = Ok v →
  (feq v (Fin 0) ↔
   ∀ r col, r < rows w → col < columns w → cell o r col = cell w r col).
Proof.
  intros Hoff Hw. unfold minimal_distortion.
  rewrite (eval_score_rows_off _ w st Hoff). unfold score_rows_uncached.
  intros Hrun.
  assert (∃ q, v = Fin q ∧ (0 <= q)%Q
               ∧ ((q == 0)%Q ↔
                  Forall (λ r, ∀ col, col < columns w →
                                 cell o r col = cell w r col)
                         (seq 0 (rows w)))) as (q & -> & _ & Hiff).
  { revert Hrun.
    apply (foldM_result_prefix
             (λ pre s, ∃ q, s = Fin q ∧ (0 <= q)%Q
                ∧ ((q == 0)%Q ↔
                   Forall (λ r, ∀ col, col < columns w →
                                  cell o r col = cell w r col) pre))).
    - exists 0%Q. split; [reflexivity|]. split; [lra|].
      split; [constructor|reflexivity].
    - intros pre r b b1 (q & -> & Hq & Hiff).
      destruct (row_view w r) as [row|] eqn:Hview; [|discriminate].
      rewrite result_bind_ok.
      destruct (md_row w o r row) as [rs|] eqn:Hrow; [|discriminate].
      rewrite result_bind_ok. intros [= <-].
      destruct (md_row_zero w o r row rs Hw Hrow) as (q' & -> & Hq' & Hrs).
      eexists. split; [reflexivity|]. split; [lra|].
      rewrite Forall_app, Forall_singleton, <- Hiff.
      assert (Forall (λ col, cell o r col = at_ row col)
                     (seq 0 (columns w))
              ↔ ∀ col, col < columns w → cell o r col = cell w r col)
        as <-.
      { rewrite Forall_forall. split.
        - intros Hall col Hcol.
          rewrite <- (row_view_cell w r row col Hview Hcol).
          apply Hall, elem_of_seq. lia.
        - intros Hall col Hcol%elem_of_seq.
          rewrite (row_view_cell w r row col Hview) by lia.
          apply Hall. lia. }
      rewrite <- Hrs. split; [intros ?; split; lra|intros [? ?]; lra]. }
  cbn [feq]. rewrite Hiff, Forall_forall. split.
  - intros Hall r col Hr Hcol. apply Hall; [apply elem_of_seq; lia|done].
  - intros Hall r Hr%elem_of_seq col Hcol. apply Hall; [lia|done].
Qed.

Lemma foldM_result_inv_in {A B} (P : B → Prop) (f : B → A → result B)
    (l : list A) :
  (∀ b a b', a ∈ l → P b → f b a = Ok b' → P b') →
  ∀ b b', P b → foldM f b l = Ok b' → P b'.
Proof.
  induction l as [|a l IH]; intros Hstep b b' Hb.
  - intros [= <-]. exact Hb.
  - cbn [foldM]. destruct (f b a) as [b1|] eqn:Hf; [|discriminate].
    rewrite result_bind_ok. apply IH.
    + intros b2 a2 b3 Hin. apply Hstep. right. exact Hin.
    + apply (Hstep b a b1); [left|exact Hb|exact Hf].
Qed.

(** X18. An unchanged table costs nothing under the certainty score
    either: with the cache disabled, when every cell of the working table
    is the cell of the original, a returned certainty score is 0. *)
Theorem certainty_zero_when_unchanged (w o : Table) (st : state)
    (v : float) :
  cache st = false →
  (∀ r col, r < rows w → col < columns w →
            cell o r col = cell w r col) →
  eval (certainty_score w o) st = Ok v →
  feq v (Fin 0).
Proof.
  intros Hoff Hsame. unfold certainty_score.
  rewrite (eval_score_rows_off _ w st Hoff). unfold score_rows_uncached.
  apply (foldM_result_inv_in (λ s, feq s (Fin 0))); [|reflexivity].
  intros b r b' Hr%elem_of_seq Hb.
  destruct (row_view w r) as [row|] eqn:Hview; [|discriminate].
  rewrite result_bind_ok.
  destruct (certainty_row w o r row) as [rs|] eqn:Hrow; [|discriminate].
  rewrite result_bind_ok. intros [= <-].
  assert (rs = Fin 0) as ->.
  { revert Hrow. unfold certainty_row.
    apply (foldM_result_inv_in (λ s, s = Fin 0)); [|reflexivity].
    intros s col s' Hcol%elem_of_seq ->.
    rewrite (Hsame r col) by lia.
    rewrite <- (row_view_cell w r row col Hview) by lia.
    destruct (at_ row col) as [mod_|]; [|discriminate].
    rewrite !result_bind_ok. unfold certainty_cell.
    rewrite String.eqb_refl, result_bind_ok. congruence. }
  destruct b as [q| | |]; try contradiction.
  cbn [fadd feq] in *. lra.
Qed.
End ZeroScores.

Lemma minimal_distortion_zero_iff_unchanged_witness :
  feq (Fin 0) (Fin 0)
  ↔ ∀ r col, r < table.rows six_original →
             col < table.columns six_original →
             table.cell six_original r col = table.cell six_original r col.
Proof.
  apply (minimal_distortion_zero_iff_unchanged six_original six_original
           (metric.initial false) (Fin 0)).
  - reflexivity.
  - apply map_Forall_singleton. reflexivity.
  - vm_compute. reflexivity.
Defined.

Lemma certainty_zero_when_unchanged_witness : feq (Fin 0) (Fin 0).
Proof.
  apply (certainty_zero_when_unchanged six_original six_original
           (metric.initial false) (Fin 0)).
  - reflexivity.
  - intros r col _ _. reflexivity.
  - vm_compute. reflexivity.
Defined.

(** ** [table::Table]: cells *)

Section Cells.
Import table.

Lemma set_cell_inv (tb tb' : Table) (r c : nat) (v : string) :
  set_cell tb r c v = Ok tb' →
  ∃ h col, header tb !! c = Some h
           ∧ tdata tb !! h = Some col
           ∧ r < length (data col)
           ∧ tb' = mkTable (header tb) (rows tb)
                     (<[h := with_data col (<[r := v]> (data col))]>
                        (tdata tb)).
Proof.
  unfold set_cell, at_.
  destruct (header tb !! c) as [h|] eqn:Hh; [|discriminate].
  rewrite result_bind_ok.
  destruct (tdata tb !! h) as [col|] eqn:Hcol; [|discriminate].
  destruct (decide (r < length (data col))); [|discriminate].
  intros [= <-]. exists h, col. done.
Qed.

Lemma cell_as_lookup (tb : Table) (r c : nat) :
  cell tb r c
  = match header tb !! c with
    | Some h =>
        match tdata tb !! h with
        | Some col => at_ (data col) r
        | None => Err OutOfBounds
        end
    | None => Err OutOfBounds
    end.
Proof.
  unfold cell, index, at_.
  destruct (header tb !! c) as [h|]; [|reflexivity].
  rewrite result_bind_ok.
  destruct (tdata tb !! h) as [col|]; reflexivity.
Qed.

(** X19. Writing a cell and reading cells: after [index(r, c) = v] the
    cell reads [v], and so does the cell of row [r] in every column whose
    header name is the name of column [c], because the columns are kept
    by name; every other cell, the header and the row count are as they
    were. With a header without repeated names only the cell written has
    changed. *)
Theorem set_cell_then_cell (tb tb' : Table) (r c : nat) (v : string) :
  set_cell tb r c v = Ok tb' →
  header tb' = header tb
  ∧ rows tb' = rows tb
  ∧ (∀ r' c',
       cell tb' r' c'
       = if decide (r' = r ∧ header tb !! c' = header tb !! c)
         then Ok v else cell tb r' c')
  ∧ (NoDup (header tb) →
     ∀ r' c', (r', c') ≠ (r, c) → cell tb' r' c' = cell tb r' c').
Proof.
  intros (h & col & Hh & Hcol & Hr & ->)%set_cell_inv.
  split; [reflexivity|]. split; [reflexivity|].
  assert (∀ r' c',
    cell (mkTable (header tb) (rows tb)
            (<[h := with_data col (<[r := v]> (data col))]> (tdata tb)))
         r' c'
    = if decide (r' = r ∧ header tb !! c' = header tb !! c)
      then Ok v else cell tb r' c') as Hcell.
  { intros r' c'. rewrite !cell_as_lookup. cbn [header tdata].
    rewrite Hh. destruct (header tb !! c') as [h'|] eqn:Hh'.
    - destruct (decide (h' = h)) as [->|Hne].
      + rewrite lookup_insert_eq, Hcol. cbn [data with_data].
        unfold at_. destruct (decide (r' = r)) as [->|Hr'].
        * rewrite decide_True by done.
          rewrite list_lookup_insert_eq by exact Hr. reflexivity.
        * rewrite decide_False by (intros [? _]; done).
          rewrite list_lookup_insert_ne by done. reflexivity.
      + rewrite lookup_insert_ne by done.
        rewrite decide_False by (intros [_ [= ?]]; done). reflexivity.
    - rewrite decide_False by (intros [_ ?]; done). reflexivity. }
  split; [exact Hcell|].
  intros Hnd r' c' Hne. rewrite Hcell.
  destruct (decide _) as [[-> Heq]|]; [|reflexivity].
  exfalso. apply Hne. f_equal.
  rewrite Hh in Heq. exact (NoDup_lookup _ _ _ _ Hnd Heq Hh).
Qed.

(** Writing back what the cell held restores the table. *)
Lemma set_cell_restore (tb tb' : Table) (r c : nat) (v copy : string) :
  cell tb r c = Ok copy →
  set_cell tb r c v = Ok tb' →
  set_cell tb' r c copy = Ok tb.
Proof.
  intros Hcopy (h & col & Hh & Hcol & Hr & ->)%set_cell_inv.
  rewrite cell_as_lookup, Hh, Hcol in Hcopy.
  unfold set_cell, at_. cbn [header tdata rows]. rewrite Hh.
  rewrite result_bind_ok, lookup_insert_eq. cbn [data with_data].
  rewrite length_insert, decide_True by exact Hr.
  rewrite insert_insert_eq, list_insert_insert_eq.
  unfold at_ in Hcopy.
  destruct (data col !! r) as [x|] eqn:Hx; [|discriminate].
  injection Hcopy as ->. rewrite (list_insert_id _ _ _ Hx).
  assert (with_data (with_data col (<[r := v]> (data col))) (data col)
          = col) as -> by (destruct col; reflexivity).
  rewrite (insert_id _ _ _ Hcol). destruct tb; reflexivity.
Qed.
End Cells.

Lemma set_cell_then_cell_witness :
  ∃ tb', table.set_cell two_by_two 1 1 "*" = Ok tb'
         ∧ table.cell tb' 1 1 = Ok "*"
         ∧ table.cell tb' 0 1 = table.cell two_by_two 0 1.
Proof.
  eexists. split; [vm_compute; reflexivity|].
  match goal with
  | |- table.cell ?T 1 1 = _ ∧ _ =>
      destruct (set_cell_then_cell two_by_two T 1 1 "*")
        as (_ & _ & Hcell & Hframe); [vm_compute; reflexivity|]
  end.
  split.
  - rewrite Hcell. reflexivity.
  - apply Hframe.
    + apply (bool_decide_unpack _). vm_compute. exact I.
    + intros [= ? ?].
Defined.

(** ** [ga::GeneticAlgorithm]: the generations *)

Section Generations.
Import table.

Lemma fltb_asym (a b : float) : fltb a b = true → fltb b a = false.
Proof.
  destruct a as [x| | |], b as [y| | |]; simpl; try done.
  destruct (x ?= y)%Q eqn:Hc; [done| |done]. intros _.
  rewrite <- Qlt_alt in Hc. destruct (y ?= x)%Q eqn:Hc'; try done.
  rewrite <- Qlt_alt in Hc'. lra.
Qed.

Lemma fltb_trans (a b c : float) :
  fltb a b = true → fltb b c = true → fltb a c = true.
Proof.
  destruct a as [x| | |], b as [y| | |], c as [z| | |]; simpl; try done.
  destruct (x ?= y)%Q eqn:Hxy; try done.
  destruct (y ?= z)%Q eqn:Hyz; try done. intros _ _.
  rewrite <- Qlt_alt in Hxy, Hyz.
  assert (x < z)%Q as Hxz by lra. rewrite Qlt_alt in Hxz.
  rewrite Hxz. reflexivity.
Qed.

Lemma emplace_perm (x : ga.instance) (l : list ga.instance) :
  ga.emplace x l ≡ₚ x :: l.
Proof.
  induction l as [|e l IH]; [reflexivity|]. simpl.
  destruct (fgtb (ga.s x) (ga.s e)); [reflexivity|].
  rewrite IH. apply Permutation_swap.
Qed.

Lemma emplace_descending (x : ga.instance) (l : list ga.instance) :
  descending l → descending (ga.emplace x l).
Proof.
  induction l as [|e l IH]; [intros _; split; [constructor|exact I]|].
  intros [Hall Hl]. simpl.
  destruct (fgtb (ga.s x) (ga.s e)) eqn:Hgt.
  - split; [|split; assumption].
    unfold fgtb in *. constructor; [apply fltb_asym, Hgt|].
    eapply Forall_impl; [exact Hall|]. intros y Hy. simpl in Hy.
    destruct (fltb (ga.s x) (ga.s y)) eqn:Hxy; [|reflexivity].
    rewrite (fltb_trans _ _ _ Hgt Hxy) in Hy. discriminate.
  - split; [|exact (IH Hl)].
    rewrite emplace_perm. constructor; assumption.
Qed.

(** X20. [emplace] into the multiset of a generation adds the instance and
    keeps the order: the result has the new instance and the old ones,
    no instance has a higher fitness than one before it, and the new
    instance stands behind every instance that it does not beat, so
    behind its equals. *)
Theorem emplace_keeps_order (x : ga.instance) (l : list ga.instance) :
  ga.emplace x l ≡ₚ x :: l
  ∧ (descending l → descending (ga.emplace x l))
  ∧ ∃ before after,
      ga.emplace x l = before ++ x :: after
      ∧ l = before ++ after
      ∧ Forall (λ e, fgtb (ga.s x) (ga.s e) = false) before
      ∧ match after with
        | e :: _ => fgtb (ga.s x) (ga.s e) = true
        | [] => True
        end.
Proof.
  split; [apply emplace_perm|]. split; [apply emplace_descending|].
  induction l as [|e l (before & after & Heq & Hl & Hb & Ha)].
  - exists [], []. done.
  - simpl. destruct (fgtb (ga.s x) (ga.s e)) eqn:Hgt.
    + exists [], (e :: l). done.
    + exists (e :: before), after. split_and!.
      * rewrite Heq. reflexivity.
      * simpl. f_equal. exact Hl.
      * constructor; assumption.
      * exact Ha.
Qed.

Lemma tied_all (top : float) (gen : list ga.instance) :
  ∃ n, ga.tied top gen = ga.table <$> take n gen
       ∧ Forall (λ e, fneb (ga.s e) top = false) (take n gen)
       ∧ match gen !! n with
         | Some e => fneb (ga.s e) top = true
         | None => True
         end.
Proof.
  induction gen as [|e gen (n & Heq & Hall & Hnext)].
  - exists 0. done.
  - simpl. destruct (fneb (ga.s e) top) eqn:He.
    + exists 0. done.
    + exists (S n). simpl. rewrite Heq. split_and!; [done| |done].
      constructor; assumption.
Qed.

(** X21. The tables that [generate_return] hands back are a leading run of
    the generation: the tables of the first instances, as long as their
    fitness equals the fitness of the first. The run is not empty unless
    that fitness is NaN, which equals nothing; then no table is
    returned. An empty generation has no first instance. *)
Theorem generate_return_leading_ties (gen : list ga.instance) :
  match gen with
  | [] => ga.generate_return gen = Err OutOfBounds
  | top :: _ =>
      ∃ n, ga.generate_return gen = Ok (ga.table <$> take n gen)
           ∧ Forall (λ e, feqb (ga.s e) (ga.s top) = true) (take n gen)
           ∧ (match gen !! n with
              | Some e => feqb (ga.s e) (ga.s top) = false
              | None => True
              end)
           ∧ (n = 0 ↔ ga.s top = NaN)
  end.
Proof.
  destruct gen as [|top gen]; [reflexivity|].
  unfold ga.generate_return, at_. cbn [lookup list_lookup].
  rewrite result_bind_ok.
  destruct (tied_all (ga.s top) (top :: gen)) as (n & Heq & Hall & Hnext).
  exists n. rewrite Heq. split; [reflexivity|]. split_and!.
  - eapply Forall_impl; [exact Hall|]. intros e He. simpl in He.
    unfold fneb in He. apply negb_false_iff, He.
  - destruct ((top :: gen) !! n); [|exact I].
    unfold fneb in Hnext. apply negb_true_iff, Hnext.
  - split.
    + intros ->. cbn [lookup list_lookup] in Hnext.
      unfold fneb in Hnext. apply negb_true_iff in Hnext.
      destruct (ga.s top) as [q| | |]; simpl in Hnext; try done.
      rewrite Qeq_bool_refl in Hnext. discriminate.
    + intros Hnan. destruct n as [|n]; [reflexivity|].
      cbn [take] in Hall. apply Forall_cons_1 in Hall as [Htop _].
      rewrite Hnan in Htop. discriminate.
Qed.
End Generations.

(** ** [ga::GeneticAlgorithm]: the runs *)

(** Steps that leave a member of the object alone. *)
Ltac frame :=
  repeat first
    [ apply keeps_ret
    | apply keeps_self
    | apply keeps_on_process
    | apply keeps_update; intros; reflexivity
    | apply keeps_foldM; intros
    | apply keeps_bind; [|intros]
    | match goal with
      | |- keeps _ (if ?b then _ else _) => destruct b
      | |- keeps _ (match ?x with _ => _ end) => destruct x
      end ].

Section Runs.
Context `{Random}.
Import table.

Lemma foldM_M_prefix {S A B} (I : list A → B → Prop)
    (f : B → A → M S B) (l : list A) :
  (∀ pre a b s b1 s1, I pre b → f b a s = Ok (b1, s1) → I (pre ++ [a]) b1) →
  ∀ b0 s b' s', I [] b0 → foldM f b0 l s = Ok (b', s') → I l b'.
Proof.
  intros Hstep.
  assert (∀ pre b s b' s', I pre b → foldM f b l s = Ok (b', s') →
                           I (pre ++ l) b') as Hgen.
  { induction l as [|a l IH]; intros pre b s b' s' Hb.
    - intros [= <- <-]. rewrite app_nil_r. exact Hb.
    - cbn [foldM]. intros (b1 & s1 & Hf & Hrun)%M_bind_inv.
      rewrite (cons_middle a pre l), app_assoc.
      exact (IH _ _ _ _ _ (Hstep _ _ _ _ _ _ Hb Hf) Hrun). }
  intros b0 s b' s'. exact (Hgen [] b0 s b' s').
Qed.

Lemma emplace_length (x : ga.instance) (l : list ga.instance) :
  length (ga.emplace x l) = S (length l).
Proof. rewrite emplace_perm. reflexivity. Qed.

(** What [breed] returns: the children it was given and one more for
    every offspring, in order. *)
Lemma breed_children (offspring : nat) (current : ga.instance)
    (children children' : list ga.instance)
    (s s' : ga.GeneticAlgorithm * process) :
  ga.breed offspring current children s = Ok (children', s') →
  length children' = length children + offspring
  ∧ (descending children → descending children').
Proof.
  unfold ga.breed. intros (cc & s1 & Hloop & Hret)%M_bind_inv.
  injection Hret as <- <-.
  assert (length cc.2 = length children + length (seq 0 offspring)
          ∧ (descending children → descending cc.2)) as [Hl Hd];
    [|rewrite length_seq in Hl; done].
  refine (foldM_M_prefix
            (λ pre cc, length cc.2 = length children + length pre
                       ∧ (descending children → descending cc.2))
            _ _ _ _ _ _ _ _ Hloop).
  - intros pre a b s0 b1 s2 [Hlen Hdesc].
    intros (u & s3 & _ & Hrun)%M_bind_inv.
    apply M_bind_inv in Hrun as (g1 & s4 & _ & Hrun).
    apply M_bind_inv in Hrun as (i & s5 & _ & Hrun).
    apply M_bind_inv in Hrun as (partner & s6 & _ & Hrun).
    apply M_bind_inv in Hrun as (tb & s7 & _ & Hrun).
    apply M_bind_inv in Hrun as (g2 & s8 & _ & Hrun).
    apply M_bind_inv in Hrun as (fit & s9 & _ & Hrun).
    injection Hrun as <- _. cbn [snd].
    rewrite emplace_length, length_app, Hlen. cbn [length].
    split; [lia|]. intros Hc. apply emplace_descending, Hdesc, Hc.
  - cbn [snd length]. split; [lia|tauto].
Qed.

Lemma lookups_take {A} (l : list A) (n : nat) :
  omap (λ x, l !! x) (seq 0 n) = take n l.
Proof.
  induction n as [|n IH]; [reflexivity|].
  rewrite seq_S, omap_app, IH. cbn [plus omap list_omap].
  destruct (l !! n) as [e|] eqn:He.
  - rewrite (take_S_r _ _ _ He). reflexivity.
  - rewrite app_nil_r. apply lookup_ge_None in He.
    rewrite !take_ge by lia. reflexivity.
Qed.

(** [breed] only adds to the children. *)
Lemma breed_keeps_children (offspring : nat) (current : ga.instance)
    (children children' : list ga.instance)
    (s s' : ga.GeneticAlgorithm * process) :
  ga.breed offspring current children s = Ok (children', s') →
  children ⊆+ children'.
Proof.
  unfold ga.breed. intros (cc & s1 & Hloop & Hret)%M_bind_inv.
  injection Hret as <- <-.
  refine (foldM_M_prefix (λ _ cc, children ⊆+ cc.2)
            _ _ _ _ _ _ _ _ Hloop); [|reflexivity].
  intros pre a b s0 b1 s2 Hsub.
  intros (u & s3 & _ & Hrun)%M_bind_inv.
  apply M_bind_inv in Hrun as (g1 & s4 & _ & Hrun).
  apply M_bind_inv in Hrun as (i & s5 & _ & Hrun).
  apply M_bind_inv in Hrun as (partner & s6 & _ & Hrun).
  apply M_bind_inv in Hrun as (tb & s7 & _ & Hrun).
  apply M_bind_inv in Hrun as (g2 & s8 & _ & Hrun).
  apply M_bind_inv in Hrun as (fit & s9 & _ & Hrun).
  injection Hrun as <- _. cbn [snd].
  rewrite emplace_perm. apply submseteq_cons, Hsub.
Qed.

(** X22. One turn of the generation loop rebuilds the generation from the
    [cutoff] best: each of them is kept, and each has
    [(population - cutoff) / cutoff] children. So the next generation has
    [cutoff * (1 + (population - cutoff) / cutoff)] instances, which is
    [population] only when [cutoff] divides it; they are again in
    descending order of fitness, and the [cutoff] best of the old
    generation are among them, as often as they were there. *)
Theorem generation_step_population (tenth it : Z)
    (g g' : ga.GeneticAlgorithm) (p p' : process) :
  ga.generation_step tenth it (g, p) = Ok (tt, (g', p')) →
  length (ga.generation g')
  = Z.to_nat (ga.cutoff g)
    * S (Z.to_nat (to_size_t (ga.population g - ga.cutoff g)
                   / ga.cutoff g))
  ∧ descending (ga.generation g')
  ∧ take (Z.to_nat (ga.cutoff g)) (ga.generation g) ⊆+ ga.generation g'.
Proof.
  unfold ga.generation_step.
  intros (u & s1 & Hup & Hrun)%M_bind_inv.
  injection Hup as <- <-.
  apply M_bind_inv in Hrun as (u2 & s2 & Hblock & Hrun).
  assert (ga.population s2.1 = ga.population g
          ∧ ga.cutoff s2.1 = ga.cutoff g
          ∧ ga.generation s2.1 = ga.generation g) as (Hpop & Hcut & Hgen).
  { revert Hblock.
    match goal with
    | |- ?c ?s = _ → _ =>
        assert (keeps ga.population c ∧ keeps ga.cutoff c
                ∧ keeps ga.generation c) as (Hk1 & Hk2 & Hk3);
          [|intros Hb; split_and!;
            [exact (Hk1 s u2 s2 Hb)|exact (Hk2 s u2 s2 Hb)
            |exact (Hk3 s u2 s2 Hb)]]
    end.
    unfold ga.update_view. split_and!; frame. }
  apply M_bind_inv in Hrun as (g2 & s3 & Hself & Hrun).
  injection Hself as <- <-.
  apply M_bind_inv in Hrun as (top & s4 & Htop & Hrun).
  apply (keeps_on_process ga.generation) in Htop.
  apply M_bind_inv in Hrun as (u5 & s5 & Hbest & Hrun).
  injection Hbest as _ <-.
  apply M_bind_inv in Hrun as (children & s6 & Hloop & Hrun).
  injection Hrun as <- _. cbn [ga.generation ga.with_generation].
  rewrite Hpop, Hcut in Hloop.
  set (off := Z.to_nat (to_size_t (ga.population g - ga.cutoff g)
                        / ga.cutoff g)) in *.
  assert (ga.generation s6.1 = ga.generation g
          ∧ length children = length (seq 0 (Z.to_nat (ga.cutoff g))) * S off
          ∧ descending children
          ∧ omap (λ x, ga.generation g !! x) (seq 0 (Z.to_nat (ga.cutoff g)))
            ⊆+ children) as (_ & Hl & Hd & Hkept).
  2: { rewrite length_seq in Hl. rewrite lookups_take in Hkept. done. }
  refine (foldM_M_state
            (λ pre children s,
               ga.generation s.1 = ga.generation g
               ∧ length children = length pre * S off
               ∧ descending children
               ∧ omap (λ x, ga.generation g !! x) pre ⊆+ children)
            _ _ _ _ _ _ _ _ Hloop).
  - intros pre x b s0 b1 s7 (Hg0 & Hlen & Hdesc & Hsub).
    intros (g3 & s8 & Hself & Hbody)%M_bind_inv.
    injection Hself as <- <-.
    apply M_bind_inv in Hbody as (current & s9 & Hcur & Hbody).
    apply M_bind_inv in Hbody as (u6 & s10 & Hcount & Hbody).
    assert (ga.generation g !! x = Some current ∧ s9.1 = s0.1)
      as [Hx Hs9].
    { unfold on_process, lift, at_ in Hcur. rewrite Hg0 in Hcur.
      destruct (ga.generation g !! x) as [e|]; [|discriminate].
      injection Hcur as <- <-. done. }
    injection Hcount as _ <-.
    split_and!.
    + rewrite (breed_keeps ga.generation _ _ _ (λ _ _, eq_refl) _ _ _ Hbody).
      cbn [fst ga.generation ga.with_states]. rewrite Hs9. exact Hg0.
    + destruct (breed_children _ _ _ _ _ _ Hbody) as [Hlen' _].
      rewrite Hlen', emplace_length, length_app, Hlen. cbn [length]. lia.
    + destruct (breed_children _ _ _ _ _ _ Hbody) as [_ Hdesc'].
      apply Hdesc', emplace_descending, Hdesc.
    + rewrite omap_app. cbn [omap list_omap]. rewrite Hx.
      rewrite <- (breed_keeps_children _ _ _ _ _ _ Hbody).
      rewrite emplace_perm.
      rewrite <- Permutation_cons_append. apply submseteq_skip, Hsub.
  - cbn [fst]. split_and!; [|reflexivity|exact I|reflexivity].
    rewrite <- Hgen. exact Htop.
Qed.
(** X23. Fewer than ten generations cannot be run: for [0 < max < 10] the
    tenth of the run is 0, and the first turn of the loop takes
    [(iter + 1) % 0]. *)
Theorem few_generations_fail (g : ga.GeneticAlgorithm) (p : process) :
  (0 < ga.max g < 10)%Z →
  ga.anonymize_worker (g, p) = Err DivisionByZero.
Proof.
  intros Hmax. unfold ga.anonymize_worker.
  rewrite M_bind_run. unfold self at 1. cbn [fst].
  rewrite (Z.div_small (ga.max g) 10) by lia.
  destruct (Z.to_nat (ga.max g)) as [|n] eqn:Hn; [lia|].
  cbn [seq foldM]. rewrite !M_bind_run.
  unfold ga.generation_step. rewrite !M_bind_run.
  unfold update at 1. cbn [fst snd Z.eqb]. reflexivity.
Qed.

Lemma foldM_M_app {S A B} (f : B → A → M S B) (l1 l2 : list A) (b : B)
    (s : S) :
  foldM f b (l1 ++ l2) s
  = match foldM f b l1 s with
    | Ok (b1, s1) => foldM f b1 l2 s1
    | Err e => Err e
    end.
Proof.
  revert b s. induction l1 as [|a l1 IH]; intros b s; [reflexivity|].
  cbn [app foldM]. rewrite !M_bind_run.
  destruct (f b a s) as [[b1 s1]|]; [apply IH|reflexivity].
Qed.

Lemma div_succ (n t : Z) :
  (0 ≤ n)%Z → (0 < t)%Z →
  ((n + 1) / t
   = n / t + if ((n + 1) mod t =? 0)%Z then 1 else 0)%Z.
Proof.
  intros Hn Ht.
  pose proof (Z.div_mod n t ltac:(lia)) as Hdm.
  pose proof (Z.mod_pos_bound n t Ht) as Hb.
  destruct (Z.eq_dec (n mod t)%Z (t - 1)%Z) as [Hm|Hm].
  - assert ((n + 1) mod t = 0)%Z as Hz.
    { symmetry.
      apply (Z.mod_unique (n + 1)%Z t (n / t + 1)%Z 0%Z); lia. }
    rewrite Hz. cbn [Z.eqb]. symmetry.
    apply (Z.div_unique (n + 1)%Z t (n / t + 1)%Z 0%Z); lia.
  - assert ((n + 1) mod t = n mod t + 1)%Z as Hz.
    { symmetry.
      apply (Z.mod_unique (n + 1)%Z t (n / t)%Z (n mod t + 1)%Z); lia. }
    rewrite Hz. destruct (Z.eqb_spec (n mod t + 1)%Z 0%Z); [lia|].
    symmetry.
    apply (Z.div_unique (n + 1)%Z t (n / t + 0)%Z (n mod t + 1)%Z); lia.
Qed.

Lemma generations_m_rate (tenth : Z) (n : nat)
    (g g' : ga.GeneticAlgorithm) (p p' : process) :
  (0 < tenth)%Z →
  (0 ≤ ga.m_rate g < 2 ^ 64)%Z →
  foldM (Mo := M (ga.GeneticAlgorithm * process))
        (λ _ it, ga.generation_step tenth (Z.of_nat it)) tt (seq 0 n)
        (g, p) = Ok (tt, (g', p')) →
  ga.m_rate g' = to_size_t (ga.m_rate g * 2 ^ (Z.of_nat n / tenth)).
Proof.
  intros Ht Hm0. revert g' p'. induction n as [|n IH]; intros g' p'.
  - intros [= <- <-]. unfold to_size_t.
    rewrite Z.div_0_l by lia. rewrite Z.mul_1_r, Z.mod_small; lia.
  - rewrite seq_S, foldM_M_app. cbn [plus].
    destruct (foldM (Mo := M (ga.GeneticAlgorithm * process)) _ tt
                (seq 0 n) (g, p)) as [[[] [g1 p1]]|] eqn:Hn;
      [|discriminate].
    cbn [foldM]. rewrite M_bind_run.
    destruct (ga.generation_step tenth (Z.of_nat n) (g1, p1))
      as [[[] [g2 p2]]|] eqn:Hstep; [|discriminate].
    intros [= <- <-].
    rewrite (generation_step_m_rate _ _ _ _ _ _ Hstep).
    rewrite (IH g1 p1 eq_refl).
    rewrite Nat2Z.inj_succ, <- Z.add_1_r.
    rewrite (div_succ (Z.of_nat n) tenth) by lia.
    assert (0 ≤ Z.of_nat n / tenth)%Z as Hq
      by (apply Z.div_pos; lia).
    destruct ((Z.of_nat n + 1) mod tenth =? 0)%Z.
    + rewrite Z.pow_add_r by lia. change (2 ^ 1)%Z with 2%Z.
      unfold to_size_t. rewrite Z.mul_mod_idemp_l by lia.
      f_equal. lia.
    + rewrite Z.add_0_r. reflexivity.
Qed.

(** X24. The mutation rate at the end of a run: with at least ten
    generations, [anonymize_worker] leaves [m_rate] doubled once for
    every full tenth of the run, on [size_t]:
    [m_rate * 2 ^ (max / (max / 10))] modulo 2^64. *)
Theorem worker_doubles_m_rate (g g' : ga.GeneticAlgorithm)
    (p p' : process) (tables : list Table) :
  (10 ≤ ga.max g)%Z →
  (0 ≤ ga.m_rate g < 2 ^ 64)%Z →
  ga.anonymize_worker (g, p) = Ok (tables, (g', p')) →
  ga.m_rate g'
  = to_size_t (ga.m_rate g * 2 ^ (ga.max g / (ga.max g / 10)))
  ∧ ga.iter g' = ga.max g.
Proof.
  intros Hmax Hm0. unfold ga.anonymize_worker.
  intros (g0 & s0 & Hself & Hrun)%M_bind_inv.
  injection Hself as <- <-.
  apply M_bind_inv in Hrun as ([] & [g1 p1] & Hloop & Hrun).
  apply M_bind_inv in Hrun as (u & s2 & Hup & Hrun).
  injection Hup as <- <-.
  apply M_bind_inv in Hrun as (g3 & s3 & Hself & Hrun).
  injection Hself as <- <-.
  unfold on_process in Hrun. cbn [fst snd] in Hrun.
  destruct (lift _ p1) as [[tbs p2]|]; [|discriminate].
  injection Hrun as _ <- _. cbn [ga.m_rate ga.iter ga.with_iter].
  split; [|reflexivity].
  assert (0 < ga.max g / 10)%Z as Ht
    by (apply Z.div_str_pos; lia).
  rewrite (generations_m_rate _ _ _ _ _ _ Ht Hm0 Hloop).
  rewrite Z2Nat.id by lia. reflexivity.
Qed.

(** X25. What a run of [anonymize] leaves of the object: the original, the
    number of cells, [cutoff] and the distribution [mutations] are as
    they were, the distribution [roll] is the closed interval from 0 to
    [cutoff], and [best], [states] and [iter] are reset. *)
Theorem anonymize_leaves (k_val : nat) (m_val : metric.metric)
    (iters p_val mut_rate : Z) (g g' : ga.GeneticAlgorithm)
    (p p' : process) :
  ga.anonymize k_val m_val iters p_val mut_rate (g, p)
  = Ok (tt, (g', p')) →
  ga.original g' = ga.original g
  ∧ ga.cells g' = ga.cells g
  ∧ ga.cutoff g' = ga.cutoff g
  ∧ ga.mutations g' = ga.mutations g
  ∧ ga.roll g' = ga.mkDistribution 0 (ga.to_int (ga.cutoff g))
  ∧ ga.best g' = INFINITY
  ∧ ga.states g' = 0%Z
  ∧ ga.iter g' = 0%Z.
Proof.
  intros Hrun.
  assert (keeps ga.original
            (ga.anonymize k_val m_val iters p_val mut_rate)
          ∧ keeps ga.cells
              (ga.anonymize k_val m_val iters p_val mut_rate)
          ∧ keeps ga.cutoff
              (ga.anonymize k_val m_val iters p_val mut_rate))
    as (Ho & Hc & Hcut).
  { unfold ga.anonymize, ga.anonymize_worker, ga.generation_step,
      ga.breed, ga.combine, ga.update_view.
    split_and!; frame. }
  split; [exact (Ho _ _ _ Hrun)|]. split; [exact (Hc _ _ _ Hrun)|].
  split; [exact (Hcut _ _ _ Hrun)|].
  split; [exact (anonymize_keeps_mutations _ _ _ _ _ _ _ _ Hrun)|].
  unfold ga.anonymize in Hrun.
  apply M_bind_inv in Hrun as (u & s1 & Hup & Hrun).
  injection Hup as <- <-.
  apply M_bind_inv in Hrun as (g1 & s2 & Hself & Hrun).
  injection Hself as <- <-.
  apply M_bind_inv in Hrun as (u3 & s3 & Hpop & Hrun).
  assert (ga.cutoff s3.1 = ga.cutoff g) as Hcut3.
  { revert Hpop.
    match goal with
    | |- ?c ?s = _ → _ =>
        assert (keeps ga.cutoff c) as Hk; [frame|exact (Hk s u3 s3)]
    end. }
  apply M_bind_inv in Hrun as (u4 & s4 & Hroll & Hrun).
  injection Hroll as <- <-.
  apply M_bind_inv in Hrun as (g5 & s5 & Hself & Hrun).
  injection Hself as <- <-.
  apply M_bind_inv in Hrun as (total & s6 & Htotal & Hrun).
  apply M_bind_inv in Hrun as (tables & s7 & Hworker & Hrun).
  apply M_bind_inv in Hrun as (b & s8 & Hb & Hrun).
  apply M_bind_inv in Hrun as (g9 & s9 & Hself & Hrun).
  injection Hself as <- <-.
  apply M_bind_inv in Hrun as (sc & s10 & Hsc & Hrun).
  apply M_bind_inv in Hrun as (u11 & s11 & Hbest & Hrun).
  injection Hbest as <- <-.
  apply M_bind_inv in Hrun as (kanon & s12 & Hk & Hrun).
  apply M_bind_inv in Hrun as (u13 & s13 & Hwarn & Hrun).
  apply M_bind_inv in Hrun as (g14 & s14 & Hself & Hrun).
  injection Hself as <- <-.
  apply M_bind_inv in Hrun as (u15 & s15 & Hstats & Hrun).
  injection Hrun as <- _.
  split; [|split_and!; reflexivity].
  cbn [ga.roll ga.reset ga.with_iter ga.with_states ga.with_best].
  assert (∀ {A} (c : M process A) s a s',
            on_process (Self := ga.GeneticAlgorithm) c s = Ok (a, s') →
            s'.1 = s.1) as Hproc.
  { intros A c s a s'. unfold on_process.
    destruct (c s.2) as [[a' p0]|]; [|discriminate].
    intros [= <- <-]. reflexivity. }
  rewrite (Hproc _ _ _ _ _ Hstats).
  assert (s13.1 = s12.1) as ->.
  { destruct kanon; [injection Hwarn as _ <-; reflexivity|].
    exact (Hproc _ _ _ _ _ Hwarn). }
  rewrite (Hproc _ _ _ _ _ Hk). cbn [fst ga.roll ga.with_best].
  rewrite (Hproc _ _ _ _ _ Hsc), (Hproc _ _ _ _ _ Hb).
  assert (keeps ga.roll ga.anonymize_worker) as Hkw.
  { unfold ga.anonymize_worker, ga.generation_step, ga.breed,
      ga.combine, ga.update_view. frame. }
  rewrite (Hkw _ _ _ Hworker), (Hproc _ _ _ _ _ Htotal).
  cbn [fst ga.roll ga.with_roll]. rewrite Hcut3. reflexivity.
Qed.
End Runs.

Lemma generation_step_population_witness :
  ∃ g', length (ga.generation g') = 20 ∧ descending (ga.generation g').
Proof.
  destruct (ga.generation_step 1 0 after_pair_run) as [[[] [g' p']]|]
    eqn:Hrun; [|vm_compute in Hrun; discriminate].
  exists g'.
  destruct (generation_step_population 1 0 after_pair_run.1 g'
              after_pair_run.2 p' Hrun) as (Hl & Hd & _).
  split; [exact Hl|exact Hd].
Defined.

Lemma few_generations_fail_witness :
  ga.anonymize_worker (ga.with_iter 0 (ga.setup 2 metric.md 9 20 40 pair_ga),
                       process_start true [])
  = Err DivisionByZero.
Proof.
  apply (few_generations_fail
           (ga.with_iter 0 (ga.setup 2 metric.md 9 20 40 pair_ga))).
  simpl. lia.
Defined.

Lemma worker_doubles_m_rate_witness :
  ∃ g', ga.m_rate g' = 10240%Z ∧ ga.iter g' = 10%Z.
Proof.
  destruct (ga.anonymize_worker
              (ga.with_m_rate 10 after_pair_run.1, after_pair_run.2))
    as [[tables [g' p']]|] eqn:Hrun; [|vm_compute in Hrun; discriminate].
  exists g'.
  refine (worker_doubles_m_rate
            (ga.with_m_rate 10 after_pair_run.1) g' after_pair_run.2 p'
            tables _ _ Hrun).
  - vm_compute. discriminate.
  - vm_compute. split; [discriminate|reflexivity].
Defined.

Lemma anonymize_leaves_witness :
  ∃ g', ga.mutations g' = ga.mkDistribution 0 110
        ∧ ga.roll g' = ga.mkDistribution 0 10.
Proof.
  destruct pair_run as [[[] [g' p']]|] eqn:Hrun;
    [|vm_compute in Hrun; discriminate].
  exists g'.
  destruct (anonymize_leaves 2 metric.md 10 20 40 pair_ga g'
              (process_start true [3; 105; 20; 7; 70; 110]%Z) p' Hrun)
    as (_ & _ & _ & Hm & Hr & _).
  split; [exact Hm|exact Hr].
Defined.

(** ** [mg::MinGen]: the search puts back what it changes *)

Section Backtracking.
Context `{Random}.
Import table.

Section Preserved.
Context {Self F : Type} (field : Self → F).

Lemma preserves_ret {A} (a : A) :
  preserves field (mret a : M (Self * process) A).
Proof. intros s a' s' [= <- <-]. reflexivity. Qed.

Lemma preserves_bind {A B} (c : M (Self * process) A)
    (f : A → M (Self * process) B) :
  preserves field c → (∀ a, preserves field (f a)) →
  preserves field (c ≫= f).
Proof.
  intros Hc Hf s b s'. rewrite M_bind_run.
  destruct (c s) as [[a s1]|] eqn:Hcs; [|discriminate].
  intros Hfs. rewrite (Hf a s1 b s' Hfs). exact (Hc s a s1 Hcs).
Qed.

Lemma preserves_self : preserves field (self (Self := Self)).
Proof. intros s a s' [= <- <-]. reflexivity. Qed.

Lemma preserves_on_process {A} (c : M process A) :
  preserves field (on_process (Self := Self) c).
Proof.
  intros s a s'. unfold on_process.
  destruct (c s.2) as [[a' p]|]; [|discriminate].
  intros [= <- <-]. reflexivity.
Qed.

Lemma preserves_update (f : Self → Self) :
  (∀ g, field (f g) = field g) → preserves field (update f).
Proof. intros Hf s a s' [= <- <-]. apply Hf. Qed.
End Preserved.

Ltac preserved :=
  repeat first
    [ apply preserves_ret
    | apply preserves_self
    | apply preserves_on_process
    | apply preserves_update; intros; reflexivity
    | apply preserves_bind; [|intros]
    | match goal with
      | |- preserves _ (if ?b then _ else _) => destruct b
      | |- preserves _ (match ?x with _ => _ end) => destruct x
      end ].

Lemma score_results_preserves : preserves configuration mg.score_results.
Proof. unfold mg.score_results, configuration. preserved. Qed.

Lemma prune_test_preserves (col : nat) :
  preserves configuration (mg.prune_test col).
Proof. unfold mg.prune_test, configuration. preserved. Qed.

(** The loop over the mutations of a cell puts the cell back. *)
Lemma each_mutation_restores (row col : nat) (copy : string)
    (inner : M (mg.MinGen * process) unit) (muts : list string) :
  preserves configuration inner →
  ∀ s s', cell (mg.working s.1) row col = Ok copy →
          mg.each_mutation row col copy inner muts s = Ok (tt, s') →
          configuration s'.1 = configuration s.1.
Proof.
  intros Hinner. induction muts as [|mut muts IH]; intros s s' Hcopy.
  - intros [= <-]. reflexivity.
  - cbn [mg.each_mutation].
    intros (u & s1 & Hup & Hrun)%M_bind_inv. injection Hup as <- <-.
    apply M_bind_inv in Hrun as (st & s2 & Hself & Hrun).
    injection Hself as <- <-. cbn [fst mg.max mg.states] in Hrun.
    destruct (_ <=? _)%Z; [injection Hrun as <-; reflexivity|].
    apply M_bind_inv in Hrun as (u3 & s3 & Hassign & Hrun).
    apply M_bind_inv in Hrun as (u4 & s4 & Hin & Hrun).
    apply M_bind_inv in Hrun as (u5 & s5 & Hback & Hrun).
    (* the assignment of the mutation *)
    unfold mg.assign in Hassign.
    apply M_bind_inv in Hassign as (st1 & t1 & Hself & Hassign).
    injection Hself as <- <-.
    apply M_bind_inv in Hassign as (w1 & t2 & Hset & Hassign).
    unfold on_process, lift in Hset. cbn [fst snd mg.working] in Hset.
    destruct (set_cell (mg.working s.1) row col mut) as [w1'|] eqn:Hw1;
      [|discriminate].
    injection Hset as <- <-. injection Hassign as _ <-.
    (* the inner search *)
    pose proof (Hinner _ _ _ Hin) as Hc4. cbn [fst] in Hc4.
    (* the assignment of the copy *)
    unfold mg.assign in Hback.
    apply M_bind_inv in Hback as (st4 & t4 & Hself & Hback).
    injection Hself as <- <-.
    apply M_bind_inv in Hback as (w5 & t5 & Hset & Hback).
    unfold on_process, lift in Hset. cbn [fst snd] in Hset.
    assert (mg.working s4.1 = w1') as Hw4.
    { unfold configuration in Hc4. cbn in Hc4. congruence. }
    rewrite Hw4, (set_cell_restore _ _ _ _ _ _ Hcopy Hw1) in Hset.
    injection Hset as <- <-. injection Hback as _ <-.
    apply IH in Hrun; [|exact Hcopy]. rewrite Hrun.
    unfold configuration in *. cbn in *. congruence.
Qed.

Lemma worker_preserves (fuel row col : nat) :
  preserves configuration (mg.anonymize_worker fuel row col).
Proof.
  revert row col. induction fuel as [|fuel IH]; intros row col s a s'.
  - discriminate.
  - cbn [mg.anonymize_worker].
    intros (st & s1 & Hself & Hrun)%M_bind_inv.
    injection Hself as <- <-. cbn [fst] in Hrun.
    destruct (_ =? _)%Z; [injection Hrun as <- <-; reflexivity|].
    destruct (col =? columns (mg.working s.1)).
    { exact (score_results_preserves _ _ _ Hrun). }
    apply M_bind_inv in Hrun as (column & s2 & Hcol & Hrun).
    unfold on_process, lift in Hcol. cbn [fst snd] in Hcol.
    destruct (index (mg.working s.1) col) as [column'|] eqn:Hindex;
      [|discriminate].
    injection Hcol as <- <-.
    destruct (negb _); [exact (IH _ _ _ _ _ Hrun)|].
    apply M_bind_inv in Hrun as (copy & s3 & Hcopy & Hrun).
    unfold on_process, lift in Hcopy. cbn [fst snd] in Hcopy.
    destruct (at_ (data column') row) as [copy'|] eqn:Hat; [|discriminate].
    injection Hcopy as <- <-.
    apply M_bind_inv in Hrun as (muts & s4 & Hmuts & Hrun).
    pose proof (preserves_on_process configuration _ _ _ _ Hmuts) as Hc4.
    cbn [fst] in Hc4. destruct a.
    rewrite <- Hc4.
    revert Hrun. apply each_mutation_restores.
    + destruct (row =? _).
      * apply preserves_bind; [apply prune_test_preserves|].
        intros [|]; [|apply preserves_ret].
        destruct (col =? _); [apply score_results_preserves|apply IH].
      * apply IH.
    + assert (mg.working s4.1 = mg.working s.1) as ->.
      { unfold configuration in Hc4. cbn in Hc4. congruence. }
      unfold cell. rewrite Hindex, result_bind_ok. exact Hat.
Qed.

(** X26. The search cleans up after itself: whenever [anonymize_worker]
    returns (by exhausting the cells it was started at or by running out
    of states), the working table is cell by cell what it was when the
    worker was called, and the original, [k], the metric and [max] are
    untouched. Only the count of states, the best score, the view and the
    tied-best tables change. *)
Theorem worker_restores_working_table (fuel row col : nat)
    (s s' : mg.MinGen) (p p' : process) :
  mg.anonymize_worker fuel row col (s, p) = Ok (tt, (s', p')) →
  mg.working s' = mg.working s
  ∧ mg.original s' = mg.original s
  ∧ mg.k s' = mg.k s
  ∧ mg.m s' = mg.m s
  ∧ mg.max s' = mg.max s.
Proof.
  intros Hrun. pose proof (worker_preserves _ _ _ _ _ _ Hrun) as Hc.
  unfold configuration in Hc. cbn in Hc.
  injection Hc as -> -> -> -> ->. done.
Qed.
End Backtracking.

Lemma worker_restores_working_table_witness :
  ∃ s', mg.working s' = two_by_two
        ∧ mg.original s' = two_by_two
        ∧ mg.k s' = 2
        ∧ mg.m s' = metric.md
        ∧ mg.max s' = SIZE_MAX.
Proof.
  destruct (mg.anonymize_worker (mg.enough_fuel two_by_two) 0 0
              (mg_started two_by_two 2 metric.md SIZE_MAX,
               process_start true []))
    as [[[] [s' p']]|] eqn:Hrun; [|vm_compute in Hrun; discriminate].
  exists s'.
  exact (worker_restores_working_table _ 0 0 _ s' _ p' Hrun).
Defined.

(** ** [table::Table::random]: random tables *)

Section RandomTables.
Context `{Random}.
Import table.

Lemma mutations_rand_inv (value : string) (col : column)
    (randomize : bool) (g g' : engine) (l : list string) :
  mutations_rand value col randomize g = Ok (l, g') →
  ∃ l0, mutations value col = Ok l0
        ∧ l ≡ₚ l0
        ∧ "*" ∈ l
        ∧ (∃ first, l !! 0 = Some first)
        ∧ (randomize = false → l = l0 ∧ g' = g).
Proof.
  unfold mutations_rand. intros (l0 & g0 & Hl0 & Hrun)%M_bind_inv.
  unfold lift in Hl0.
  destruct (mutations value col) as [l1|] eqn:Hmut; [|discriminate].
  injection Hl0 as <- <-. exists l1. split; [reflexivity|].
  destruct (mutations_head value col l1 Hmut) as [rest ->].
  assert (l ≡ₚ "*" :: rest ∧ (randomize = false → l = "*" :: rest ∧ g' = g))
    as [Hperm Hoff].
  { destruct randomize.
    - unfold do_shuffle in Hrun. injection Hrun as Hs.
      split; [|discriminate].
      replace l with (shuffle ("*" :: rest) g).1 by (rewrite Hs; done).
      apply shuffle_perm.
    - injection Hrun as <- <-. split; [reflexivity|done]. }
  split; [exact Hperm|]. split; [rewrite Hperm; left|].
  split; [|exact Hoff].
  destruct l as [|first l]; [|eauto].
  apply Permutation_nil_cons in Hperm. contradiction.
Qed.

(** The loop of [random] over the rows of one column. *)
Lemma random_column (tb0 : Table) (c : nat) (h : string) (col0 : column)
    (n : nat) (tb1 : Table) (g g1 : engine) :
  header tb0 !! c = Some h →
  tdata tb0 !! h = Some col0 →
  n ≤ length (data col0) →
  foldM (Mo := M engine)
        (λ copy row,
           column ← lift (get_column copy c);
           value ← lift (at_ (data column) row);
           muts ← mutations_rand value column true;
           first ← lift (at_ muts 0);
           lift (set_cell copy row c first))
        tb0 (seq 0 n) g = Ok (tb1, g1) →
  ∃ d, tb1 = mkTable (header tb0) (rows tb0)
               (<[h := with_data col0 d]> (tdata tb0))
       ∧ length d = length (data col0)
       ∧ Forall2 (mutation_of col0) (take n d) (take n (data col0))
       ∧ drop n d = drop n (data col0).
Proof.
  intros Hh Hcol. revert tb1 g1. induction n as [|n IH]; intros tb1 g1 Hn.
  - intros [= <- <-]. exists (data col0).
    split_and!; [|reflexivity|constructor|reflexivity].
    assert (with_data col0 (data col0) = col0) as ->
      by (destruct col0; reflexivity).
    rewrite (insert_id _ _ _ Hcol). destruct tb0; reflexivity.
  - rewrite seq_S, foldM_M_app. cbn [plus].
    destruct (foldM (Mo := M engine) _ tb0 (seq 0 n) g)
      as [[tbn gn]|] eqn:Hloop;
      [|discriminate].
    destruct (IH tbn gn ltac:(lia) eq_refl) as (d & -> & Hlen & Hdone & Hrest).
    cbn [foldM]. intros (tb2 & g2 & Hbody & Hret)%M_bind_inv.
    injection Hret as <- <-.
    apply M_bind_inv in Hbody as (column & g3 & Hget & Hbody).
    unfold lift, get_column, index, at_ in Hget. cbn [header tdata] in Hget.
    rewrite Hh, result_bind_ok, lookup_insert_eq in Hget.
    injection Hget as <- <-.
    apply M_bind_inv in Hbody as (value & g4 & Hval & Hbody).
    unfold lift, at_ in Hval. cbn [data with_data] in Hval.
    destruct (d !! n) as [v|] eqn:Hv; [|discriminate].
    injection Hval as <- <-.
    apply M_bind_inv in Hbody as (muts & g5 & Hmuts & Hbody).
    apply mutations_rand_inv in Hmuts
      as (l0 & Hl0 & Hperm & _ & [first Hfirst] & _).
    apply M_bind_inv in Hbody as (first' & g6 & Hf & Hbody).
    unfold lift, at_ in Hf. rewrite Hfirst in Hf. injection Hf as <- <-.
    unfold lift in Hbody.
    destruct (set_cell _ n c first) as [tb3|] eqn:Hset; [|discriminate].
    injection Hbody as <- <-.
    apply set_cell_inv in Hset as (h' & col' & Hh' & Hcol' & Hr & ->).
    cbn [header tdata rows] in *. rewrite Hh in Hh'. injection Hh' as <-.
    rewrite lookup_insert_eq in Hcol'. injection Hcol' as <-.
    cbn [data with_data]. rewrite insert_insert_eq.
    exists (<[n := first]> d). split_and!.
    + reflexivity.
    + rewrite length_insert. exact Hlen.
    + assert (data col0 !! n = Some v) as Hv0.
      { rewrite <- (Nat.add_0_r n) at 1.
        rewrite <- lookup_drop, <- Hrest, lookup_drop, Nat.add_0_r.
        exact Hv. }
      rewrite (take_S_r _ _ _ Hv0).
      rewrite (take_S_r (<[n := first]> d) n first)
        by (apply list_lookup_insert_eq; apply lookup_lt_Some in Hv; lia).
      rewrite take_insert_ge by lia.
      apply Forall2_app; [exact Hdone|]. constructor; [|constructor].
      exists l0. split; [exact Hl0|].
      rewrite <- Hperm. exact (list_elem_of_lookup_2 _ _ _ Hfirst).
    + rewrite drop_insert_lt by lia.
      rewrite <- !(Nat.add_1_r n), <- !drop_drop, Hrest. reflexivity.
Qed.

Lemma get_column_inv (tb : Table) (c : nat) (col : column) :
  get_column tb c = Ok col ↔
  ∃ h, header tb !! c = Some h ∧ tdata tb !! h = Some col.
Proof.
  unfold get_column, index, at_. split.
  - destruct (header tb !! c) as [h|]; [|discriminate].
    rewrite result_bind_ok.
    destruct (tdata tb !! h) as [col'|] eqn:Hc; [|discriminate].
    intros [= <-]. eauto.
  - intros (h & -> & Hc). rewrite result_bind_ok, Hc. reflexivity.
Qed.

(** The loop of [random] over the columns. *)
Lemma random_columns (tb : Table) (j : nat) (tbj : Table) (g gj : engine) :
  NoDup (header tb) →
  j ≤ length (header tb) →
  foldM (Mo := M engine)
        (λ copy col,
           column ← lift (get_column copy col);
           if negb (bool_decide (sensitivity column = quasi))
           then mret copy
           else
             foldM (Mo := M engine)
                   (λ copy row,
                      column ← lift (get_column copy col);
                      value ← lift (at_ (data column) row);
                      muts ← mutations_rand value column true;
                      first ← lift (at_ muts 0);
                      lift (set_cell copy row col first))
                   copy (seq 0 (length (data column))))
        tb (seq 0 j) g = Ok (tbj, gj) →
  header tbj = header tb
  ∧ rows tbj = rows tb
  ∧ (∀ h, tdata tb !! h = None → tdata tbj !! h = None)
  ∧ ∀ c h col, header tb !! c = Some h → tdata tb !! h = Some col →
      ∃ d, tdata tbj !! h = Some (with_data col d)
           ∧ length d = length (data col)
           ∧ if decide (c < j ∧ sensitivity col = quasi)
             then Forall2 (mutation_of col) d (data col)
             else d = data col.
Proof.
  intros Hnd. revert tbj gj. induction j as [|j IH]; intros tbj gj Hj.
  - intros [= <- <-]. split_and!; [reflexivity|reflexivity|done|].
    intros c h col Hh Hcol. exists (data col).
    assert (with_data col (data col) = col) as ->
      by (destruct col; reflexivity).
    split; [exact Hcol|]. split; [reflexivity|].
    rewrite decide_False by lia. reflexivity.
  - rewrite seq_S, foldM_M_app. cbn [plus].
    destruct (foldM (Mo := M engine) _ tb (seq 0 j) g)
      as [[tb1 g1]|] eqn:Hloop; [|discriminate].
    destruct (IH tb1 g1 ltac:(lia) eq_refl)
      as (Hhd & Hrows & Hnone & Hcols).
    cbn [foldM]. intros (tb2 & g2 & Hbody & Hret)%M_bind_inv.
    injection Hret as <- <-.
    destruct (lookup_lt_is_Some_2 (header tb) j ltac:(lia)) as [hj Hhj].
    apply M_bind_inv in Hbody as (column & g3 & Hget & Hbody).
    unfold lift in Hget.
    destruct (get_column tb1 j) as [column'|] eqn:Hcolumn; [|discriminate].
    injection Hget as <- <-.
    apply get_column_inv in Hcolumn as (h' & Hh' & Hcolumn).
    rewrite Hhd, Hhj in Hh'. injection Hh' as <-.
    assert (tdata tb !! hj = Some column') as Hcolj.
    { destruct (tdata tb !! hj) as [colj|] eqn:Hcolj.
      - destruct (Hcols j hj colj Hhj Hcolj) as (d & Hd & _ & Hsame).
        rewrite decide_False in Hsame by lia. subst d.
        rewrite Hcolumn in Hd. injection Hd as ->.
        f_equal. destruct colj; reflexivity.
      - rewrite (Hnone hj Hcolj) in Hcolumn. discriminate. }
    destruct (decide (sensitivity column' = quasi)) as [Hq|Hq].
    + rewrite bool_decide_eq_true_2 in Hbody by exact Hq.
      cbn [negb] in Hbody.
      assert (header tb1 !! j = Some hj) as Hhj1 by (rewrite Hhd; done).
      destruct (random_column tb1 j hj column' _ _ _ _ Hhj1 Hcolumn
                  ltac:(reflexivity) Hbody)
        as (d & -> & Hlen & Hall & _).
      rewrite !firstn_all2 in Hall by lia.
      cbn [header rows tdata].
      split_and!; [exact Hhd|exact Hrows| |].
      * intros h Hh. destruct (decide (h = hj)) as [->|Hne];
          [congruence|].
        rewrite lookup_insert_ne by done. exact (Hnone h Hh).
      * intros c h col Hh Hcol.
        destruct (decide (h = hj)) as [->|Hne].
        -- assert (c = j) as -> by exact (NoDup_lookup _ _ _ _ Hnd Hh Hhj).
           rewrite Hcolj in Hcol. injection Hcol as <-.
           exists d. rewrite lookup_insert_eq.
           split; [reflexivity|]. split; [exact Hlen|].
           rewrite decide_True by (split; [lia|exact Hq]). exact Hall.
        -- rewrite lookup_insert_ne by done.
           destruct (Hcols c h col Hh Hcol) as (d' & Hd' & Hlen' & Hsame).
           exists d'. split; [exact Hd'|]. split; [exact Hlen'|].
           assert (c ≠ j) by (intros ->; congruence).
           destruct (decide (c < j ∧ _)) as [[? ?]|Hn].
           ++ rewrite decide_True by (split; [lia|done]). exact Hsame.
           ++ rewrite decide_False by (intros [? ?]; apply Hn; split;
                                        [lia|done]).
              exact Hsame.
    + rewrite bool_decide_eq_false_2 in Hbody by exact Hq.
      cbn [negb] in Hbody. injection Hbody as <- <-.
      split_and!; [exact Hhd|exact Hrows|exact Hnone|].
      intros c h col Hh Hcol.
      destruct (Hcols c h col Hh Hcol) as (d' & Hd' & Hlen' & Hsame).
      exists d'. split; [exact Hd'|]. split; [exact Hlen'|].
      destruct (decide (c < j ∧ _)) as [[? ?]|Hn].
      * rewrite decide_True by (split; [lia|done]). exact Hsame.
      * rewrite decide_False; [exact Hsame|].
        intros [Hlt Hqc]. apply Hn. split; [|exact Hqc].
        destruct (decide (c = j)) as [->|]; [|lia].
        rewrite Hhj in Hh. injection Hh as <-.
        rewrite Hcolj in Hcol. injection Hcol as <-. contradiction.
Qed.

(** X27. What [random()] builds: a table with the header and the row
    count of the one it is called on, whose columns differ from the
    columns of that table in their cells only: in a quasi column every
    cell is one of the candidates that [mutations] offers for the cell
    it replaces, and the other columns have the cells they had. (The
    header must not repeat a name, as columns are kept by name.) *)
Theorem random_table_cells (tb tb' : Table) (g g' : engine) :
  NoDup (header tb) →
  random tb g = Ok (tb', g') →
  header tb' = header tb
  ∧ rows tb' = rows tb
  ∧ ∀ c col, get_column tb c = Ok col →
      ∃ d, get_column tb' c = Ok (with_data col d)
           ∧ length d = length (data col)
           ∧ (sensitivity col = quasi →
              Forall2 (mutation_of col) d (data col))
           ∧ (sensitivity col ≠ quasi → d = data col).
Proof.
  intros Hnd Hrun. unfold random in Hrun.
  destruct (random_columns tb _ tb' g g' Hnd ltac:(reflexivity) Hrun)
    as (Hhd & Hrows & _ & Hcols).
  split; [exact Hhd|]. split; [exact Hrows|].
  intros c col (h & Hh & Hcol)%get_column_inv.
  destruct (Hcols c h col Hh Hcol) as (d & Hd & Hlen & Hsame).
  exists d. split.
  { apply get_column_inv. exists h. rewrite Hhd. done. }
  split; [exact Hlen|].
  apply lookup_lt_Some in Hh.
  destruct (decide (c < _ ∧ _)) as [[_ Hq]|Hn].
  - split; [intros _; exact Hsame|intros ?; contradiction].
  - split; [intros Hq; exfalso; apply Hn; done|intros _; exact Hsame].
Qed.
End RandomTables.

Lemma random_table_cells_witness :
  ∃ tb', table.header tb' = table.header two_by_two
         ∧ table.rows tb' = table.rows two_by_two.
Proof.
  destruct (table.random two_by_two (([], []) : @engine scripted))
    as [[tb' g']|] eqn:Hrun; [|vm_compute in Hrun; discriminate].
  exists tb'.
  destruct (random_table_cells (H := scripted) two_by_two tb'
              (([], []) : @engine scripted) g') as (Hh & Hr & _).
  - apply (bool_decide_unpack _). vm_compute. exact I.
  - exact Hrun.
  - split; [exact Hh|exact Hr].
Defined.

(** ** [GeneticAlgorithm::combine]: where the cells of a child come from *)

Section Recombination.
Context `{Random}.
Import table.

Lemma on_process_lift_inv {Self A} (r : result A) (s s' : Self * process)
    (a : A) :
  on_process (lift r) s = Ok (a, s') → r = Ok a ∧ s' = s.
Proof.
  unfold on_process, lift. destruct r as [a'|]; [|discriminate].
  intros [= <- <-]. split; [reflexivity|]. destruct s; reflexivity.
Qed.

Lemma cell_of_column (tb : Table) (r c : nat) (col : column) (v : string) :
  get_column tb c = Ok col → data col !! r = Some v → cell tb r c = Ok v.
Proof.
  unfold cell, get_column. intros -> Hv. rewrite result_bind_ok.
  unfold at_. rewrite Hv. reflexivity.
Qed.

(** The loop of [combine] over the rows of the column [c]. *)
Lemma combine_rows (g : ga.GeneticAlgorithm) (first0 second : Table)
    (c : nat) (h : string) (col0 sc : column) (l : list nat)
    (tb1 : Table) (s s1 : ga.GeneticAlgorithm * process) :
  header first0 !! c = Some h →
  tdata first0 !! h = Some col0 →
  foldM (Mo := M (ga.GeneticAlgorithm * process))
        (λ first row,
           mutate ← on_process (on_gen (ga.draw (ga.mutations g)));
           if (100 <? mutate)%Z then
             value ← on_process (lift (cell (ga.original g) row c));
             ocol ← on_process (lift (get_column (ga.original g) c));
             muts ← on_process (on_rng (mutations_rand value ocol true));
             chosen ← on_process (lift (at_ muts 0));
             on_process (lift (set_cell first row c chosen))
           else if (mutate <? 50)%Z then
             v ← on_process (lift (at_ (data sc) row));
             on_process (lift (set_cell first row c v))
           else mret first)
        first0 l s = Ok (tb1, s1) →
  ∃ d, tb1 = mkTable (header first0) (rows first0)
               (<[h := with_data col0 d]> (tdata first0))
       ∧ length d = length (data col0)
       ∧ ∀ row v, d !! row = Some v →
           inherited_in (ga.original g) col0 sc row c v.
Proof.
  intros Hh Hcol Hloop.
  refine (foldM_M_prefix
            (λ _ tb, ∃ d, tb = mkTable (header first0) (rows first0)
                                 (<[h := with_data col0 d]> (tdata first0))
                          ∧ length d = length (data col0)
                          ∧ ∀ row v, d !! row = Some v →
                              inherited_in (ga.original g) col0 sc row c v)
            _ _ _ _ _ _ _ _ Hloop).
  - intros _ row tb s2 tb2 s3 (d & -> & Hlen & Hfrom).
    intros (mutate & s4 & _ & Hrun)%M_bind_inv.
    assert (∀ v, set_cell (mkTable (header first0) (rows first0)
                             (<[h := with_data col0 d]> (tdata first0)))
                   row c v = Ok tb2 →
                 tb2 = mkTable (header first0) (rows first0)
                         (<[h := with_data col0 (<[row := v]> d)]>
                            (tdata first0))) as Hset.
    { intros v (h' & col' & Hh' & Hcol' & _ & ->)%set_cell_inv.
      cbn [header tdata rows] in *. rewrite Hh in Hh'. injection Hh' as <-.
      rewrite lookup_insert_eq in Hcol'. injection Hcol' as <-.
      cbn [data with_data]. rewrite insert_insert_eq. reflexivity. }
    assert (∀ v, inherited_in (ga.original g) col0 sc row c v →
                 ∀ row' v', <[row := v]> d !! row' = Some v' →
                   inherited_in (ga.original g) col0 sc row' c v') as Hins.
    { intros v Hv row' v' Hl.
      destruct (decide (row' = row)) as [->|Hne].
      - rewrite list_lookup_insert_eq in Hl
          by (apply lookup_lt_Some in Hl; rewrite length_insert in Hl;
              exact Hl).
        injection Hl as <-. exact Hv.
      - rewrite list_lookup_insert_ne in Hl by done.
        exact (Hfrom row' v' Hl). }
    destruct (100 <? mutate)%Z.
    + apply M_bind_inv in Hrun as (value & s5 & [Hvalue _]%on_process_lift_inv
                                   & Hrun).
      apply M_bind_inv in Hrun as (ocol & s6 & [Hocol _]%on_process_lift_inv
                                   & Hrun).
      apply M_bind_inv in Hrun as (muts & s7 & Hmuts & Hrun).
      apply M_bind_inv in Hrun as (chosen & s8
                                   & [Hchosen _]%on_process_lift_inv & Hrun).
      apply on_process_lift_inv in Hrun as [Hrun _].
      apply Hset in Hrun as ->.
      exists (<[row := chosen]> d).
      split; [reflexivity|]. split; [rewrite length_insert; exact Hlen|].
      apply Hins. right. right. exists ocol, value.
      split; [exact Hocol|]. split; [exact Hvalue|].
      unfold on_process, on_rng in Hmuts.
      destruct (mutations_rand value ocol true (rng s6.2))
        as [[muts' e]|] eqn:Hm; [|discriminate].
      injection Hmuts as <- _.
      apply mutations_rand_inv in Hm as (l0 & Hl0 & Hperm & _).
      exists l0. split; [exact Hl0|]. rewrite <- Hperm.
      unfold at_ in Hchosen.
      destruct (muts' !! 0) as [x|] eqn:Hx; [|discriminate].
      injection Hchosen as <-. exact (list_elem_of_lookup_2 _ _ _ Hx).
    + destruct (mutate <? 50)%Z.
      * apply M_bind_inv in Hrun as (v & s5 & [Hv _]%on_process_lift_inv
                                     & Hrun).
        apply on_process_lift_inv in Hrun as [Hrun _].
        apply Hset in Hrun as ->.
        exists (<[row := v]> d).
        split; [reflexivity|]. split; [rewrite length_insert; exact Hlen|].
        apply Hins. right. left.
        unfold at_ in Hv. destruct (data sc !! row) as [x|]; [|discriminate].
        injection Hv as <-. reflexivity.
      * injection Hrun as <- _. exists d. done.
  - exists (data col0). split_and!; [|reflexivity|intros; left; done].
    assert (with_data col0 (data col0) = col0) as ->
      by (destruct col0; reflexivity).
    rewrite (insert_id _ _ _ Hcol). destruct first0; reflexivity.
Qed.

(** The loop of [combine] over the columns. *)
Lemma combine_columns (g : ga.GeneticAlgorithm) (first second : Table)
    (l : list nat) (child : Table) (s s' : ga.GeneticAlgorithm * process) :
  NoDup (header first) →
  foldM (Mo := M (ga.GeneticAlgorithm * process))
        (λ first col,
           fc ← on_process (lift (get_column first col));
           sc ← on_process (lift (get_column second col));
           if negb (bool_decide (sensitivity fc = quasi)) then mret first
           else
             foldM (Mo := M (ga.GeneticAlgorithm * process))
                   (λ first row,
                      mutate ← on_process
                                 (on_gen (ga.draw (ga.mutations g)));
                      if (100 <? mutate)%Z then
                        value ← on_process
                                  (lift (cell (ga.original g) row col));
                        ocol ← on_process
                                 (lift (get_column (ga.original g) col));
                        muts ← on_process
                                 (on_rng (mutations_rand value ocol true));
                        chosen ← on_process (lift (at_ muts 0));
                        on_process (lift (set_cell first row col chosen))
                      else if (mutate <? 50)%Z then
                        v ← on_process (lift (at_ (data sc) row));
                        on_process (lift (set_cell first row col v))
                      else mret first)
                   first (seq 0 (length (data fc))))
        first l s = Ok (child, s') →
  header child = header first
  ∧ rows child = rows first
  ∧ (∀ h, tdata first !! h = None → tdata child !! h = None)
  ∧ ∀ c h col, header first !! c = Some h → tdata first !! h = Some col →
      ∃ d, tdata child !! h = Some (with_data col d)
           ∧ length d = length (data col)
           ∧ (sensitivity col ≠ quasi → d = data col)
           ∧ ∀ row v, d !! row = Some v →
               inherited (ga.original g) first second row c v.
Proof.
  intros Hnd Hloop.
  refine (foldM_M_prefix
            (λ _ tb,
               header tb = header first
               ∧ rows tb = rows first
               ∧ (∀ h, tdata first !! h = None → tdata tb !! h = None)
               ∧ ∀ c h col, header first !! c = Some h →
                   tdata first !! h = Some col →
                   ∃ d, tdata tb !! h = Some (with_data col d)
                        ∧ length d = length (data col)
                        ∧ (sensitivity col ≠ quasi → d = data col)
                        ∧ ∀ row v, d !! row = Some v →
                            inherited (ga.original g) first second row c v)
            _ _ _ _ _ _ _ _ Hloop).
  - intros _ j tb s1 tb2 s2 (Hhd & Hrows & Hnone & Hcols).
    intros (fc & s3 & [Hfc _]%on_process_lift_inv & Hrun)%M_bind_inv.
    apply M_bind_inv in Hrun as (sc & s4 & [Hsc _]%on_process_lift_inv
                                 & Hrun).
    apply get_column_inv in Hfc as (hj & Hhj & Hfc).
    rewrite Hhd in Hhj.
    destruct (tdata first !! hj) as [colj|] eqn:Hcolj;
      [|rewrite (Hnone hj Hcolj) in Hfc; discriminate].
    destruct (Hcols j hj colj Hhj Hcolj) as (dj & Hdj & Hlenj & Hsamej & Hj).
    rewrite Hfc in Hdj. injection Hdj as ->.
    destruct (decide (sensitivity colj = quasi)) as [Hq|Hq].
    + rewrite bool_decide_eq_true_2 in Hrun by exact Hq.
      cbn [negb] in Hrun.
      assert (header tb !! j = Some hj) as Hhj' by (rewrite Hhd; done).
      destruct (combine_rows g tb second j hj _ sc _ _ _ _ Hhj' Hfc Hrun)
        as (d & -> & Hlen & Hfrom).
      cbn [header rows tdata data with_data] in *.
      split_and!; [exact Hhd|exact Hrows| |].
      * intros h Hh. destruct (decide (h = hj)) as [->|Hne];
          [congruence|].
        rewrite lookup_insert_ne by done. exact (Hnone h Hh).
      * intros c h col Hh Hcol.
        destruct (decide (h = hj)) as [->|Hne].
        -- assert (c = j) as -> by exact (NoDup_lookup _ _ _ _ Hnd Hh Hhj).
           rewrite Hcolj in Hcol. injection Hcol as <-.
           exists d. rewrite lookup_insert_eq.
           split; [reflexivity|]. split; [lia|].
           split; [intros ?; contradiction|].
           intros row v [Hv|[Hv|Hv]]%Hfrom.
           ++ exact (Hj row v Hv).
           ++ right. left. exact (cell_of_column _ _ _ _ _ Hsc Hv).
           ++ right. right. exact Hv.
        -- rewrite lookup_insert_ne by done.
           exact (Hcols c h col Hh Hcol).
    + rewrite bool_decide_eq_false_2 in Hrun by exact Hq.
      cbn [negb] in Hrun. injection Hrun as <- _.
      split_and!; [exact Hhd|exact Hrows|exact Hnone|exact Hcols].
  - split_and!; [reflexivity|reflexivity|done|].
    intros c h col Hh Hcol. exists (data col).
    assert (with_data col (data col) = col) as ->
      by (destruct col; reflexivity).
    split; [exact Hcol|]. split; [reflexivity|]. split; [done|].
    intros row v Hv. left. apply (cell_of_column _ _ _ col); [|exact Hv].
    apply get_column_inv. eauto.
Qed.

(** X28. A child is a recombination: [combine] leaves the header, the row
    count and every column's settings of [first] as they are, and the
    cells of the columns that are not quasi; each cell of a quasi column
    is then the cell of [first] or of [second] at that place, or one of
    the candidates that [mutations] offers for the cell of [original]
    there. The object itself is not changed. (The header of [first] must
    not repeat a name, as columns are kept by name.) *)
Theorem combine_inherits (first second child : Table)
    (g g' : ga.GeneticAlgorithm) (p p' : process) :
  NoDup (header first) →
  ga.combine first second (g, p) = Ok (child, (g', p')) →
  g' = g
  ∧ header child = header first
  ∧ rows child = rows first
  ∧ ∀ c col, get_column first c = Ok col →
      ∃ d, get_column child c = Ok (with_data col d)
           ∧ length d = length (data col)
           ∧ (sensitivity col ≠ quasi → d = data col)
           ∧ ∀ row v, d !! row = Some v →
               inherited (ga.original g) first second row c v.
Proof.
  intros Hnd Hrun. split.
  { assert (keeps (λ g, g) (ga.combine first second)) as Hk
      by (unfold ga.combine; frame).
    exact (Hk _ _ _ Hrun). }
  unfold ga.combine in Hrun.
  apply M_bind_inv in Hrun as (g0 & s0 & Hself & Hrun).
  injection Hself as <- <-.
  destruct (combine_columns g first second _ child _ _ Hnd Hrun)
    as (Hhd & Hrows & _ & Hcols).
  split; [exact Hhd|]. split; [exact Hrows|].
  intros c col (h & Hh & Hcol)%get_column_inv.
  destruct (Hcols c h col Hh Hcol) as (d & Hd & Hrest).
  exists d. split; [|exact Hrest].
  apply get_column_inv. exists h. rewrite Hhd. done.
Qed.
End Recombination.

Lemma combine_inherits_witness :
  ∃ child, table.header child = table.header pair_original
           ∧ table.rows child = table.rows pair_original.
Proof.
  destruct (ga.combine pair_original pair_original
              (pair_ga, process_start true [105; 20]%Z))
    as [[child [g' p']]|] eqn:Hrun; [|vm_compute in Hrun; discriminate].
  exists child.
  destruct (combine_inherits (H := scripted) pair_original pair_original
              child pair_ga g' (process_start true [105; 20]%Z) p')
    as (_ & Hh & Hr & _).
  - apply (bool_decide_unpack _). vm_compute. exact I.
  - exact Hrun.
  - split; [exact Hh|exact Hr].
Defined.

(** ** [Table::generate_ranges]: the ranges of an integer column *)

Section ColumnRanges.
Import table.

Lemma pretty_head (n : N) :
  ∃ r rest, (r < 10)%N ∧ pretty n = String (pretty_N_char r) rest.
Proof.
  unfold pretty, pretty_N. destruct (decide (n = 0%N)) as [->|Hn].
  - exists 0%N, "". split; [lia|reflexivity].
  - apply pretty_go_head. lia.
Qed.

Lemma pretty_plain (n : N) :
  String.eqb (pretty n) "*" = false ∧ starts_with "[" (pretty n) = false.
Proof.
  destruct (pretty_head n) as (r & rest & Hr & ->).
  rewrite <- (N2Nat.id r). assert (N.to_nat r < 10) as Hn by lia.
  generalize dependent (N.to_nat r). clear r Hr. intros k Hk.
  do 10 (destruct k as [|k]; [split; reflexivity|]). lia.
Qed.

Lemma pretty_eqb (a b : N) :
  String.eqb (pretty a) (pretty b) = bool_decide (a = b).
Proof.
  destruct (decide (a = b)) as [->|Hne].
  - rewrite String.eqb_refl, bool_decide_eq_true_2; reflexivity.
  - rewrite bool_decide_eq_false_2 by exact Hne.
    apply String.eqb_neq. intros Heq. apply Hne.
    exact (pretty_N_inj _ _ Heq).
Qed.

Lemma with_pair_data (l : list (N * N)) (col : column) :
  data (fold_left with_pair l col) = data col.
Proof.
  revert col. induction l as [|ab l IH]; intros col; [reflexivity|].
  cbn [fold_left]. rewrite IH. reflexivity.
Qed.

(** The inner loop on a column of numbers. *)
Lemma generate_ranges_inner (a : N) (bs : list N) (col : column) :
  (Z.of_N a < 2 ^ 31)%Z →
  Forall (λ b, (Z.of_N b < 2 ^ 31)%Z) bs →
  foldM (λ col1 y,
           if String.eqb (pretty a) y || String.eqb (pretty a) "*"
              || String.eqb y "*"
           then Ok col1
           else
             r ← (if starts_with "[" (pretty a)
                  then shared.Range_of_string (pretty a)
                  else if starts_with "[" y
                  then shared.Range_of_string y
                  else
                    a ← stoi (pretty a);
                    b ← stoi y;
                    Ok (shared.Range_of_bounds (to_size_t a) (to_size_t b)));
             Ok (mkColumn (t col1) (weight col1) (sensitivity col1)
                   (unique col1) (shared.set_emplace r (ranges col1))
                   (shared.update r (range col1)) (graph col1) (data col1)))
        col (pretty <$> bs)
  = Ok (fold_left with_pair (pairs_with a bs) col).
Proof.
  intros Ha Hbs. revert col.
  induction Hbs as [|b bs Hb _ IH]; intros col; [reflexivity|].
  match goal with |- foldM ?f _ _ = _ => set (F := f) in * end.
  cbn [fmap list_fmap foldM]. unfold pairs_with. cbn [mbind list_bind].
  fold (pairs_with a bs). rewrite fold_left_app.
  assert (F col (pretty b)
          = Ok (fold_left with_pair
                  (if decide (a = b) then [] else [(a, b)]) col)) as ->.
  { unfold F.
    rewrite pretty_eqb, (proj1 (pretty_plain a)), (proj1 (pretty_plain b)),
      (proj2 (pretty_plain a)), (proj2 (pretty_plain b)).
    rewrite !orb_false_r.
    destruct (decide (a = b)) as [->|Hne].
    - rewrite bool_decide_eq_true_2 by reflexivity. reflexivity.
    - rewrite bool_decide_eq_false_2 by exact Hne.
      rewrite (proj2 (stoi_pretty a)), (proj2 (stoi_pretty b)).
      rewrite !(proj2 (Z.ltb_lt _ _)) by assumption.
      rewrite !result_bind_ok.
      unfold to_size_t. rewrite !Z.mod_small by lia. reflexivity. }
  rewrite result_bind_ok. apply IH.
Qed.

(** The two loops on a column of numbers. *)
Lemma generate_ranges_loops (ns : list N) (xs : list N) (col : column) :
  data col = pretty <$> ns →
  Forall (λ b, (Z.of_N b < 2 ^ 31)%Z) ns →
  Forall (λ b, (Z.of_N b < 2 ^ 31)%Z) xs →
  foldM (λ col0 x,
           foldM (λ col1 y,
                    if String.eqb x y || String.eqb x "*"
                       || String.eqb y "*"
                    then Ok col1
                    else
                      r ← (if starts_with "[" x
                           then shared.Range_of_string x
                           else if starts_with "[" y
                           then shared.Range_of_string y
                           else
                             a ← stoi x;
                             b ← stoi y;
                             Ok (shared.Range_of_bounds
                                   (to_size_t a) (to_size_t b)));
                      Ok (mkColumn (t col1) (weight col1) (sensitivity col1)
                            (unique col1)
                            (shared.set_emplace r (ranges col1))
                            (shared.update r (range col1))
                            (graph col1) (data col1)))
                 col0 (data col0))
        col (pretty <$> xs)
  = Ok (fold_left with_pair (xs ≫= λ a, pairs_with a ns) col).
Proof.
  intros Hdata Hns Hxs. revert col Hdata.
  induction Hxs as [|x xs Hx _ IH]; intros col Hdata; [reflexivity|].
  match goal with |- foldM ?f _ _ = _ => set (F := f) in * end.
  cbn [fmap list_fmap foldM mbind list_bind]. rewrite fold_left_app.
  assert (F col (pretty x) = Ok (fold_left with_pair (pairs_with x ns) col))
    as ->.
  { unfold F. rewrite Hdata. exact (generate_ranges_inner x ns col Hx Hns). }
  rewrite result_bind_ok.
  apply IH. rewrite with_pair_data. exact Hdata.
Qed.

(** *** The order of the set *)

Lemma ascii_compare_lt_trans (a b c : ascii) :
  Ascii.compare a b = Lt → Ascii.compare b c = Lt → Ascii.compare a c = Lt.
Proof.
  unfold Ascii.compare. rewrite !N.compare_lt_iff. lia.
Qed.

Lemma string_compare_lt_trans (s1 s2 s3 : string) :
  String.compare s1 s2 = Lt → String.compare s2 s3 = Lt →
  String.compare s1 s3 = Lt.
Proof.
  revert s2 s3. induction s1 as [|c1 s1 IH]; intros [|c2 s2] [|c3 s3];
    cbn [String.compare]; try done.
  destruct (Ascii.compare c1 c2) eqn:H12; [|
    |discriminate].
  - apply Ascii.compare_eq_iff in H12 as ->.
    destruct (Ascii.compare c2 c3); [apply IH|done|done].
  - intros _. destruct (Ascii.compare c2 c3) eqn:H23; [| |discriminate].
    + apply Ascii.compare_eq_iff in H23 as <-. rewrite H12. done.
    + rewrite (ascii_compare_lt_trans _ _ _ H12 H23). done.
Qed.

Lemma set_emplace_subset (r r' : shared.Range) (l : list shared.Range) :
  r' ∈ shared.set_emplace r l → r' = r ∨ r' ∈ l.
Proof.
  induction l as [|x l IH]; cbn [shared.set_emplace].
  - intros Hr%list_elem_of_singleton. left. exact Hr.
  - destruct (String.compare (shared.out r) (shared.out x)).
    + right. assumption.
    + intros [->|Hin]%elem_of_cons; [left; reflexivity|right; exact Hin].
    + intros [->|Hin]%elem_of_cons; [right; left|].
      destruct (IH Hin) as [->|Hl]; [left; reflexivity|right; right; exact Hl].
Qed.

(** Among ranges that are known by their text, [emplace] adds its
    argument to the set. *)
Lemma set_emplace_elem (r r' : shared.Range) (l : list shared.Range) :
  (∀ x, x ∈ l → shared.out x = shared.out r → x = r) →
  r' ∈ shared.set_emplace r l ↔ r' = r ∨ r' ∈ l.
Proof.
  intros Hknown. split; [apply set_emplace_subset|].
  induction l as [|x l IH]; cbn [shared.set_emplace].
  - intros [->|Hin]; [left|inversion Hin].
  - destruct (String.compare (shared.out r) (shared.out x)) eqn:Hc.
    + apply String.compare_eq_iff in Hc.
      rewrite (Hknown x ltac:(left) (eq_sym Hc)).
      intros [->|Hin]; [left|exact Hin].
    + intros [->|Hin]; [left|right; exact Hin].
    + intros [->|[->|Hin]%elem_of_cons].
      * right. apply IH; [|left; reflexivity].
        intros y Hy. apply Hknown. right. exact Hy.
      * left.
      * right. apply IH; [|right; exact Hin].
        intros y Hy. apply Hknown. right. exact Hy.
Qed.

Lemma set_emplace_ordered (r : shared.Range) (l : list shared.Range) :
  ordered l → ordered (shared.set_emplace r l).
Proof.
  induction l as [|x l IH]; cbn [shared.set_emplace ordered].
  - intros _. split; [constructor|exact I].
  - intros [Hx Hl].
    destruct (String.compare (shared.out r) (shared.out x)) eqn:Hc.
    + split; assumption.
    + cbn [ordered]. split; [|split; assumption].
      constructor; [exact Hc|].
      eapply Forall_impl; [exact Hx|]. cbn beta. intros y Hy.
      exact (string_compare_lt_trans _ _ _ Hc Hy).
    + cbn [ordered]. split; [|exact (IH Hl)].
      apply Forall_forall. intros y [->|Hy]%set_emplace_subset.
      * rewrite String.compare_antisym, Hc. reflexivity.
      * rewrite Forall_forall in Hx. exact (Hx y Hy).
Qed.

Lemma set_erase_ordered (r : shared.Range) (l : list shared.Range) :
  ordered l → ordered (shared.set_erase r l).
Proof.
  unfold shared.set_erase. induction l as [|x l IH]; [done|].
  cbn [ordered]. intros [Hx Hl]. rewrite filter_cons.
  destruct (decide _); [|exact (IH Hl)].
  cbn [ordered]. split; [|exact (IH Hl)].
  apply Forall_forall. intros y [_ Hy]%list_elem_of_filter.
  rewrite Forall_forall in Hx. exact (Hx y Hy).
Qed.

(** *** The ranges between two numbers *)

Lemma between_bounds (a b : N) :
  shared.min (between (a, b)) = Z.min (Z.of_N a) (Z.of_N b)
  ∧ shared.max (between (a, b)) = Z.max (Z.of_N a) (Z.of_N b)
  ∧ between (a, b) = shared.update_string (between (a, b))
  ∧ between (a, b) = between (b, a).
Proof.
  unfold between, shared.Range_of_bounds, shared.update_string.
  cbn [fst snd]. cbn zeta. cbn [shared.min shared.max shared.out].
  destruct (Z.ltb_spec (Z.of_N a) (Z.of_N b)),
           (Z.ltb_spec (Z.of_N b) (Z.of_N a));
    split_and!; try reflexivity; try lia.
  assert (a = b) as -> by lia. reflexivity.
Qed.

Lemma between_parse (a b : N) :
  (Z.of_N a < 2 ^ 31)%Z → (Z.of_N b < 2 ^ 31)%Z →
  shared.Range_of_string (shared.out (between (a, b)))
  = Ok (between (a, b)).
Proof.
  intros Ha Hb. unfold between, shared.Range_of_bounds. cbn [fst snd].
  cbn zeta. cbn [shared.out].
  set (lo := if (Z.of_N a <? Z.of_N b)%Z then Z.of_N a else Z.of_N b).
  set (hi := if (Z.of_N a <? Z.of_N b)%Z then Z.of_N b else Z.of_N a).
  assert (0 ≤ lo < 2 ^ 31 ∧ 0 ≤ hi < 2 ^ 31)%Z as [Hlo Hhi].
  { unfold lo, hi. destruct (Z.ltb_spec (Z.of_N a) (Z.of_N b)); lia. }
  destruct (stoi_pretty (Z.to_N lo)) as [Hda Hsa].
  destruct (stoi_pretty (Z.to_N hi)) as [Hdb Hsb].
  rewrite (Range_of_string_brackets _ _ Hda Hdb), Hsa, Hsb.
  rewrite !Z2N.id by lia.
  rewrite !(proj2 (Z.ltb_lt _ _)) by lia.
  rewrite !result_bind_ok. unfold to_size_t.
  rewrite !Z.mod_small by lia. reflexivity.
Qed.

Lemma between_known (ab cd : N * N) :
  (Z.of_N ab.1 < 2 ^ 31)%Z → (Z.of_N ab.2 < 2 ^ 31)%Z →
  (Z.of_N cd.1 < 2 ^ 31)%Z → (Z.of_N cd.2 < 2 ^ 31)%Z →
  shared.out (between ab) = shared.out (between cd) →
  between ab = between cd.
Proof.
  destruct ab as [a b], cd as [c d]. cbn [fst snd]. intros Ha Hb Hc Hd Ho.
  pose proof (between_parse a b Ha Hb) as Hp.
  rewrite Ho, (between_parse c d Hc Hd) in Hp. congruence.
Qed.

(** *** The set and the span after the two loops *)

Lemma with_pair_ranges (P : list (N * N)) (col : column) :
  ranges col = [] →
  Forall (λ ab, (Z.of_N ab.1 < 2 ^ 31)%Z ∧ (Z.of_N ab.2 < 2 ^ 31)%Z) P →
  ordered (ranges (fold_left with_pair P col))
  ∧ ∀ r, r ∈ ranges (fold_left with_pair P col)
         ↔ ∃ ab, ab ∈ P ∧ r = between ab.
Proof.
  intros Hnone. induction P as [|ab P IH] using rev_ind; intros HP.
  - cbn [fold_left]. rewrite Hnone. split; [exact I|].
    intros r. split; [intros Hr; inversion Hr|].
    intros (ab & Hab & _). inversion Hab.
  - apply Forall_app in HP as [HP Hab].
    apply Forall_singleton in Hab as [Ha Hb].
    destruct (IH HP) as [Hord Helem].
    rewrite fold_left_app. cbn [fold_left with_pair ranges].
    split; [apply set_emplace_ordered, Hord|].
    intros r. rewrite set_emplace_elem.
    + rewrite Helem. split.
      * intros [->|(cd & Hcd & ->)].
        -- exists ab. split; [apply elem_of_app; right; left|reflexivity].
        -- exists cd. split; [apply elem_of_app; left; exact Hcd|reflexivity].
      * intros (cd & [Hcd|Hcd%list_elem_of_singleton]%elem_of_app & ->).
        -- right. exists cd. done.
        -- left. rewrite Hcd. reflexivity.
    + intros x (cd & Hcd & ->)%Helem Ho.
      rewrite Forall_forall in HP. destruct (HP cd Hcd) as [Hc Hd].
      exact (between_known cd ab Hc Hd Ha Hb Ho).
Qed.

Lemma update_min_wide (m : Z) (r : shared.Range) :
  (shared.min r < shared.max r)%Z →
  shared.update_min m r
  = shared.mkRange (Z.min (shared.min r) m) (shared.max r) (shared.out r).
Proof.
  destruct r as [rm rM ro]. unfold shared.update_min.
  cbn [shared.min shared.max shared.out]. intros Hlt.
  destruct (Z.ltb_spec m rm), (Z.eqb_spec rm rM); cbn [orb];
    try lia; f_equal; lia.
Qed.

Lemma update_max_wide (M : Z) (r : shared.Range) :
  (shared.min r < shared.max r)%Z →
  shared.update_max M r
  = shared.mkRange (shared.min r) (Z.max (shared.max r) M) (shared.out r).
Proof.
  destruct r as [rm rM ro]. unfold shared.update_max.
  cbn [shared.min shared.max shared.out]. intros Hlt.
  destruct (Z.ltb_spec rM M), (Z.eqb_spec rm rM); cbn [orb];
    try lia; f_equal; lia.
Qed.

Lemma update_between (ab : N * N) (r : shared.Range) :
  ab.1 ≠ ab.2 →
  (r = shared.Range_of_bounds 0 0 → shared.update (between ab) r = between ab)
  ∧ ((shared.min r < shared.max r)%Z →
     shared.update (between ab) r
     = shared.update_string
         (shared.mkRange
            (Z.min (shared.min r) (Z.min (Z.of_N ab.1) (Z.of_N ab.2)))
            (Z.max (shared.max r) (Z.max (Z.of_N ab.1) (Z.of_N ab.2)))
            "")).
Proof.
  destruct ab as [a b]. cbn [fst snd]. intros Hne.
  destruct (between_bounds a b) as (Hmin & Hmax & Hstr & _).
  assert (Z.of_N a ≠ Z.of_N b) as Hne' by lia.
  unfold shared.update. rewrite Hmin, Hmax. split.
  - intros ->.
    change (shared.Range_of_bounds 0 0) with (shared.mkRange 0 0 "[0-0]").
    rewrite Hstr. unfold shared.update_string.
    rewrite Hmin, Hmax.
    unfold shared.update_min, shared.update_max.
    cbn [shared.min shared.max shared.out Z.eqb orb].
    rewrite orb_true_r. cbn [shared.min shared.max shared.out].
    destruct (Z.ltb_spec 0 (Z.max (Z.of_N a) (Z.of_N b))); [|lia].
    reflexivity.
  - intros Hlt. rewrite (update_min_wide _ _ Hlt).
    rewrite update_max_wide
      by (cbn [shared.min shared.max]; lia).
    reflexivity.
Qed.

(** The span after the pairs [P]: nothing of the [Range(0, 0)] that a
    column starts with is left once a pair went in. *)
Lemma with_pair_range (P : list (N * N)) (col : column) :
  range col = shared.Range_of_bounds 0 0 →
  Forall (λ ab, ab.1 ≠ ab.2) P →
  match P with
  | [] => range (fold_left with_pair P col) = shared.Range_of_bounds 0 0
  | _ =>
      let r := range (fold_left with_pair P col) in
      (shared.min r < shared.max r)%Z
      ∧ r = shared.update_string r
      ∧ (∀ ab, ab ∈ P →
           (shared.min r ≤ Z.min (Z.of_N ab.1) (Z.of_N ab.2))%Z
           ∧ (Z.max (Z.of_N ab.1) (Z.of_N ab.2) ≤ shared.max r)%Z)
      ∧ (∃ ab, ab ∈ P
               ∧ shared.min r = Z.min (Z.of_N ab.1) (Z.of_N ab.2))
      ∧ (∃ ab, ab ∈ P
               ∧ shared.max r = Z.max (Z.of_N ab.1) (Z.of_N ab.2))
  end.
Proof.
  intros Hnone. induction P as [|ab P IH] using rev_ind; intros HP.
  - exact Hnone.
  - apply Forall_app in HP as [HP Hab].
    apply Forall_inv in Hab. specialize (IH HP).
    assert (∃ r, range (fold_left with_pair (P ++ [ab]) col) = r
                 ∧ (shared.min r < shared.max r)%Z
                 ∧ r = shared.update_string r
                 ∧ (∀ ab', ab' ∈ P ++ [ab] →
                      (shared.min r ≤ Z.min (Z.of_N ab'.1) (Z.of_N ab'.2))%Z
                      ∧ (Z.max (Z.of_N ab'.1) (Z.of_N ab'.2)
                         ≤ shared.max r)%Z)
                 ∧ (∃ ab', ab' ∈ P ++ [ab]
                      ∧ shared.min r
                        = Z.min (Z.of_N ab'.1) (Z.of_N ab'.2))
                 ∧ (∃ ab', ab' ∈ P ++ [ab]
                      ∧ shared.max r
                        = Z.max (Z.of_N ab'.1) (Z.of_N ab'.2)))
      as (r & <- & Hr); [|destruct P; exact Hr].
    rewrite fold_left_app. cbn [fold_left with_pair range].
    destruct (update_between ab (range (fold_left with_pair P col)) Hab)
      as [Hfirst Hnext].
    destruct (between_bounds ab.1 ab.2) as (Hmin & Hmax & Hstr & _).
    rewrite <- surjective_pairing in Hmin, Hmax, Hstr.
    destruct P as [|cd P].
    + eexists. split; [reflexivity|]. rewrite (Hfirst IH).
      rewrite Hmin, Hmax.
      split_and!; [lia|exact Hstr| | |].
      * intros ab' ->%list_elem_of_singleton. lia.
      * exists ab. split; [left|reflexivity].
      * exists ab. split; [left|reflexivity].
    + cbn zeta in IH.
      destruct IH as (Hlt & _ & Hall & (lo & Hlo & Hmin')
                      & (hi & Hhi & Hmax')).
      eexists. split; [reflexivity|]. rewrite (Hnext Hlt).
      set (r := range (fold_left with_pair (cd :: P) col)) in *.
      unfold shared.update_string.
      cbn [shared.min shared.max shared.out].
      split_and!; [lia|reflexivity| | |].
      * intros ab' [Hin|Hin%list_elem_of_singleton]%elem_of_app.
        -- destruct (Hall ab' Hin). lia.
        -- subst ab'. lia.
      * destruct (Z.le_ge_cases (shared.min r)
                    (Z.min (Z.of_N ab.1) (Z.of_N ab.2))).
        -- exists lo. split; [apply elem_of_app; left; exact Hlo|lia].
        -- exists ab. split; [apply elem_of_app; right; left|lia].
      * destruct (Z.le_ge_cases (Z.max (Z.of_N ab.1) (Z.of_N ab.2))
                    (shared.max r)).
        -- exists hi. split; [apply elem_of_app; left; exact Hhi|lia].
        -- exists ab. split; [apply elem_of_app; right; left|lia].
Qed.

Lemma elem_of_pairs (ns : list N) (a b : N) :
  (a, b) ∈ pairs ns ↔ a ∈ ns ∧ b ∈ ns ∧ a ≠ b.
Proof.
  unfold pairs, pairs_with. rewrite list_elem_of_bind. split.
  - intros (x & (y & Hin & Hy)%list_elem_of_bind & Hx).
    destruct (decide (x = y)); [inversion Hin|].
    apply list_elem_of_singleton in Hin. injection Hin as -> ->. done.
  - intros (Ha & Hb & Hne). exists a. split; [|exact Ha].
    apply list_elem_of_bind. exists b. split; [|exact Hb].
    rewrite decide_False by exact Hne. left.
Qed.

Lemma with_pair_fields (P : list (N * N)) (col : column) :
  fold_left with_pair P col
  = mkColumn (t col) (weight col) (sensitivity col) (unique col)
      (ranges (fold_left with_pair P col))
      (range (fold_left with_pair P col)) (graph col) (data col).
Proof.
  revert col. induction P as [|ab P IH]; intros col;
    [destruct col; reflexivity|].
  cbn [fold_left]. rewrite (IH (with_pair col ab)) at 1. reflexivity.
Qed.

(** X29. What [generate_ranges] leaves in an integer column of plain
    numbers below 2^31, as the constructor hands it over (no ranges yet,
    and the [Range(0, 0)] that [struct column] initialises [range]
    with): nothing but [ranges] and [range] changes;
    [range] is the span from the least to the greatest number, and
    [ranges] holds, in the order of their texts and once each, the ranges
    between two different numbers of the column except that span. A
    column with one number only has no ranges and the span [[0-0]]. *)
Theorem generate_ranges_of_numbers (col : column) (ns : list N) :
  t col = integer →
  ranges col = [] →
  range col = shared.Range_of_bounds 0 0 →
  data col = pretty <$> ns →
  Forall (λ n, (Z.of_N n < 2 ^ 31)%Z) ns →
  ∃ col',
    generate_ranges col = Ok col'
    ∧ col' = mkColumn (t col) (weight col) (sensitivity col) (unique col)
               (ranges col') (range col') (graph col) (data col)
    ∧ ordered (ranges col')
    ∧ ((∀ a b, a ∈ ns → b ∈ ns → a = b) →
       ranges col' = [] ∧ range col' = shared.Range_of_bounds 0 0)
    ∧ ∀ lo hi, lo ∈ ns → hi ∈ ns → (lo < hi)%N →
        (∀ n, n ∈ ns → (lo ≤ n ≤ hi)%N) →
        range col' = shared.Range_of_bounds (Z.of_N lo) (Z.of_N hi)
        ∧ ∀ r, r ∈ ranges col'
               ↔ ∃ a b, a ∈ ns ∧ b ∈ ns ∧ (a < b)%N ∧ (a, b) ≠ (lo, hi)
                        ∧ r = shared.Range_of_bounds (Z.of_N a) (Z.of_N b).
Proof.
  intros Ht Hnone Hdefault Hdata Hns.
  unfold generate_ranges. rewrite Ht.
  pose proof (generate_ranges_loops ns ns col Hdata Hns Hns) as Hloops.
  rewrite <- Hdata in Hloops. rewrite Hloops, result_bind_ok.
  clear Hloops. fold (pairs ns). cbn zeta.
  assert (Forall (λ ab, (Z.of_N ab.1 < 2 ^ 31)%Z ∧ (Z.of_N ab.2 < 2 ^ 31)%Z)
            (pairs ns)) as Hsmall.
  { apply Forall_forall. intros [a b] (Ha & Hb & _)%elem_of_pairs.
    rewrite Forall_forall in Hns. split; [exact (Hns a Ha)|exact (Hns b Hb)]. }
  assert (Forall (λ ab, ab.1 ≠ ab.2) (pairs ns)) as Hdiff.
  { apply Forall_forall. intros [a b] (_ & _ & Hne)%elem_of_pairs.
    exact Hne. }
  destruct (with_pair_ranges (pairs ns) col Hnone Hsmall) as [Hord Helem].
  pose proof (with_pair_range (pairs ns) col Hdefault Hdiff) as Hspan.
  rewrite (with_pair_fields (pairs ns) col).
  set (c1 := fold_left with_pair (pairs ns) col) in *.
  cbn [t weight sensitivity unique ranges range graph data].
  eexists. split; [reflexivity|].
  cbn [t weight sensitivity unique ranges range graph data].
  split; [rewrite Ht; reflexivity|].
  split; [apply set_erase_ordered, Hord|]. split.
  - intros Hone.
    assert (pairs ns = []) as Hnil.
    { destruct (pairs ns) as [|[a b] l] eqn:HP; [reflexivity|].
      assert ((a, b) ∈ pairs ns) as (Ha & Hb & Hne)%elem_of_pairs
        by (rewrite HP; left).
      destruct (Hne (Hone a b Ha Hb)). }
    unfold c1. rewrite Hnil. cbn [fold_left].
    rewrite Hnone, Hdefault. split; reflexivity.
  - intros lo hi Hlo Hhi Hlt Hall.
    assert ((lo, hi) ∈ pairs ns) as Hpair
      by (apply elem_of_pairs; split_and!; [exact Hlo|exact Hhi|lia]).
    assert (range c1 = between (lo, hi)) as Hrange.
    { destruct (pairs ns) as [|p P] eqn:HP; [inversion Hpair|].
      cbn zeta in Hspan.
      destruct Hspan as (_ & Hstr & Hcover & (ab & Hab & Hmin)
                         & (cd & Hcd & Hmax)).
      destruct (Hcover _ Hpair) as [Hle Hge]. cbn [fst snd] in Hle, Hge.
      rewrite <- HP in Hab, Hcd.
      destruct ab as [a b], cd as [c d].
      apply elem_of_pairs in Hab as (Ha & Hb & _).
      apply elem_of_pairs in Hcd as (Hc & Hd & _).
      cbn [fst snd] in Hmin, Hmax.
      pose proof (Hall a Ha). pose proof (Hall b Hb).
      pose proof (Hall c Hc). pose proof (Hall d Hd).
      rewrite Hstr. unfold shared.update_string, between,
        shared.Range_of_bounds. cbn [fst snd].
      rewrite (proj2 (Z.ltb_lt (Z.of_N lo) (Z.of_N hi))) by lia.
      replace (shared.min (range c1)) with (Z.of_N lo) by lia.
      replace (shared.max (range c1)) with (Z.of_N hi) by lia.
      reflexivity. }
    rewrite Hrange.
    destruct (between_bounds lo hi) as (Hmin & Hmax & Hstr & _).
    rewrite <- Hstr. split; [reflexivity|].
    intros r. unfold shared.set_erase.
    rewrite list_elem_of_filter, Helem. split.
    + intros (Hout & [a b] & Hab & ->).
      pose proof Hab as (Ha & Hb & Hne)%elem_of_pairs.
      destruct (N.lt_ge_cases a b) as [Hab'|Hba'].
      * exists a, b. split_and!; [exact Ha|exact Hb|exact Hab'| |reflexivity].
        intros [= -> ->]. apply Hout. reflexivity.
      * exists b, a.
        split_and!; [exact Hb|exact Ha|lia|
                     |exact (proj2 (proj2 (proj2 (between_bounds a b))))].
        intros [= -> ->]. apply Hout.
        rewrite (proj2 (proj2 (proj2 (between_bounds hi lo)))).
        reflexivity.
    + intros (a & b & Ha & Hb & Hab' & Hne & ->).
      fold (between (a, b)). split.
      * intros Hout.
        rewrite Forall_forall in Hns.
        pose proof (between_known (a, b) (lo, hi) (Hns a Ha) (Hns b Hb)
                      (Hns lo Hlo) (Hns hi Hhi) Hout) as Heq.
        destruct (between_bounds a b) as (Hmin' & Hmax' & _).
        rewrite Heq, Hmin in Hmin'. rewrite Heq, Hmax in Hmax'.
        apply Hne. f_equal; lia.
      * exists (a, b). split; [|reflexivity].
        apply elem_of_pairs. split_and!; [exact Ha|exact Hb|lia].
Qed.
End ColumnRanges.

Lemma generate_ranges_of_numbers_witness :
  ∃ col',
    table.generate_ranges
      (table.mkColumn table.integer 1 table.quasi
         (list_to_set ["25"; "40"; "60"]) [] (shared.Range_of_bounds 0 0)
         domain.Domain_default ["25"; "40"; "60"]) = Ok col'
    ∧ table.range col' = shared.Range_of_bounds 25 60.
Proof.
  destruct (generate_ranges_of_numbers
              (table.mkColumn table.integer 1 table.quasi
                 (list_to_set ["25"; "40"; "60"]) [] (shared.Range_of_bounds 0 0)
                 domain.Domain_default ["25"; "40"; "60"])
              [25; 40; 60]%N eq_refl eq_refl eq_refl eq_refl)
    as (col' & Hrun & _ & _ & _ & Hspan).
  - repeat constructor.
  - exists col'. split; [exact Hrun|].
    apply (Hspan 25%N 60%N).
    + left.
    + right. right. left.
    + lia.
    + intros n Hn. repeat (apply elem_of_cons in Hn as [->|Hn]; [lia|]).
      inversion Hn.
Defined.
